(** * go-minecraftping: the Server List Ping client, embedded in Rocq

    A shallow embedding of [minecraftping.go] (package [minecraftping]):
    the varint writer [putVarInt], the packet builders
    [makeHandshakePacket] and [makeRequestPacket] / [requestPacket], and
    the exchange driven by [Ping].

    Go values are represented as follows.
    - [byte]: [Init.Byte.byte]; [byte.of_Z] is Go's conversion [byte(x)]
      (the low 8 bits), [byte.unsigned] the value of a byte.
    - [uint64], [int32], [int], [uint16]: [Z], with the wrap-around of a
      conversion written out ([to_uint64], [to_int32]).
    - [string]: [String.string], a sequence of 8-bit characters as in Go;
      [len] is [String.length], [[]byte(s)] is [list_byte_of_string].
    - [[]byte], [bytes.Buffer]: [list byte].
    - a run-time panic: [None] in [option], [Panic] in [result].

    The functions of Go's standard library that the code calls are
    embedded with it, each after its Go source: [binary.PutUvarint],
    [binary.ReadUvarint] and [binary.BigEndian.PutUint16] of
    encoding/binary, [ReadByte], [Read] and [fill] of [bufio.Reader],
    [io.ReadFull], and [json.Unmarshal] of encoding/json for the type
    [Response].  The network is a script: the segments a connection
    delivers, the error it ends with, and what its writes return.  Time is
    not modelled; what a deadline does is part of the script.

    The file has three parts: the code, the functions of the
    specification the code is compared with, and the proofs. *)

From Stdlib Require Import ZArith List String Ascii Bool Lia DecimalString.
From Stdlib Require Import Strings.Byte.
From coqutil Require Import Byte.
From Equations Require Import Equations.
Import ListNotations.

Local Open Scope Z_scope.

(** * The code *)

(** ** Constants

<<
const (
	DefaultPort = 25565
	LatestProtocolVersion = 498
)
>>
*)
Definition DefaultPort : Z := 25565.
Definition LatestProtocolVersion : Z := 498.

(** ** Integer conversions *)

(** [uint64(x)] for a signed [x]: two's complement, so a negative value
    becomes a value of at least 2^63. *)
Definition to_uint64 (x : Z) : Z := x mod 2 ^ 64.

(** [int32(x)]: the low 32 bits, read as a signed number. *)
Definition to_int32 (x : Z) : Z := (x + 2 ^ 31) mod 2 ^ 32 - 2 ^ 31.

(** [len(s)] of a Go string, as an [int]. *)
Definition len (s : string) : Z := Z.of_nat (String.length s).

(** ** Panics *)

(** A computation that may panic.  [x <- c ;; k] runs [k] unless [c]
    panicked. *)
Notation "x <- c ;; k" :=
  (match c with Some x => k | None => None end)
  (at level 61, c at next level, right associativity).

(** [buf[i] = b]: an index out of range panics. *)
Definition store (buf : list byte) (i : nat) (b : byte) : option (list byte) :=
  if (i <? List.length buf)%nat then Some (firstn i buf ++ b :: skipn (S i) buf)
  else None.

(** ** encoding/binary: PutUvarint

<<
func PutUvarint(buf []byte, x uint64) int {
	i := 0
	for x >= 0x80 {
		buf[i] = byte(x) | 0x80
		x >>= 7
		i++
	}
	buf[i] = byte(x)
	return i + 1
}
>>
*)

Definition MaxVarintLen32 : nat := 5.
Definition MaxVarintLen64 : nat := 10.

Definition inspect {A} (a : A) : {b : A | a = b} := exist _ a eq_refl.

(** The loop of [PutUvarint] from index [i] on; the result is the buffer
    and the returned count. *)
Equations? PutUvarint_from (buf : list byte) (x : Z) (i : nat)
  : option (list byte * nat) by wf (Z.to_nat (Z.log2 x)) lt :=
  PutUvarint_from buf x i with inspect (0x80 <=? x) := {
    | exist _ true Hge with store buf i (byte.of_Z (Z.lor (byte.unsigned (byte.of_Z x)) 0x80)) := {
        | None := None
        | Some buf' := PutUvarint_from buf' (Z.shiftr x 7) (S i) }
    | exist _ false _ with store buf i (byte.of_Z x) := {
        | None := None
        | Some buf' := Some (buf', S i) } }.
Proof.
  apply Z.leb_le in Hge.
  assert (7 <= Z.log2 x) by (apply Z.log2_le_pow2; lia).
  rewrite Z.log2_shiftr by lia.
  lia.
Qed.

Definition PutUvarint (buf : list byte) (x : Z) : option (list byte * nat) :=
  PutUvarint_from buf x 0.

(** ** putVarInt

<<
func putVarInt(buf *bytes.Buffer, value int32) {
	bytes := make([]byte, binary.MaxVarintLen32)
	bytesWritten := binary.PutUvarint(bytes, uint64(value))

	buf.Write(bytes[:bytesWritten])
}
>>
    [value] is an [int32]; the result is the buffer after the write. *)
Definition putVarInt (buf : list byte) (value : Z) : option (list byte) :=
  let bytes := repeat Byte.x00 MaxVarintLen32 in
  r <- PutUvarint bytes (to_uint64 value) ;;
  let '(bytes, bytesWritten) := r in
  Some (buf ++ firstn bytesWritten bytes).

(** ** encoding/binary: BigEndian.PutUint16

    [b[0] = byte(v >> 8); b[1] = byte(v)], as [binary.Write] does for a
    [uint16] with [binary.BigEndian]. *)
Definition BigEndian_PutUint16 (v : Z) : list byte :=
  [byte.of_Z (Z.shiftr v 8); byte.of_Z v].

(** ** The packets *)

(** [var requestPacket = []byte{1, 0}] *)
Definition requestPacket : list byte := [Byte.x01; Byte.x00].

(** [func makeRequestPacket() []byte { return []byte{1, 0} }] *)
Definition makeRequestPacket (_ : unit) : list byte := [Byte.x01; Byte.x00].

(** [makeHandshakePacket(address string, port uint16, protocolVersion int)]:
    the statements of the source in their order; [None] when a
    [putVarInt] panics. *)
Definition makeHandshakePacket (address : string) (port : Z) (protocolVersion : Z)
  : option (list byte) :=
  let buf : list byte := [] in
  let buf := buf ++ [Byte.x00] in
  buf <- putVarInt buf (to_int32 protocolVersion) ;;
  buf <- putVarInt buf (to_int32 (len address)) ;;
  let buf := buf ++ list_byte_of_string address in
  let buf := buf ++ BigEndian_PutUint16 port in
  buf <- putVarInt buf 1 ;;
  let out : list byte := [] in
  out <- putVarInt out (to_int32 (Z.of_nat (List.length buf))) ;;
  let out := out ++ buf in
  Some out.

(** ** Errors

    The [error] values the exchange can return. *)
Inductive error : Type :=
| EOF                          (* io.EOF *)
| ErrUnexpectedEOF             (* io.ErrUnexpectedEOF *)
| ErrNoProgress                (* io.ErrNoProgress *)
| ErrShortBuffer               (* io.ErrShortBuffer *)
| errOverflow                  (* binary: varint overflows a 64-bit integer *)
| ErrNet (msg : string)        (* package net: i/o timeout, connection reset, ... *)
| ErrPacketId (packetId : Z)   (* "received invalid packetId (expected 0!) %d" *)
| SyntaxError                  (* *json.SyntaxError *)
| UnmarshalTypeError (Value : string). (* *json.UnmarshalTypeError, with its Value *)

Definition is_EOF (e : error) : bool :=
  match e with EOF => true | _ => false end.

(** ** The connection

    What [net.Conn] does is given by a script.  The peer's bytes arrive
    in segments; a segment is never empty, as a [Read] on a TCP
    connection blocks until there is data or an error. *)
Record chunk : Type := Chunk { chunk_head : byte; chunk_tail : list byte }.

Definition chunk_bytes (c : chunk) : list byte := chunk_head c :: chunk_tail c.

Record Conn : Type := mkConn {
  incoming : list chunk;          (* the segments still to be read *)
  final : error;                  (* what Read returns after the last segment:
                                     io.EOF when the peer closed, a timeout
                                     when the deadline passed, ... *)
  deadline_result : option error; (* what SetDeadline returns *)
  write_results : list (option error); (* what the coming Writes return, in order;
                                          nil once the script is used up *)
  written : list (list byte);     (* the argument of every Write so far, in order *)
  closed : bool                   (* Close was called *)
}.

(** [conn.Read(p)] with [len(p) = n]: up to [n] bytes of the first
    segment; what is left of it stays first. *)
Definition conn_Read (c : Conn) (n : nat) : (list byte * option error) * Conn :=
  match n with
  | O => (([], None), c)
  | S _ =>
      match incoming c with
      | [] => (([], Some (final c)), c)
      | ch :: rest =>
          let left := match skipn n (chunk_bytes ch) with
                      | [] => rest
                      | b :: bs => Chunk b bs :: rest
                      end in
          ((firstn n (chunk_bytes ch), None),
           mkConn left (final c) (deadline_result c) (write_results c) (written c) (closed c))
      end
  end.

(** [conn.Write(b)]: the call is logged, its result comes from the script. *)
Definition conn_Write (c : Conn) (b : list byte) : option error * Conn :=
  (hd None (write_results c),
   mkConn (incoming c) (final c) (deadline_result c) (tl (write_results c))
          (written c ++ [b]) (closed c)).

Definition conn_SetDeadline (c : Conn) : option error := deadline_result c.

Definition conn_Close (c : Conn) : Conn :=
  mkConn (incoming c) (final c) (deadline_result c) (write_results c) (written c) true.

(** ** io.ByteReader *)

(** [ReadByte() (byte, error)], with the reader's state passed along. *)
Class ByteReader (R : Type) : Type :=
  ReadByte : R -> (byte * option error) * R.

(** A byte sequence read to its end, where [at_end] is returned; with
    [at_end = EOF] this is [bytes.Reader]. *)
Record ByteStream : Type := mkStream { rest : list byte; at_end : error }.

#[export] Instance ByteStream_ReadByte : ByteReader ByteStream :=
  fun r =>
    match rest r with
    | [] => ((Byte.x00, Some (at_end r)), r)
    | b :: bs => ((b, None), mkStream bs (at_end r))
    end.

(** ** bufio.Reader

    [buf] stands for [b.buf[b.r:b.w]], the bytes read from [rd] and not
    yet handed out. *)
Record Reader : Type := mkReader { rd : Conn; buf : list byte; err : option error }.

Definition defaultBufSize : nat := 4096.
Definition maxConsecutiveEmptyReads : nat := 100.

(* The two sizes are kept folded in proofs. *)
#[global] Opaque defaultBufSize maxConsecutiveEmptyReads.

Lemma defaultBufSize_pos : (0 < defaultBufSize)%nat.
Proof. with_strategy transparent [defaultBufSize] (unfold defaultBufSize); lia. Qed.

Definition NewReader (c : Conn) : Reader := mkReader c [] None.

(** [func (b *Reader) readErr() error { err := b.err; b.err = nil; return err }] *)
Definition readErr (b : Reader) : option error * Reader :=
  (err b, mkReader (rd b) (buf b) None).

(** [b.fill()]: the data is slid to the start of the buffer, and the
    space after it is offered to [rd.Read], at most
    [maxConsecutiveEmptyReads] times while nothing arrives.  (The callers
    here fill an empty buffer; a full one would panic.)
<<
	for i := maxConsecutiveEmptyReads; i > 0; i-- {
		n, err := b.rd.Read(b.buf[b.w:])
		b.w += n
		if err != nil { b.err = err; return }
		if n > 0 { return }
	}
	b.err = io.ErrNoProgress
>>
*)
Fixpoint fill_loop (i : nat) (b : Reader) : Reader :=
  match i with
  | O => mkReader (rd b) (buf b) (Some ErrNoProgress)
  | S i' =>
      let '((data, e), rd') := conn_Read (rd b) (defaultBufSize - List.length (buf b)) in
      let b := mkReader rd' (buf b ++ data) (err b) in
      match e with
      | Some e => mkReader (rd b) (buf b) (Some e)
      | None => match data with
                | [] => fill_loop i' b
                | _ :: _ => b
                end
      end
  end.

Definition fill (b : Reader) : Reader := fill_loop maxConsecutiveEmptyReads b.

(** Whatever [rd] does, [fill] returns with data in the buffer or with
    [b.err] set; the loop of [ReadByte] below relies on it. *)
Lemma fill_loop_progress (i : nat) (b : Reader) :
  buf (fill_loop i b) <> [] \/ err (fill_loop i b) <> None.
Proof.
  revert b; induction i as [|i IH]; intros b; cbn [fill_loop].
  - right; discriminate.
  - destruct (conn_Read (rd b) (defaultBufSize - List.length (buf b))) as [[data e] rd'].
    destruct e as [e|]; cbn [rd buf err].
    + right; discriminate.
    + destruct data as [|d data]; [apply IH|].
      left; cbn [buf]. intros H; apply app_eq_nil in H; destruct H; discriminate.
Qed.

Definition reader_rank (b : Reader) : nat :=
  match buf b, err b with
  | _ :: _, _ => 0
  | [], Some _ => 1
  | [], None => 2
  end.

(** [func (b *Reader) ReadByte() (byte, error)]
<<
	for b.r == b.w {
		if b.err != nil {
			return 0, b.readErr()
		}
		b.fill() // buffer is empty
	}
	c := b.buf[b.r]
	b.r++
	return c, nil
>>
*)
Equations? Reader_ReadByte (b : Reader) : (byte * option error) * Reader
  by wf (reader_rank b) lt :=
  Reader_ReadByte b with inspect (buf b) := {
    | exist _ (c :: bs) _ := ((c, None), mkReader (rd b) bs (err b))
    | exist _ [] Hbuf with inspect (err b) := {
        | exist _ (Some _) _ := ((Byte.x00, fst (readErr b)), snd (readErr b))
        | exist _ None Herr := Reader_ReadByte (fill b) } }.
Proof.
  unfold reader_rank. rewrite Hbuf, Herr.
  destruct (fill_loop_progress maxConsecutiveEmptyReads b) as [H|H]; fold (fill b) in H.
  - destruct (buf (fill b)); [congruence | lia].
  - destruct (buf (fill b)); [|lia]. destruct (err (fill b)); [lia | congruence].
Qed.

#[export] Instance Reader_ByteReader : ByteReader Reader := Reader_ReadByte.

(** [func (b *Reader) Read(p []byte) (n int, err error)] with
    [len(p) = n]; the bytes copied to [p] are returned.
<<
	n = len(p)
	if n == 0 {
		if b.Buffered() > 0 { return 0, nil }
		return 0, b.readErr()
	}
	if b.r == b.w {
		if b.err != nil { return 0, b.readErr() }
		if len(p) >= len(b.buf) {
			// Large read, empty buffer. Read directly into p to avoid copy.
			n, b.err = b.rd.Read(p)
			return n, b.readErr()
		}
		// One read. Do not use b.fill, which will loop.
		b.r = 0
		b.w = 0
		n, b.err = b.rd.Read(b.buf)
		if n == 0 { return 0, b.readErr() }
		b.w += n
	}
	// copy as much as we can
	n = copy(p, b.buf[b.r:b.w])
	b.r += n
	return n, nil
>>
*)
Definition Reader_Read (b : Reader) (n : nat) : (list byte * option error) * Reader :=
  match n with
  | O =>
      match buf b with
      | _ :: _ => (([], None), b)
      | [] => (([], fst (readErr b)), snd (readErr b))
      end
  | S _ =>
      match buf b with
      | [] =>
          match err b with
          | Some _ => (([], fst (readErr b)), snd (readErr b))
          | None =>
              if (defaultBufSize <=? n)%nat then
                let '((data, e), rd') := conn_Read (rd b) n in
                let b := mkReader rd' [] e in
                ((data, fst (readErr b)), snd (readErr b))
              else
                let '((data, e), rd') := conn_Read (rd b) defaultBufSize in
                let b := mkReader rd' [] e in
                match data with
                | [] => (([], fst (readErr b)), snd (readErr b))
                | _ :: _ => ((firstn n data, None), mkReader (rd b) (skipn n data) (err b))
                end
          end
      | _ :: _ => ((firstn n (buf b), None), mkReader (rd b) (skipn n (buf b)) (err b))
      end
  end.

(** ** encoding/binary: ReadUvarint
<<
func ReadUvarint(r io.ByteReader) (uint64, error) {
	var x uint64
	var s uint
	for i := 0; i < MaxVarintLen64; i++ {
		b, err := r.ReadByte()
		if err != nil {
			if i > 0 && err == io.EOF {
				err = io.ErrUnexpectedEOF
			}
			return x, err
		}
		if b < 0x80 {
			if i == MaxVarintLen64-1 && b > 1 {
				return x, errOverflow
			}
			return x | uint64(b)<<s, nil
		}
		x |= uint64(b&0x7f) << s
		s += 7
	}
	return x, errOverflow
}
>>
*)

(** [a << s] on [uint64]. *)
Definition shl64 (a s : Z) : Z := Z.shiftl a s mod 2 ^ 64.

(** The loop from iteration [i] on, with [todo = MaxVarintLen64 - i]
    iterations to go. *)
Fixpoint ReadUvarint_loop {R : Type} {BR : ByteReader R}
    (todo : nat) (i x s : Z) (r : R) : (Z * option error) * R :=
  match todo with
  | O => ((x, Some errOverflow), r)
  | S todo' =>
      let '((b, e), r) := ReadByte r in
      match e with
      | Some e =>
          ((x, Some (if (0 <? i) && is_EOF e then ErrUnexpectedEOF else e)), r)
      | None =>
          if byte.unsigned b <? 0x80 then
            if (i =? Z.of_nat MaxVarintLen64 - 1) && (1 <? byte.unsigned b)
            then ((x, Some errOverflow), r)
            else ((Z.lor x (shl64 (byte.unsigned b) s), None), r)
          else
            ReadUvarint_loop todo' (i + 1)
              (Z.lor x (shl64 (Z.land (byte.unsigned b) 0x7f) s)) (s + 7) r
      end
  end.

Definition ReadUvarint {R : Type} {BR : ByteReader R} (r : R) : (Z * option error) * R :=
  ReadUvarint_loop MaxVarintLen64 0 0 0 r.

(** ** io.ReadFull

    The bytes a connection still holds, and those a reader can still hand
    out. *)
Definition pending (c : Conn) : list byte := flat_map chunk_bytes (incoming c).

Definition stream (b : Reader) : list byte := buf b ++ pending (rd b).

Definition avail (b : Reader) : nat := List.length (stream b).

(** A [Read] of at least one byte returns data or an error. *)
Lemma conn_Read_inv (c : Conn) (n : nat) data e c' :
  (0 < n)%nat -> conn_Read c n = ((data, e), c') ->
  (e = None /\ data <> [] /\ (List.length data <= n)%nat /\
   pending c = data ++ pending c' /\ final c' = final c) \/
  (e = Some (final c) /\ data = [] /\ c' = c /\ incoming c = []).
Proof.
  intros Hn H. unfold conn_Read in H.
  destruct n as [|n]; [lia|].
  destruct (incoming c) as [|ch rest] eqn:Hin.
  - right. injection H as <- <- <-. auto.
  - left. cbv beta iota in H. injection H as <- <- <-.
    split; [reflexivity|]. split; [discriminate|].
    split; [apply (firstn_le_length (S n) (chunk_bytes ch))|].
    split; [|reflexivity].
    change (pending c = firstn (S n) (chunk_bytes ch) ++
      pending (mkConn (match skipn (S n) (chunk_bytes ch) with
                       | [] => rest
                       | b :: bs => Chunk b bs :: rest
                       end) (final c) (deadline_result c) (write_results c)
                      (written c) (closed c))).
    unfold pending. rewrite Hin. cbn [flat_map incoming].
    rewrite <- (firstn_skipn (S n) (chunk_bytes ch)) at 1.
    rewrite <- app_assoc. f_equal.
    destruct (skipn (S n) (chunk_bytes ch)); reflexivity.
Qed.

Lemma skipn_shorter {A : Type} (n : nat) (l : list A) :
  (0 < n)%nat -> l <> [] -> (List.length (skipn n l) < List.length l)%nat.
Proof.
  intros Hn Hl. rewrite length_skipn.
  destruct l; [congruence | cbn [List.length]; lia].
Qed.

Lemma Reader_Read_progress (b : Reader) (n : nat) data b' :
  (0 < n)%nat -> Reader_Read b n = ((data, None), b') ->
  (avail b' < avail b)%nat.
Proof.
  intros Hn H. unfold Reader_Read in H.
  destruct n as [|n]; [lia|].
  unfold avail, stream.
  destruct (buf b) as [|x xs] eqn:Hbuf.
  - destruct (err b) as [e|] eqn:Herr.
    + unfold readErr in H. cbn [fst snd] in H. rewrite Herr in H. discriminate.
    + destruct (defaultBufSize <=? S n)%nat.
      * destruct (conn_Read (rd b) (S n)) as [[d e] rd'] eqn:Hc.
        unfold readErr in H; cbn [fst snd err rd buf] in H.
        inversion H; subst; clear H.
        apply conn_Read_inv in Hc; [|lia].
        destruct Hc as [(_ & Hd & _ & Hp & _)|(He & _)]; [|discriminate].
        cbn [buf rd app]. rewrite Hp, length_app.
        destruct data; [congruence | cbn [List.length]; lia].
      * destruct (conn_Read (rd b) defaultBufSize) as [[d e] rd'] eqn:Hc.
        apply conn_Read_inv in Hc; [|apply defaultBufSize_pos].
        destruct Hc as [(He & Hd & _ & Hp & _)|(He & Hd & _)].
        -- destruct d as [|d0 d]; [congruence|].
           cbn [rd err] in H. inversion H; subst; clear H.
           cbn [buf rd app]. rewrite Hp, !length_app.
           pose proof (skipn_shorter (S n) (d0 :: d)) as Hs.
           specialize (Hs ltac:(lia) ltac:(discriminate)).
           cbn [skipn] in Hs. lia.
        -- subst d. unfold readErr in H; cbn [fst snd err] in H.
           rewrite He in H. discriminate.
  - injection H as <- <-. cbn [buf rd]. rewrite !length_app.
    pose proof (skipn_shorter (S n) (x :: xs)) as Hs.
    specialize (Hs ltac:(lia) ltac:(discriminate)).
    cbn [skipn] in Hs |- *. lia.
Qed.

Definition is_nil (e : option error) : bool :=
  match e with None => true | Some _ => false end.

Definition ReadFull_rank (r : Reader) (min n : nat) (e : option error) : nat :=
  if (n <? min)%nat && is_nil e then S (avail r) else 0.

(** [io.ReadFull(r, buf)] is [io.ReadAtLeast(r, buf, len(buf))]:
<<
func ReadAtLeast(r Reader, buf []byte, min int) (n int, err error) {
	if len(buf) < min {
		return 0, ErrShortBuffer
	}
	for n < min && err == nil {
		var nn int
		nn, err = r.Read(buf[n:])
		n += nn
	}
	if n >= min {
		err = nil
	} else if n > 0 && err == EOF {
		err = ErrUnexpectedEOF
	}
	return
}
>>
    [ReadFull_loop] is the loop at [min = len(buf) = size], for the
    [*bufio.Reader] that [Ping] reads from; [got] is [buf[:n]]. *)
Equations? ReadFull_loop (r : Reader) (size : nat) (got : list byte) (e : option error)
  : (list byte * option error) * Reader
  by wf (ReadFull_rank r size (List.length got) e) lt :=
  ReadFull_loop r size got e
    with inspect ((List.length got <? size)%nat && is_nil e) := {
    | exist _ false _ := ((got, e), r)
    | exist _ true Hc with inspect (Reader_Read r (size - List.length got)) := {
        | exist _ ((data, e'), r') Hr := ReadFull_loop r' size (got ++ data) e' } }.
Proof.
  unfold ReadFull_rank. rewrite Hc.
  apply andb_prop in Hc. destruct Hc as [Hlt He]. apply Nat.ltb_lt in Hlt.
  destruct ((List.length (got ++ data) <? size)%nat && is_nil e') eqn:Hc'; [|lia].
  apply andb_prop in Hc'. destruct Hc' as [_ He'].
  destruct e'; [discriminate|].
  apply Reader_Read_progress in Hr; lia.
Qed.

(** The result is the count [n] as the bytes [buf[:n]], and [err]. *)
Definition ReadFull (r : Reader) (size : nat) : (list byte * option error) * Reader :=
  let '((got, e), r) := ReadFull_loop r size [] None in
  let n := List.length got in
  let e := if (size <=? n)%nat then None
           else if (0 <? n)%nat && match e with Some EOF => true | _ => false end
                then Some ErrUnexpectedEOF
                else e in
  ((got, e), r).

(** ** Response
<<
type Response struct {
	Version struct {
		Name     string `json:"name"`
		Protocol int    `json:"protocol"`
	} `json:"version"`
	Players struct {
		Max    int `json:"max"`
		Online int `json:"online"`
		Sample []struct {
			Name string `json:"name"`
			Id   string `json:"id"`
		} `json:"sample"`
	} `json:"players"`
	Description json.RawMessage `json:"description"`
	Favicon     string          `json:"favicon"`
}
>>
*)
Record SampleEntry : Type := mkSample { Sample_Name : string; Sample_Id : string }.

(** A slice: its elements, what an earlier store left in its array past
    its length (a later store into the slice finds it there), and
    whether it is not [nil].  The capacity is not modelled: when the
    decoder grows the array the runtime chooses how far, and past
    [elems] and [spare] the array goes on with as many entries as that
    leaves, all of them the zero value. *)
Record slice (A : Type) : Type := mkSlice {
  elems : list A;
  spare : list A;
  nonnil : bool
}.
Arguments mkSlice {A} _ _ _.
Arguments elems {A} _.
Arguments spare {A} _.
Arguments nonnil {A} _.

Record VersionInfo : Type := mkVersion { Version_Name : string; Version_Protocol : Z }.

Record PlayersInfo : Type := mkPlayers {
  Players_Max : Z;
  Players_Online : Z;
  Players_Sample : slice SampleEntry
}.

(** [Description] is a [json.RawMessage], a [[]byte]; [nil] is [[]]. *)
Record Response : Type := mkResponse {
  Version : VersionInfo;
  Players : PlayersInfo;
  Description : list byte;
  Favicon : string
}.

Definition nilSlice {A : Type} : slice A := mkSlice [] [] false.

(** [var resp Response] *)
Definition zeroResponse : Response :=
  mkResponse (mkVersion "" 0) (mkPlayers 0 0 nilSlice) [] "".

Set Warnings "-register-all,-abstract-large-number".

(** ** encoding/json

    [json.Unmarshal(data, &resp)] for the type [Response]: the text is
    checked to be one JSON value ([checkValid], the scanner of
    encoding/json), and the value is then stored into the struct, field
    by field. *)
Module json.

(** *** The scanner *)

Inductive token : Type :=
| TBeginObject | TEndObject | TBeginArray | TEndArray | TColon | TComma
| TString (body : list byte)   (* the bytes between the quotes, as written *)
| TNumber (lit : list byte)    (* the literal *)
| TTrue | TFalse | TNull.

(** A token with the offsets of its first byte and of the byte after it. *)
Definition ptoken : Type := token * (nat * nat).

(** The states of a number: [stateNeg], [state0], [state1], [stateDot],
    [stateDot0], [stateE], [stateESign], [stateE0]. *)
Inductive numstate : Type :=
| NNeg | N0 | N1 | NDot | NDot0 | NE | NESign | NE0.

Inductive lexstate : Type :=
| LStart
| LString (start : nat) (acc : list byte)
| LStringEsc (start : nat) (acc : list byte)
| LStringU (start : nat) (acc : list byte) (more : nat)
| LNum (st : numstate) (start : nat) (acc : list byte)
| LLit (start : nat) (expected : list byte) (t : token).

Definition is_digit (b : byte) : bool :=
  (48 <=? byte.unsigned b) && (byte.unsigned b <=? 57).

Definition is_digit19 (b : byte) : bool :=
  (49 <=? byte.unsigned b) && (byte.unsigned b <=? 57).

Definition is_hex (b : byte) : bool :=
  is_digit b
  || ((97 <=? byte.unsigned b) && (byte.unsigned b <=? 102))
  || ((65 <=? byte.unsigned b) && (byte.unsigned b <=? 70)).

(** The next state of a number, or [None] when [b] is no part of it. *)
Definition num_step (st : numstate) (b : byte) : option numstate :=
  match st, b with
  | NNeg, Byte.x30 => Some N0
  | NNeg, _ => if is_digit19 b then Some N1 else None
  | N0, Byte.x2e => Some NDot
  | N0, (Byte.x65 | Byte.x45) => Some NE
  | N0, _ => None
  | N1, Byte.x2e => Some NDot
  | N1, (Byte.x65 | Byte.x45) => Some NE
  | N1, _ => if is_digit b then Some N1 else None
  | NDot, _ => if is_digit b then Some NDot0 else None
  | NDot0, (Byte.x65 | Byte.x45) => Some NE
  | NDot0, _ => if is_digit b then Some NDot0 else None
  | NE, (Byte.x2b | Byte.x2d) => Some NESign
  | NE, _ => if is_digit b then Some NE0 else None
  | NESign, _ => if is_digit b then Some NE0 else None
  | NE0, _ => if is_digit b then Some NE0 else None
  end.

(** The states a number may end in. *)
Definition num_done (st : numstate) : bool :=
  match st with
  | N0 | N1 | NDot0 | NE0 => true
  | NNeg | NDot | NE | NESign => false
  end.

(** A byte between tokens. *)
Definition lex_start (pos : nat) (b : byte) : option (list ptoken * lexstate) :=
  match b with
  | Byte.x20 | Byte.x09 | Byte.x0d | Byte.x0a => Some ([], LStart)
  | Byte.x7b => Some ([(TBeginObject, (pos, S pos))], LStart)
  | Byte.x7d => Some ([(TEndObject, (pos, S pos))], LStart)
  | Byte.x5b => Some ([(TBeginArray, (pos, S pos))], LStart)
  | Byte.x5d => Some ([(TEndArray, (pos, S pos))], LStart)
  | Byte.x3a => Some ([(TColon, (pos, S pos))], LStart)
  | Byte.x2c => Some ([(TComma, (pos, S pos))], LStart)
  | Byte.x22 => Some ([], LString pos [])
  | Byte.x2d => Some ([], LNum NNeg pos [b])
  | Byte.x30 => Some ([], LNum N0 pos [b])
  | Byte.x74 => Some ([], LLit pos [Byte.x72; Byte.x75; Byte.x65] TTrue)
  | Byte.x66 => Some ([], LLit pos [Byte.x61; Byte.x6c; Byte.x73; Byte.x65] TFalse)
  | Byte.x6e => Some ([], LLit pos [Byte.x75; Byte.x6c; Byte.x6c] TNull)
  | _ => if is_digit19 b then Some ([], LNum N1 pos [b]) else None
  end.

(** One byte: the tokens it ends and the next state, or [None] for a
    syntax error.  The accumulators are in reverse. *)
Definition lex_step (st : lexstate) (pos : nat) (b : byte)
  : option (list ptoken * lexstate) :=
  match st with
  | LStart => lex_start pos b
  | LString start acc =>
      match b with
      | Byte.x22 => Some ([(TString (rev acc), (start, S pos))], LStart)
      | Byte.x5c => Some ([], LStringEsc start (b :: acc))
      | _ => if byte.unsigned b <? 32 then None else Some ([], LString start (b :: acc))
      end
  | LStringEsc start acc =>
      match b with
      | Byte.x62 | Byte.x66 | Byte.x6e | Byte.x72 | Byte.x74
      | Byte.x5c | Byte.x2f | Byte.x22 => Some ([], LString start (b :: acc))
      | Byte.x75 => Some ([], LStringU start (b :: acc) 4)
      | _ => None
      end
  | LStringU start acc more =>
      if is_hex b then
        match more with
        | O | S O => Some ([], LString start (b :: acc))
        | S more' => Some ([], LStringU start (b :: acc) more')
        end
      else None
  | LNum ns start acc =>
      match num_step ns b with
      | Some ns' => Some ([], LNum ns' start (b :: acc))
      | None =>
          if num_done ns then
            match lex_start pos b with
            | Some (ts, st') => Some ((TNumber (rev acc), (start, pos)) :: ts, st')
            | None => None
            end
          else None
      end
  | LLit start expected t =>
      match expected with
      | [] => None
      | c :: expected' =>
          if Byte.eqb b c then
            match expected' with
            | [] => Some ([(t, (start, S pos))], LStart)
            | _ :: _ => Some ([], LLit start expected' t)
            end
          else None
      end
  end.

(** The end of the text. *)
Definition lex_end (st : lexstate) (pos : nat) : option (list ptoken) :=
  match st with
  | LStart => Some []
  | LNum ns start acc =>
      if num_done ns then Some [(TNumber (rev acc), (start, pos))] else None
  | _ => None
  end.

Fixpoint lex_run (st : lexstate) (pos : nat) (input : list byte)
  : option (list ptoken) :=
  match input with
  | [] => lex_end st pos
  | b :: input' =>
      match lex_step st pos b with
      | None => None
      | Some (ts, st') =>
          match lex_run st' (S pos) input' with
          | None => None
          | Some ts' => Some (ts ++ ts')
          end
      end
  end.

(** *** Values *)

(** A JSON value; a member of an object is its key (as written between
    the quotes), its value, and the text of its value. *)
Inductive value : Type :=
| JNull
| JBool (b : bool)
| JNumber (lit : list byte)
| JString (body : list byte)
| JArray (elems : list value)
| JObject (members : list (list byte * value * list byte)).

Definition member : Type := (list byte * value * list byte)%type.

(** The values being read: an array with its elements so far, or an
    object with its members so far and the key whose value is read. *)
Inductive frame : Type :=
| FArray (start : nat) (elems : list value)
| FObject (start : nat) (members : list member) (key : option (list byte)).

(** What may come next. *)
Inductive pstate : Type :=
| PValue          (* a value *)
| PArrayStart     (* after '[': a value or ']' *)
| PObjectStart    (* after '{': a key or '}' *)
| PKey            (* after ',' in an object: a key *)
| PColon          (* after a key: ':' *)
| PAfterValue     (* after a value in an array or object: ',' or the end of it *)
| PDone (v : value). (* after the top-level value: nothing *)

Definition maxNestingDepth : nat := 10000.

Definition slice_of (input : list byte) (s e : nat) : list byte :=
  firstn (e - s) (skipn s input).

(** A value is complete. *)
Definition complete (input : list byte) (v : value) (s e : nat) (stack : list frame)
  : option (pstate * list frame) :=
  match stack with
  | [] => Some (PDone v, [])
  | FArray st els :: stack' => Some (PAfterValue, FArray st (v :: els) :: stack')
  | FObject st ms (Some k) :: stack' =>
      Some (PAfterValue, FObject st ((k, v, slice_of input s e) :: ms) None :: stack')
  | FObject _ _ None :: _ => None
  end.

(** An array or object begins; nesting deeper than [maxNestingDepth] is
    an error ("exceeded max depth"). *)
Definition push (f : frame) (next : pstate) (stack : list frame)
  : option (pstate * list frame) :=
  if (List.length (f :: stack) <=? maxNestingDepth)%nat
  then Some (next, f :: stack) else None.

Definition begin_value (input : list byte) (t : ptoken) (stack : list frame)
  : option (pstate * list frame) :=
  let '(tok, (s, e)) := t in
  match tok with
  | TNull => complete input JNull s e stack
  | TTrue => complete input (JBool true) s e stack
  | TFalse => complete input (JBool false) s e stack
  | TNumber lit => complete input (JNumber lit) s e stack
  | TString body => complete input (JString body) s e stack
  | TBeginArray => push (FArray s []) PArrayStart stack
  | TBeginObject => push (FObject s [] None) PObjectStart stack
  | TEndArray | TEndObject | TColon | TComma => None
  end.

Definition end_array (input : list byte) (e : nat) (stack : list frame)
  : option (pstate * list frame) :=
  match stack with
  | FArray st els :: stack' => complete input (JArray (rev els)) st e stack'
  | _ => None
  end.

Definition end_object (input : list byte) (e : nat) (stack : list frame)
  : option (pstate * list frame) :=
  match stack with
  | FObject st ms None :: stack' => complete input (JObject (rev ms)) st e stack'
  | _ => None
  end.

Definition read_key (t : ptoken) (stack : list frame) : option (pstate * list frame) :=
  match fst t, stack with
  | TString body, FObject st ms None :: stack' =>
      Some (PColon, FObject st ms (Some body) :: stack')
  | _, _ => None
  end.

Definition parse_step (input : list byte) (st : pstate) (stack : list frame) (t : ptoken)
  : option (pstate * list frame) :=
  match st with
  | PValue => begin_value input t stack
  | PArrayStart =>
      match fst t with
      | TEndArray => end_array input (snd (snd t)) stack
      | _ => begin_value input t stack
      end
  | PObjectStart =>
      match fst t with
      | TEndObject => end_object input (snd (snd t)) stack
      | _ => read_key t stack
      end
  | PKey => read_key t stack
  | PColon =>
      match fst t with
      | TColon => Some (PValue, stack)
      | _ => None
      end
  | PAfterValue =>
      match fst t, stack with
      | TComma, FArray _ _ :: _ => Some (PValue, stack)
      | TComma, FObject _ _ _ :: _ => Some (PKey, stack)
      | TEndArray, _ => end_array input (snd (snd t)) stack
      | TEndObject, _ => end_object input (snd (snd t)) stack
      | _, _ => None
      end
  | PDone _ => None
  end.

Fixpoint parse_run (input : list byte) (st : pstate) (stack : list frame)
    (ts : list ptoken) : option value :=
  match ts with
  | [] => match st with PDone v => Some v | _ => None end
  | t :: ts' =>
      match parse_step input st stack t with
      | None => None
      | Some (st', stack') => parse_run input st' stack' ts'
      end
  end.

(** The value a text is, or [None] for a syntax error. *)
Definition parse (input : list byte) : option value :=
  match lex_run LStart 0 input with
  | None => None
  | Some ts => parse_run input PValue [] ts
  end.

(** *** Strings: [unquote] *)

Definition u (b : byte) : Z := byte.unsigned b.

Definition hexval (b : byte) : Z :=
  if is_digit b then u b - 48
  else if (97 <=? u b) && (u b <=? 102) then u b - 97 + 10
  else u b - 65 + 10.

(** [getu4]: the code unit of [\uXXXX], given the four digits. *)
Definition getu4 (h1 h2 h3 h4 : byte) : option Z :=
  if is_hex h1 && is_hex h2 && is_hex h3 && is_hex h4
  then Some (((hexval h1 * 16 + hexval h2) * 16 + hexval h3) * 16 + hexval h4)
  else None.

Definition RuneError : Z := 0xFFFD.

(** [utf8.EncodeRune] *)
Definition EncodeRune (r : Z) : list byte :=
  if (r <? 0) || (0x10FFFF <? r) || ((0xD800 <=? r) && (r <? 0xE000))
  then [Byte.xef; Byte.xbf; Byte.xbd]
  else if r <? 0x80 then [byte.of_Z r]
  else if r <? 0x800 then
    [byte.of_Z (Z.lor 0xC0 (Z.shiftr r 6));
     byte.of_Z (Z.lor 0x80 (Z.land r 0x3F))]
  else if r <? 0x10000 then
    [byte.of_Z (Z.lor 0xE0 (Z.shiftr r 12));
     byte.of_Z (Z.lor 0x80 (Z.land (Z.shiftr r 6) 0x3F));
     byte.of_Z (Z.lor 0x80 (Z.land r 0x3F))]
  else
    [byte.of_Z (Z.lor 0xF0 (Z.shiftr r 18));
     byte.of_Z (Z.lor 0x80 (Z.land (Z.shiftr r 12) 0x3F));
     byte.of_Z (Z.lor 0x80 (Z.land (Z.shiftr r 6) 0x3F));
     byte.of_Z (Z.lor 0x80 (Z.land r 0x3F))].

Definition between (lo hi : Z) (b : byte) : bool := (lo <=? u b) && (u b <=? hi).

Definition cont (b : byte) : bool := between 0x80 0xBF b.

(** The byte sequences [utf8.DecodeRune] takes as one rune of two, three
    and four bytes. *)
Definition rune2 (c c1 : byte) : bool := between 0xC2 0xDF c && cont c1.

Definition rune3 (c c1 c2 : byte) : bool :=
  ((Byte.eqb c Byte.xe0 && between 0xA0 0xBF c1)
   || ((between 0xE1 0xEC c || between 0xEE 0xEF c) && cont c1)
   || (Byte.eqb c Byte.xed && between 0x80 0x9F c1))
  && cont c2.

Definition rune4 (c c1 c2 c3 : byte) : bool :=
  ((Byte.eqb c Byte.xf0 && between 0x90 0xBF c1)
   || (between 0xF1 0xF3 c && cont c1)
   || (Byte.eqb c Byte.xf4 && between 0x80 0x8F c1))
  && cont c2 && cont c3.

(** [utf16.DecodeRune] for [\uXXXX\uXXXX], when it is a surrogate pair. *)
Definition surrogate_pair (r1 r2 : Z) : option Z :=
  if (0xD800 <=? r1) && (r1 <? 0xDC00) && (0xDC00 <=? r2) && (r2 <? 0xE000)
  then Some (Z.lor (Z.shiftl (r1 - 0xD800) 10) (r2 - 0xDC00) + 0x10000)
  else None.

Definition is_surrogate (r : Z) : bool := (0xD800 <=? r) && (r <? 0xE000).

(** [unquoteBytes], on the bytes between the quotes of a string the
    scanner accepted: escapes are replaced, and bytes that are not UTF-8
    become U+FFFD. *)
(** What an escape other than [\u] stands for. *)
Definition escaped (e : byte) : option byte :=
  match e with
  | Byte.x62 => Some Byte.x08
  | Byte.x66 => Some Byte.x0c
  | Byte.x6e => Some Byte.x0a
  | Byte.x72 => Some Byte.x0d
  | Byte.x74 => Some Byte.x09
  | Byte.x22 => Some Byte.x22
  | Byte.x5c => Some Byte.x5c
  | Byte.x2f => Some Byte.x2f
  | _ => None
  end.

Fixpoint unquote (s : list byte) : list byte :=
  match s with
  | [] => []
  | c :: rest =>
      if Byte.eqb c Byte.x5c then
        match rest with
        | [] => []
        | e :: rest1 =>
            if Byte.eqb e Byte.x75 then
              match rest1 with
              | h1 :: h2 :: h3 :: h4 :: rest2 =>
                  match getu4 h1 h2 h3 h4 with
                  | None => []
                  | Some rr =>
                      if is_surrogate rr then
                        match rest2 with
                        | b1 :: b2 :: g1 :: g2 :: g3 :: g4 :: rest3 =>
                            match
                              (if Byte.eqb b1 Byte.x5c && Byte.eqb b2 Byte.x75
                               then match getu4 g1 g2 g3 g4 with
                                    | Some rr1 => surrogate_pair rr rr1
                                    | None => None
                                    end
                               else None)
                            with
                            | Some dec => EncodeRune dec ++ unquote rest3
                            | None => EncodeRune RuneError ++ unquote rest2
                            end
                        | _ => EncodeRune RuneError ++ unquote rest2
                        end
                      else EncodeRune rr ++ unquote rest2
                  end
              | _ => []
              end
            else
              match escaped e with
              | Some x => x :: unquote rest1
              | None => []
              end
        end
      else if u c <? 0x80 then c :: unquote rest
      else
        match rest with
        | c1 :: rest1 =>
            if rune2 c c1 then c :: c1 :: unquote rest1
            else
              match rest1 with
              | c2 :: rest2 =>
                  if rune3 c c1 c2 then c :: c1 :: c2 :: unquote rest2
                  else
                    match rest2 with
                    | c3 :: rest3 =>
                        if rune4 c c1 c2 c3 then c :: c1 :: c2 :: c3 :: unquote rest3
                        else EncodeRune RuneError ++ unquote rest
                    | [] => EncodeRune RuneError ++ unquote rest
                    end
              | [] => EncodeRune RuneError ++ unquote rest
              end
        | [] => EncodeRune RuneError
        end
  end.

(** *** Fields *)

Fixpoint bytes_eqb (a b : list byte) : bool :=
  match a, b with
  | [], [] => true
  | x :: a', y :: b' => Byte.eqb x y && bytes_eqb a' b'
  | _, _ => false
  end.

(** [c -= 'a' - 'A'] for a lower-case letter. *)
Definition upper (b : byte) : byte :=
  if between 97 122 b then byte.of_Z (u b - 32) else b.

(** Whether a key folds to a name of ASCII letters: letters match
    whatever their case, and U+017F and U+212A fold to S and to K. *)
Fixpoint equalFold (name key : list byte) : bool :=
  match name with
  | [] => match key with [] => true | _ :: _ => false end
  | n :: name' =>
      match key with
      | [] => false
      | k :: key1 =>
          if u k <? 0x80 then Byte.eqb (upper n) (upper k) && equalFold name' key1
          else
            match key1 with
            | k1 :: key2 =>
                if Byte.eqb (upper n) Byte.x53 && Byte.eqb k Byte.xc5 && Byte.eqb k1 Byte.xbf
                then equalFold name' key2
                else
                  match key2 with
                  | k2 :: key3 =>
                      if Byte.eqb (upper n) Byte.x4b && Byte.eqb k Byte.xe2
                         && Byte.eqb k1 Byte.x84 && Byte.eqb k2 Byte.xaa
                      then equalFold name' key3
                      else false
                  | [] => false
                  end
            | [] => false
            end
      end
  end.

(** The field a key names: the one with that very name, or else the
    first whose name it folds to. *)
Definition field_of {F : Type} (fields : list (string * F)) (key : list byte) : option F :=
  match find (fun nf => bytes_eqb (list_byte_of_string (fst nf)) key) fields with
  | Some (_, f) => Some f
  | None =>
      match find (fun nf => equalFold (list_byte_of_string (fst nf)) key) fields with
      | Some (_, f) => Some f
      | None => None
      end
  end.

(** *** Storing a value *)

(** The [Value] of an [UnmarshalTypeError]. *)
Definition describe (v : value) : string :=
  match v with
  | JNull => "null"
  | JBool _ => "bool"
  | JNumber _ => "number"
  | JString _ => "string"
  | JArray _ => "array"
  | JObject _ => "object"
  end.

(** [d.saveError]: the first error is kept. *)
Definition saveError (saved e : option error) : option error :=
  match saved with
  | Some _ => saved
  | None => e
  end.

(** Into a [string]. *)
Definition store_string (cur : string) (v : value) : string * option error :=
  match v with
  | JString body => (string_of_list_byte (unquote body), None)
  | JNull => (cur, None)
  | _ => (cur, Some (UnmarshalTypeError (describe v)))
  end.

Fixpoint digits (acc : Z) (l : list byte) : option Z :=
  match l with
  | [] => Some acc
  | b :: l' => if is_digit b then digits (10 * acc + (u b - 48)) l' else None
  end.

(** [strconv.ParseInt(lit, 10, 64)] for the literal of a number. *)
Definition ParseInt (lit : list byte) : option Z :=
  let n := match lit with
           | [] => None
           | b :: ds =>
               if Byte.eqb b Byte.x2d then
                 match ds with
                 | [] => None
                 | _ :: _ => option_map Z.opp (digits 0 ds)
                 end
               else digits 0 lit
           end in
  match n with
  | Some n => if (- 2 ^ 63 <=? n) && (n <? 2 ^ 63) then Some n else None
  | None => None
  end.

(** Into an [int]. *)
Definition store_int (cur : Z) (v : value) : Z * option error :=
  match v with
  | JNumber lit =>
      match ParseInt lit with
      | Some n => (n, None)
      | None => (cur, Some (UnmarshalTypeError ("number " ++ string_of_list_byte lit)))
      end
  | JNull => (cur, None)
  | _ => (cur, Some (UnmarshalTypeError (describe v)))
  end.

(** The members of an object into a struct, in their order: a member
    whose key names a field is stored into it by [store], another is
    skipped. *)
Fixpoint store_members {S F : Type} (fields : list (string * F))
    (store : F -> member -> S -> S * option error)
    (ms : list member) (cur : S) (saved : option error) : S * option error :=
  match ms with
  | [] => (cur, saved)
  | m :: ms' =>
      match field_of fields (unquote (fst (fst m))) with
      | Some f =>
          let '(cur', e) := store f m cur in
          store_members fields store ms' cur' (saveError saved e)
      | None => store_members fields store ms' cur saved
      end
  end.

(** Into a struct. *)
Definition store_struct {S F : Type} (fields : list (string * F))
    (store : F -> member -> S -> S * option error)
    (cur : S) (v : value) : S * option error :=
  match v with
  | JObject ms => store_members fields store ms cur None
  | JNull => (cur, None)
  | _ => (cur, Some (UnmarshalTypeError (describe v)))
  end.

Definition member_value (m : member) : value := snd (fst m).
Definition member_text (m : member) : list byte := snd m.

Inductive SampleField : Type := Sample_name | Sample_id.
Inductive VersionField : Type := Version_name | Version_protocol.
Inductive PlayersField : Type := Players_max | Players_online | Players_sample.
Inductive ResponseField : Type :=
| Response_version | Response_players | Response_description | Response_favicon.

(** The names of the tags. *)
Definition SampleFields : list (string * SampleField) :=
  [("name"%string, Sample_name); ("id"%string, Sample_id)].
Definition VersionFields : list (string * VersionField) :=
  [("name"%string, Version_name); ("protocol"%string, Version_protocol)].
Definition PlayersFields : list (string * PlayersField) :=
  [("max"%string, Players_max); ("online"%string, Players_online);
   ("sample"%string, Players_sample)].
Definition ResponseFields : list (string * ResponseField) :=
  [("version"%string, Response_version); ("players"%string, Response_players);
   ("description"%string, Response_description); ("favicon"%string, Response_favicon)].

Definition zeroSample : SampleEntry := mkSample "" "".

Definition store_SampleEntry : SampleEntry -> value -> SampleEntry * option error :=
  store_struct SampleFields
    (fun f m cur =>
       match f with
       | Sample_name =>
           let '(s, e) := store_string (Sample_Name cur) (member_value m) in
           (mkSample s (Sample_Id cur), e)
       | Sample_id =>
           let '(s, e) := store_string (Sample_Id cur) (member_value m) in
           (mkSample (Sample_Name cur) s, e)
       end).

(** The elements of an array into the elements of the slice's array,
    element [i] into the one at index [i] (a new one past the end). *)
Fixpoint store_elems (vs : list value) (backing : list SampleEntry) (saved : option error)
  : list SampleEntry * option error :=
  match vs with
  | [] => ([], saved)
  | v :: vs' =>
      let '(x, e) := store_SampleEntry (hd zeroSample backing) v in
      let '(xs, saved') := store_elems vs' (tl backing) (saveError saved e) in
      (x :: xs, saved')
  end.

(** Into a slice: [null] makes it [nil], an empty array makes it an
    empty slice of its own, another array is stored into the slice's
    array, which grows as needed; element [i] is stored into entry [i]
    of the array, which holds the zero value when the array was grown
    for it.  The zero entries the growth leaves past the elements are
    not listed in [spare]. *)
Definition store_Sample (cur : slice SampleEntry) (v : value)
  : slice SampleEntry * option error :=
  match v with
  | JArray [] => (mkSlice [] [] true, None)
  | JArray vs =>
      let backing := elems cur ++ spare cur in
      let '(xs, e) := store_elems vs backing None in
      (mkSlice xs (skipn (List.length vs) backing) true, e)
  | JNull => (nilSlice, None)
  | _ => (cur, Some (UnmarshalTypeError (describe v)))
  end.

Definition store_Version : VersionInfo -> value -> VersionInfo * option error :=
  store_struct VersionFields
    (fun f m cur =>
       match f with
       | Version_name =>
           let '(s, e) := store_string (Version_Name cur) (member_value m) in
           (mkVersion s (Version_Protocol cur), e)
       | Version_protocol =>
           let '(n, e) := store_int (Version_Protocol cur) (member_value m) in
           (mkVersion (Version_Name cur) n, e)
       end).

Definition store_Players : PlayersInfo -> value -> PlayersInfo * option error :=
  store_struct PlayersFields
    (fun f m cur =>
       match f with
       | Players_max =>
           let '(n, e) := store_int (Players_Max cur) (member_value m) in
           (mkPlayers n (Players_Online cur) (Players_Sample cur), e)
       | Players_online =>
           let '(n, e) := store_int (Players_Online cur) (member_value m) in
           (mkPlayers (Players_Max cur) n (Players_Sample cur), e)
       | Players_sample =>
           let '(s, e) := store_Sample (Players_Sample cur) (member_value m) in
           (mkPlayers (Players_Max cur) (Players_Online cur) s, e)
       end).

(** [Description] is a [json.RawMessage], an [Unmarshaler]: it takes the
    text of the value, whatever the value is. *)
Definition store_Response : Response -> value -> Response * option error :=
  store_struct ResponseFields
    (fun f m cur =>
       match f with
       | Response_version =>
           let '(x, e) := store_Version (Version cur) (member_value m) in
           (mkResponse x (Players cur) (Description cur) (Favicon cur), e)
       | Response_players =>
           let '(x, e) := store_Players (Players cur) (member_value m) in
           (mkResponse (Version cur) x (Description cur) (Favicon cur), e)
       | Response_description =>
           (mkResponse (Version cur) (Players cur) (member_text m) (Favicon cur), None)
       | Response_favicon =>
           let '(s, e) := store_string (Favicon cur) (member_value m) in
           (mkResponse (Version cur) (Players cur) (Description cur) s, e)
       end).

(** [func Unmarshal(data []byte, v any) error] with [v = &resp]. *)
Definition Unmarshal (data : list byte) (resp : Response) : Response * option error :=
  match parse data with
  | None => (resp, Some SyntaxError)
  | Some v => store_Response resp v
  end.

End json.

(** ** The Response of the first version

    The [Players] of the first version has no tag, and its key is the
    name of the field:
<<
	Players struct {
		Max    int `json:"max"`
		Online int `json:"online"`
		Sample []struct { ... } `json:"sample"`
	}
>>
*)
Definition LegacyResponseFields : list (string * json.ResponseField) :=
  [("version"%string, json.Response_version); ("Players"%string, json.Response_players);
   ("description"%string, json.Response_description);
   ("favicon"%string, json.Response_favicon)].

Definition legacy_store_Response : Response -> json.value -> Response * option error :=
  json.store_struct LegacyResponseFields
    (fun f m cur =>
       match f with
       | json.Response_version =>
           let '(x, e) := json.store_Version (Version cur) (json.member_value m) in
           (mkResponse x (Players cur) (Description cur) (Favicon cur), e)
       | json.Response_players =>
           let '(x, e) := json.store_Players (Players cur) (json.member_value m) in
           (mkResponse (Version cur) x (Description cur) (Favicon cur), e)
       | json.Response_description =>
           (mkResponse (Version cur) (Players cur) (json.member_text m) (Favicon cur), None)
       | json.Response_favicon =>
           let '(s, e) := json.store_string (Favicon cur) (json.member_value m) in
           (mkResponse (Version cur) (Players cur) (Description cur) s, e)
       end).

Definition legacy_Unmarshal (data : list byte) (resp : Response) : Response * option error :=
  match json.parse data with
  | None => (resp, Some SyntaxError)
  | Some v => legacy_store_Response resp v
  end.

(** ** Ping *)

(** What a call does: it returns, or it panics. *)
Inductive result (A : Type) : Type :=
| Return (a : A)
| Panic.
Arguments Return {A} a.
Arguments Panic {A}.

(** [strconv.Itoa] *)
Definition Itoa (i : Z) : string := NilZero.string_of_int (Z.to_int i).

(** [make([]byte, length)] for a [uint64] length panics ("makeslice: len
    out of range") when [length] bytes are more than the runtime
    allocates at all, [maxAlloc] (2^48 on 64-bit Linux); the result is
    [len(payload)].  Up to that bound the allocation is taken to succeed,
    as on a machine that has the memory: where it has not, the program
    ends in [make] with "fatal error: out of memory", which is neither a
    return nor a panic and is not modelled.  What is proved of a call
    that goes on after [make] is proved for the lengths the machine can
    allocate. *)
Definition maxAlloc : Z := 2 ^ 48.

Definition make_bytes (length : Z) : option nat :=
  if length <=? maxAlloc then Some (Z.to_nat length) else None.

Section Exchange.

(** [json.Unmarshal(payload, &resp)]: the bytes and the value [&resp]
    points to give the value it points to afterwards, and the error. *)
Variable Unmarshal : list byte -> Response -> Response * option error.

(** [net.DialTimeout("tcp", addr, timeout)]: an error, or the connection. *)
Variable DialTimeout : string -> error + Conn.

(** The reads of [Ping] up to the payload (lines 77 to 101), from
    [reader := bufio.NewReader(conn)] on: the payload, or the error
    [Ping] returns there.
<<
	_, err = binary.ReadUvarint(reader)
	if err != nil { return resp, err }
	packetId, err := binary.ReadUvarint(reader)
	if err != nil { return resp, err }
	if packetId != 0 {
		return resp, fmt.Errorf("received invalid packetId (expected 0!) %d", packetId)
	}
	length, err := binary.ReadUvarint(reader)
	if err != nil { return resp, err }
	payload := make([]byte, length)
	if _, err = io.ReadFull(reader, payload); err != nil { return resp, err }
>>
*)
Definition Ping_readResponse (reader : Reader)
  : result (list byte * option error) * Reader :=
  let '((_, err), reader) := ReadUvarint reader in
  match err with
  | Some e => (Return ([], Some e), reader)
  | None =>
      let '((packetId, err), reader) := ReadUvarint reader in
      match err with
      | Some e => (Return ([], Some e), reader)
      | None =>
          if negb (packetId =? 0) then
            (Return ([], Some (ErrPacketId packetId)), reader)
          else
            let '((length, err), reader) := ReadUvarint reader in
            match err with
            | Some e => (Return ([], Some e), reader)
            | None =>
                match make_bytes length with
                | None => (Panic, reader)
                | Some size =>
                    let '((got, err), reader) := ReadFull reader size in
                    match err with
                    | Some e => (Return ([], Some e), reader)
                    | None =>
                        let payload :=
                          got ++ repeat Byte.x00 (size - List.length got) in
                        (Return (payload, None), reader)
                    end
                end
            end
      end
  end.

(** [Ping] once the connection is there, from [defer conn.Close()] on:
    what it returns, and the connection as it leaves it. *)
Definition Ping_exchange (conn : Conn) (address : string) (port protocolVersion : Z)
  : result (Response * option error) * Conn :=
  let resp := zeroResponse in
  match conn_SetDeadline conn with
  | Some e => (Return (resp, Some e), conn_Close conn)
  | None =>
      match makeHandshakePacket address port protocolVersion with
      | None => (Panic, conn_Close conn)
      | Some handshake =>
          let '(_, conn) := conn_Write conn handshake in
          let '(_, conn) := conn_Write conn requestPacket in
          let reader := NewReader conn in
          let '(r, reader) := Ping_readResponse reader in
          let conn := conn_Close (rd reader) in
          match r with
          | Panic => (Panic, conn)
          | Return (_, Some e) => (Return (resp, Some e), conn)
          | Return (payload, None) =>
              let '(resp, err) := Unmarshal payload resp in
              match err with
              | Some e => (Return (resp, Some e), conn)
              | None => (Return (resp, None), conn)
              end
          end
      end
  end.

(** [func Ping(address string, port uint16, protocolVersion int,
    timeout time.Duration) (Response, error)].  Time is not modelled:
    what the deadline does to the connection is in its script. *)
Definition Ping (address : string) (port protocolVersion : Z)
  : result (Response * option error) * option Conn :=
  let resp := zeroResponse in
  match DialTimeout (address ++ ":" ++ Itoa port) with
  | inl e => (Return (resp, Some e), None)
  | inr conn =>
      let '(r, conn) := Ping_exchange conn address port protocolVersion in
      (r, Some conn)
  end.

End Exchange.

(** * The varint of the specification

    "Repeatedly emit [byte & 0x7F] with the high bit set unless it is the
    final (most-significant) group, least-significant group first."
    [encodeGroups k v] emits [k] groups with the high bit set and then the
    final one; [encodeVarint] takes as many groups as [v] needs. *)
Fixpoint encodeGroups (k : nat) (v : Z) : list byte :=
  match k with
  | O => [byte.of_Z (Z.land v 0x7F)]
  | S k' => byte.of_Z (Z.lor (Z.land v 0x7F) 0x80) :: encodeGroups k' (Z.shiftr v 7)
  end.

(** The number of 7-bit groups [v] needs, less one. *)
Definition moreGroups (v : Z) : nat := Z.to_nat (Z.log2 v / 7).

Definition encodeVarint (v : Z) : list byte := encodeGroups (moreGroups v) v.

(** [decodeVarint(stream) -> (value, bytesConsumed)]: [ReadUvarint] on the
    bytes, and how many of them it took. *)
Definition decodeVarint (bs : list byte) : (Z * nat) + error :=
  let '((x, e), r) := ReadUvarint (mkStream bs EOF) in
  match e with
  | Some e => inr e
  | None => inl (x, (List.length bs - List.length (rest r))%nat)
  end.

(** The value of the groups of seven bits of some bytes and of the byte
    that ends them, the least significant group first: what a varint
    stands for, whether it is written with the fewest groups or not. *)
Fixpoint groupsValue (init : list byte) (last : byte) : Z :=
  match init with
  | [] => byte.unsigned last
  | b :: init' => Z.land (byte.unsigned b) 0x7f + 128 * groupsValue init' last
  end.

(** * The handshake of the specification

    "[0x00 | varint(protocolVersion) | varint(len(address)) | address |
    port (2 bytes, big-endian) | varint(1)]", to be prefixed by the varint
    of its length. *)
Definition handshakeBody (address : string) (port protocolVersion : Z) : list byte :=
  [Byte.x00] ++ encodeVarint protocolVersion ++ encodeVarint (len address) ++
  list_byte_of_string address ++
  [byte.of_Z (port / 256); byte.of_Z (port mod 256)] ++ encodeVarint 1.

(** A byte with the high bit set: more groups follow. *)
Definition more_follow (b : byte) : Prop := 0x80 <= byte.unsigned b.


(** * The bytes of a connection

    A reader stands for the bytes it can still hand out, [stream], and the
    error that follows them. *)
Definition view (b : Reader) : ByteStream := mkStream (stream b) (final (rd b)).

(** [b.err], when set, is the error the connection ended with. *)
Definition reader_wf (b : Reader) : Prop :=
  match err b with
  | Some e => incoming (rd b) = [] /\ e = final (rd b)
  | None => True
  end.

(** Reading changes nothing but [incoming]. *)
Definition same_script (c c' : Conn) : Prop :=
  final c' = final c /\ deadline_result c' = deadline_result c /\
  write_results c' = write_results c /\ written c' = written c /\
  closed c' = closed c.

(** * The response reader on a byte sequence

    The reads of [Ping] as the specification describes them, on the bytes
    of the stream and the error at their end, with no buffer and no
    segments.

    "Reads exactly that many bytes from the stream, failing if the stream
    closes or the deadline elapses first." *)
Definition readFull (s : ByteStream) (size : nat)
  : (list byte * option error) * ByteStream :=
  if (size <=? List.length (rest s))%nat then
    ((firstn size (rest s), None), mkStream (skipn size (rest s)) (at_end s))
  else
    ((rest s,
      Some (if (0 <? List.length (rest s))%nat && is_EOF (at_end s)
            then ErrUnexpectedEOF else at_end s)),
     mkStream [] (at_end s)).

(** "Reads one varint as payload length, then reads exactly that many
    bytes from the stream"; the buffer for them is made with [make_bytes]
    as in the code. *)
Definition readPayload (s : ByteStream)
  : result (list byte * option error) * ByteStream :=
  let '((length, err), s) := ReadUvarint s in
  match err with
  | Some e => (Return ([], Some e), s)
  | None =>
      match make_bytes length with
      | None => (Panic, s)
      | Some size =>
          let '((got, err), s) := readFull s size in
          match err with
          | Some e => (Return ([], Some e), s)
          | None => (Return (got, None), s)
          end
      end
  end.

(** "Reads and discards one varint, reads one varint as packet ID and
    fails unless it equals 0", and then reads the payload. *)
Definition readResponsePacket (s : ByteStream)
  : result (list byte * option error) * ByteStream :=
  let '((_, err), s) := ReadUvarint s in
  match err with
  | Some e => (Return ([], Some e), s)
  | None =>
      let '((packetId, err), s) := ReadUvarint s in
      match err with
      | Some e => (Return ([], Some e), s)
      | None =>
          if negb (packetId =? 0) then (Return ([], Some (ErrPacketId packetId)), s)
          else readPayload s
      end
  end.

(** What [Ping] makes of what the reads gave. *)
Definition after_read (Unmarshal : list byte -> Response -> Response * option error)
    (r : result (list byte * option error)) : result (Response * option error) :=
  match r with
  | Panic => Panic
  | Return (_, Some e) => Return (zeroResponse, Some e)
  | Return (payload, None) => Return (Unmarshal payload zeroResponse)
  end.


(** * Connections for the examples *)

(** A connection that sends the given segments and then ends with [e]. *)
Definition scripted (segments : list chunk) (e : error) : Conn :=
  mkConn segments e None [] [] false.

(** The bytes one at a time. *)
Definition bytewise (bs : list byte) : list chunk := map (fun b => Chunk b []) bs.

(** The connection with other results for its writes. *)
Definition with_write_results (c : Conn) (results : list (option error)) : Conn :=
  mkConn (incoming c) (final c) (deadline_result c) results (written c) (closed c).

(** The payload of the specification's end-to-end test. *)
Definition str (s : string) : list byte := list_byte_of_string s.

Definition quoted (s : string) : list byte := Byte.x22 :: str s ++ [Byte.x22].

Definition status_payload : list byte :=
  str "{" ++ quoted "version" ++ str ":{"
  ++ quoted "name" ++ str ":" ++ quoted "1.14.4" ++ str ","
  ++ quoted "protocol" ++ str ":498},"
  ++ quoted "players" ++ str ":{"
  ++ quoted "max" ++ str ":20,"
  ++ quoted "online" ++ str ":3,"
  ++ quoted "sample" ++ str ":[]},"
  ++ quoted "description" ++ str ":" ++ quoted "A server" ++ str ","
  ++ quoted "favicon" ++ str ":" ++ quoted "" ++ str "}".

(** The response packet with a payload: [varint(len) | 00 | varint(payloadLen) | payload]. *)
Definition response_packet (payload : list byte) : list byte :=
  let inner := [Byte.x00] ++ encodeVarint (Z.of_nat (List.length payload)) ++ payload in
  encodeVarint (Z.of_nat (List.length inner)) ++ inner.

(** * The shape of the payload

    What the payload has to look like for [Response]: "fails if the bytes
    are not valid JSON or required fields have the wrong shape".  A field
    may be absent or [null]; when it is there, a string field holds a
    string, an [int] field a number that is an integer of 64 bits, a
    struct field an object, and [sample] an array of objects. *)
Definition member_key (m : json.member) : list byte := json.unquote (fst (fst m)).

Definition shape_string (v : json.value) : bool :=
  match v with
  | json.JString _ | json.JNull => true
  | _ => false
  end.

Definition shape_int (v : json.value) : bool :=
  match v with
  | json.JNumber lit => match json.ParseInt lit with Some _ => true | None => false end
  | json.JNull => true
  | _ => false
  end.

Definition shape_struct {F : Type} (fields : list (string * F))
    (shape : F -> json.value -> bool) (v : json.value) : bool :=
  match v with
  | json.JNull => true
  | json.JObject ms =>
      forallb (fun m => match json.field_of fields (member_key m) with
                        | Some f => shape f (json.member_value m)
                        | None => true
                        end) ms
  | _ => false
  end.

Definition shape_SampleEntry : json.value -> bool :=
  shape_struct json.SampleFields (fun _ => shape_string).

Definition shape_Sample (v : json.value) : bool :=
  match v with
  | json.JNull => true
  | json.JArray vs => forallb shape_SampleEntry vs
  | _ => false
  end.

Definition shape_Version : json.value -> bool :=
  shape_struct json.VersionFields
    (fun f => match f with
              | json.Version_name => shape_string
              | json.Version_protocol => shape_int
              end).

Definition shape_Players : json.value -> bool :=
  shape_struct json.PlayersFields
    (fun f => match f with
              | json.Players_max | json.Players_online => shape_int
              | json.Players_sample => shape_Sample
              end).

Definition shape_Response : json.value -> bool :=
  shape_struct json.ResponseFields
    (fun f => match f with
              | json.Response_version => shape_Version
              | json.Response_players => shape_Players
              | json.Response_description => fun _ => true
              | json.Response_favicon => shape_string
              end).

(** A value that is not an object with a member for the field [f]. *)
Definition omits {F : Type} (fields : list (string * F)) (f : F) (v : json.value) : Prop :=
  match v with
  | json.JObject ms =>
      forall m, In m ms -> json.field_of fields (member_key m) <> Some f
  | _ => True
  end.

(** A value whose members for the field [f], if any, are all [inner]. *)
Definition omits_in {F : Type} (fields : list (string * F)) (f : F)
    (inner : json.value -> Prop) (v : json.value) : Prop :=
  match v with
  | json.JObject ms =>
      forall m, In m ms -> json.field_of fields (member_key m) = Some f ->
                inner (json.member_value m)
  | _ => True
  end.

(** * What Ping can fail with *)

(** An error of a read of a stream that ends with [final]: the error
    itself, or [io.ErrUnexpectedEOF] in place of [io.EOF]. *)
Definition end_error (final e : error) : Prop :=
  e = final \/ (e = ErrUnexpectedEOF /\ final = EOF).

(** What the reads of [Ping] can fail with. *)
Definition read_error (final e : error) : Prop :=
  end_error final e \/ e = errOverflow \/
  exists packetId : Z, packetId <> 0 /\ e = ErrPacketId packetId.

(** No error, or an [*json.UnmarshalTypeError]. *)
Definition type_error (e : option error) : Prop :=
  match e with
  | Some e => exists Value : string, e = UnmarshalTypeError Value
  | None => True
  end.

(** A dial that succeeds, with the connection [c]. *)
Definition dial_to (c : Conn) : string -> error + Conn := fun _ => inr c.

(** A reader of the bytes [ac 02 7b], which come one at a time. *)
Definition reader_300 : Reader :=
  NewReader (scripted (bytewise [Byte.xac; Byte.x02; Byte.x7b]) EOF).

(** * Members that name a field *)

(** Whether the key of a member names a field. *)
Definition known {F : Type} (fields : list (string * F)) (m : json.member) : bool :=
  match json.field_of fields (member_key m) with
  | Some _ => true
  | None => false
  end.

(** Two payloads with the same favicon, beside members that [Response]
    has no field for. *)
Definition payload_modinfo : list byte :=
  str "{" ++ quoted "modinfo" ++ str ":{" ++ quoted "type" ++ str ":" ++ quoted "FML"
  ++ str "}," ++ quoted "favicon" ++ str ":" ++ quoted "x" ++ str "}".

Definition payload_secure_chat : list byte :=
  str "{" ++ quoted "favicon" ++ str ":" ++ quoted "x" ++ str ","
  ++ quoted "enforcesSecureChat" ++ str ":true}".

(** A key that is a name but for the case of its letters. *)
Definition same_letters (key : list byte) (name : string) : Prop :=
  map json.upper key = map json.upper (str name).

Definition is_ascii (b : byte) : bool := byte.unsigned b <? 128.

(** Names of ASCII characters no two of which are the same but for
    case. *)
Fixpoint distinct_names (names : list (list byte)) : bool :=
  match names with
  | [] => true
  | n :: ns =>
      forallb is_ascii n
      && forallb (fun m => negb (json.bytes_eqb (map json.upper n) (map json.upper m))) ns
      && distinct_names ns
  end.

(** * A JSON text as a server writes it *)

(** A hexadecimal digit, in lower case. *)
Definition hex_digit (d : Z) : byte := byte.of_Z (if d <? 10 then 48 + d else 87 + d).

(** A byte of a string as it is written between quotes: the quote and
    the backslash after a backslash, the line feed, the carriage return
    and the tab by their letter, another control character by its code,
    any other byte as it is. *)
Definition escape_byte (b : byte) : list byte :=
  match b with
  | Byte.x22 => [Byte.x5c; Byte.x22]
  | Byte.x5c => [Byte.x5c; Byte.x5c]
  | Byte.x0a => [Byte.x5c; Byte.x6e]
  | Byte.x0d => [Byte.x5c; Byte.x72]
  | Byte.x09 => [Byte.x5c; Byte.x74]
  | _ =>
      if byte.unsigned b <? 32
      then [Byte.x5c; Byte.x75; Byte.x30; Byte.x30;
            hex_digit (byte.unsigned b / 16); hex_digit (byte.unsigned b mod 16)]
      else [b]
  end.

Definition escape (text : list byte) : list byte := flat_map escape_byte text.

(** A text in UTF-8. *)
Fixpoint utf8 (s : list byte) : bool :=
  match s with
  | [] => true
  | c :: rest =>
      if json.u c <? 0x80 then utf8 rest
      else
        match rest with
        | c1 :: rest1 =>
            if json.rune2 c c1 then utf8 rest1
            else
              match rest1 with
              | c2 :: rest2 =>
                  if json.rune3 c c1 c2 then utf8 rest2
                  else
                    match rest2 with
                    | c3 :: rest3 => json.rune4 c c1 c2 c3 && utf8 rest3
                    | [] => false
                    end
              | [] => false
              end
        | [] => false
        end
  end.

Definition utf8_string (s : string) : bool := utf8 (list_byte_of_string s).

(** The decimal digits of [n >= 0] before [acc], the first one first. *)
Fixpoint decimal_digits (fuel : nat) (n : Z) (acc : list byte) : list byte :=
  match fuel with
  | O => acc
  | S fuel' =>
      let acc := byte.of_Z (48 + n mod 10) :: acc in
      if n <? 10 then acc else decimal_digits fuel' (n / 10) acc
  end.

(** An integer of less than 20 digits in decimal, as [strconv.Itoa]
    writes it. *)
Definition decimal (n : Z) : list byte :=
  if n <? 0 then Byte.x2d :: decimal_digits 19 (- n) [] else decimal_digits 19 n [].

Definition int64 (n : Z) : Prop := - 2 ^ 63 <= n < 2 ^ 63.

(** The pieces of a text without white space: a punctuation mark, a
    string between quotes, a number. *)
Inductive piece : Type :=
| Punct (b : byte)
| Str (text : list byte)
| Num (lit : list byte).

Definition render_piece (p : piece) : list byte :=
  match p with
  | Punct b => [b]
  | Str text => Byte.x22 :: escape text ++ [Byte.x22]
  | Num lit => lit
  end.

Definition render (ps : list piece) : list byte := flat_map render_piece ps.

Definition text_size (ps : list piece) : nat := List.length (render ps).

(** The token of a punctuation mark. *)
Definition punct_token (b : byte) : option json.token :=
  match b with
  | Byte.x7b => Some json.TBeginObject
  | Byte.x7d => Some json.TEndObject
  | Byte.x5b => Some json.TBeginArray
  | Byte.x5d => Some json.TEndArray
  | Byte.x3a => Some json.TColon
  | Byte.x2c => Some json.TComma
  | _ => None
  end.

Definition is_mark (b : byte) : bool :=
  match punct_token b with Some _ => true | None => false end.

Definition token_of (p : piece) : json.token :=
  match p with
  | Punct b => match punct_token b with Some t => t | None => json.TNull end
  | Str text => json.TString (escape text)
  | Num lit => json.TNumber lit
  end.

(** The tokens of the pieces, the first of which is at offset [pos]. *)
Fixpoint tokens (pos : nat) (ps : list piece) : list json.ptoken :=
  match ps with
  | [] => []
  | p :: ps' =>
      (token_of p, (pos, (pos + List.length (render_piece p))%nat))
      :: tokens (pos + List.length (render_piece p)) ps'
  end.

(** An integer literal: an optional minus sign, then 0 or digits that do
    not start with 0. *)
Definition unsigned_literal (ds : list byte) : bool :=
  match ds with
  | [] => false
  | [Byte.x30] => true
  | d :: ds' => json.is_digit19 d && forallb json.is_digit ds'
  end.

Definition int_literal (lit : list byte) : bool :=
  match lit with
  | Byte.x2d :: ds => unsigned_literal ds
  | _ => unsigned_literal lit
  end.

(** Pieces that make a text: the marks are marks, a number is an integer
    literal and a mark follows it. *)
Fixpoint well_formed (ps : list piece) : bool :=
  match ps with
  | [] => true
  | Punct b :: ps' => is_mark b && well_formed ps'
  | Str _ :: ps' => well_formed ps'
  | Num lit :: ps' =>
      int_literal lit
      && match ps' with
         | Punct b :: _ => true
         | _ => false
         end
      && well_formed ps'
  end.

(** A mark or a string. *)
Definition text_piece (p : piece) : bool :=
  match p with
  | Punct b => is_mark b
  | Str _ => true
  | Num _ => false
  end.

(** * The status of a server *)

(** The section sign U+00A7 of the formatting codes, in UTF-8. *)
Definition section_sign : string := String "194" (String "167" "").

(** The marks. *)
Definition LBrace : piece := Punct Byte.x7b.
Definition RBrace : piece := Punct Byte.x7d.
Definition LBracket : piece := Punct Byte.x5b.
Definition RBracket : piece := Punct Byte.x5d.
Definition Colon : piece := Punct Byte.x3a.
Definition Comma : piece := Punct Byte.x2c.

(** A key, or a string that is a value. *)
Definition Text (s : string) : piece := Str (str s).

(** An entry of the sample, with its name and its id. *)
Definition entry_pieces (e : SampleEntry) : list piece :=
  [LBrace; Text "name"; Colon; Text (Sample_Name e); Comma;
   Text "id"; Colon; Text (Sample_Id e); RBrace].

(** The entries, with commas between them. *)
Definition entries_pieces (es : list SampleEntry) : list piece :=
  match es with
  | [] => []
  | e :: es' => entry_pieces e ++ flat_map (fun e => Comma :: entry_pieces e) es'
  end.

Definition utf8_entry (e : SampleEntry) : bool :=
  utf8_string (Sample_Name e) && utf8_string (Sample_Id e).

(** The description: a string, or a chat component with a text. *)
Inductive description : Type :=
| Legacy (text : string)
| Chat (text : string).

Definition description_pieces (d : description) : list piece :=
  match d with
  | Legacy text => [Text text]
  | Chat text => [LBrace; Text "text"; Colon; Text text; RBrace]
  end.

(** The status: an object with the version (name, protocol), the players
    (max, online, sample), the description and the favicon, in this
    order. *)
Definition status_pieces (name : string) (protocol max online : Z)
    (sample : list SampleEntry) (motd : description) (favicon : string) : list piece :=
  [LBrace; Text "version"; Colon; LBrace;
   Text "name"; Colon; Text name; Comma;
   Text "protocol"; Colon; Num (decimal protocol); RBrace; Comma;
   Text "players"; Colon; LBrace;
   Text "max"; Colon; Num (decimal max); Comma;
   Text "online"; Colon; Num (decimal online); Comma;
   Text "sample"; Colon; LBracket]
  ++ entries_pieces sample
  ++ [RBracket; RBrace; Comma; Text "description"; Colon]
  ++ description_pieces motd
  ++ [Comma; Text "favicon"; Colon; Text favicon; RBrace].

Definition encode_status (name : string) (protocol max online : Z)
    (sample : list SampleEntry) (motd : description) (favicon : string) : list byte :=
  render (status_pieces name protocol max online sample motd favicon).

(** The line feed. *)
Definition line_feed : string := String "010" "".

(** A server with one player and a green description of two lines, whose
    answer comes byte by byte, is followed by a stray byte, and ends in a
    timeout. *)
Definition example_motd : string :=
  (section_sign ++ "aA server" ++ line_feed ++ "for all")%string.

Definition example_connection : Conn :=
  scripted
    (bytewise
       (response_packet
          (encode_status "1.14.4" 498 20 3 [mkSample "Notch" "069a79f4"]
             (Chat example_motd) "")
        ++ [Byte.xff]))
    (ErrNet "i/o timeout").

(** The value of an entry, whatever the texts of its members. *)
Definition entry_like (e : SampleEntry) (v : json.value) : Prop :=
  exists t1 t2 : list byte,
    v = json.JObject [(str "name", json.JString (escape (str (Sample_Name e))), t1);
                      (str "id", json.JString (escape (str (Sample_Id e))), t2)].

(** The value of a status, whatever the value of its description and the
    texts of its other members. *)
Definition status_like (name : string) (protocol max online : Z)
    (sample : list SampleEntry) (motd : description) (favicon : string) (v : json.value)
  : Prop :=
  exists (t1 t2 t3 t4 t5 t6 t7 t8 : list byte) (vs : list json.value) (dv : json.value),
    Forall2 entry_like sample vs /\
    v = json.JObject
          [(str "version",
            json.JObject [(str "name", json.JString (escape (str name)), t1);
                          (str "protocol", json.JNumber (decimal protocol), t2)], t3);
           (str "players",
            json.JObject [(str "max", json.JNumber (decimal max), t4);
                          (str "online", json.JNumber (decimal online), t5);
                          (str "sample", json.JArray vs, t6)], t7);
           (str "description", dv, render (description_pieces motd));
           (str "favicon", json.JString (escape (str favicon)), t8)].

(** * The values of a Response *)

(** A slice whose entries, and those its array has past its length, have
    a name and an id in UTF-8. *)
Definition utf8_slice (s : slice SampleEntry) : Prop :=
  forallb utf8_entry (elems s) = true /\ forallb utf8_entry (spare s) = true.

(** A [Response] with strings in UTF-8 and integers of 64 bits. *)
Definition representable (r : Response) : Prop :=
  utf8_string (Version_Name (Version r)) = true /\
  int64 (Version_Protocol (Version r)) /\
  int64 (Players_Max (Players r)) /\
  int64 (Players_Online (Players r)) /\
  utf8_slice (Players_Sample (Players r)) /\
  utf8_string (Favicon r) = true.

(** U+FFFD, in UTF-8. *)
Definition replacement_character : string := String "239" (String "191" (String "189" "")).

(** A favicon that is one byte, which is not UTF-8. *)
Definition payload_invalid_utf8 : list byte :=
  str "{" ++ quoted "favicon" ++ str ":" ++ [Byte.x22; Byte.xff; Byte.x22] ++ str "}".

(** * Proofs *)

(** ** The code on examples *)

Example putVarInt_300 : putVarInt [] 300 = Some [Byte.xac; Byte.x02].
Proof. vm_compute. reflexivity. Qed.

(** [07 | 00 | 00 | 01 'x' | 63 dd | 01]: port 25565 is 0x63dd. *)
Example makeHandshakePacket_x :
  makeHandshakePacket "x" 25565 0 =
  Some [Byte.x07; Byte.x00; Byte.x00; Byte.x01; Byte.x78; Byte.x63; Byte.xdd; Byte.x01].
Proof. vm_compute. reflexivity. Qed.

Example ReadUvarint_300 :
  ReadUvarint (mkStream [Byte.xac; Byte.x02; Byte.x7b] EOF) =
  ((300, None), mkStream [Byte.x7b] EOF).
Proof. vm_compute. reflexivity. Qed.

(** A server that answers with that payload, however the bytes are cut:
    [Ping] returns the decoded [Response], with 3 players online and the
    protocol version 498, after writing the handshake and the request and
    before closing the connection. *)
Example Ping_end_to_end :
  Ping json.Unmarshal
    (fun addr => if String.eqb addr "example.org:25565"
                 then inr (scripted (bytewise (response_packet status_payload)) EOF)
                 else inl (ErrNet "dial tcp: no such host"))
    "example.org" DefaultPort LatestProtocolVersion =
  (Return
     (mkResponse (mkVersion "1.14.4" 498) (mkPlayers 20 3 (mkSlice [] [] true))
        (quoted "A server") "",
      None),
   Some (mkConn [] EOF None []
           [[Byte.x12; Byte.x00; Byte.xf2; Byte.x03; Byte.x0b] ++
            str "example.org" ++ [Byte.x63; Byte.xdd; Byte.x01];
            [Byte.x01; Byte.x00]]
           true)).
Proof. vm_compute. reflexivity. Qed.

Example Ping_dial_error :
  Ping json.Unmarshal (fun _ => inl (ErrNet "dial tcp: i/o timeout")) "example.org" 25565 498 =
  (Return (zeroResponse, Some (ErrNet "dial tcp: i/o timeout")), None).
Proof. reflexivity. Qed.

Example Unmarshal_not_json :
  json.Unmarshal (str "{version}") zeroResponse =
  (zeroResponse, Some SyntaxError).
Proof. vm_compute. reflexivity. Qed.

(** ** Bytes and 7-bit groups *)

Lemma group_facts (m : Z) :
  0 <= m < 128 ->
  Z.lor m 128 = m + 128 /\ Z.land (m + 128) 127 = m /\ Z.land m 127 = m.
Proof.
  intros Hm. rewrite <- (Z2Nat.id m) by lia.
  assert (Hn : (Z.to_nat m < 128)%nat) by lia.
  revert Hn. generalize (Z.to_nat m) as n. intros n Hn.
  do 128 (destruct n as [|n]; [vm_compute; auto|]).
  lia.
Qed.

Lemma land_127_range (v : Z) : 0 <= Z.land v 127 < 128.
Proof.
  change 127 with (Z.ones 7). rewrite Z.land_ones by lia.
  apply Z.mod_pos_bound. lia.
Qed.

Lemma unsigned_of_Z_small (z : Z) : 0 <= z < 256 -> byte.unsigned (byte.of_Z z) = z.
Proof.
  intros H. rewrite byte.unsigned_of_Z. unfold byte.wrap.
  apply Z.mod_small. lia.
Qed.

(** The byte of a group that is not the last. *)
Lemma unsigned_more (v : Z) :
  byte.unsigned (byte.of_Z (Z.lor (Z.land v 0x7F) 0x80)) = Z.land v 127 + 128.
Proof.
  pose proof (land_127_range v) as Hr.
  destruct (group_facts _ Hr) as (H1 & _ & _).
  rewrite H1. apply unsigned_of_Z_small. lia.
Qed.

(** The byte of the last group. *)
Lemma unsigned_last (v : Z) :
  byte.unsigned (byte.of_Z (Z.land v 0x7F)) = Z.land v 127.
Proof.
  pose proof (land_127_range v). apply unsigned_of_Z_small. lia.
Qed.

(** [byte(x) | 0x80] is the low group of [x] with the high bit set. *)
Lemma byte_or_0x80 (x : Z) :
  byte.of_Z (Z.lor (byte.unsigned (byte.of_Z x)) 0x80) =
  byte.of_Z (Z.lor (Z.land x 0x7F) 0x80).
Proof.
  apply byte.unsigned_inj. rewrite !byte.unsigned_of_Z. unfold byte.wrap.
  rewrite <- !Z.land_ones by lia.
  apply Z.bits_inj'. intros n Hn.
  rewrite !Z.land_spec, !Z.lor_spec, !Z.land_spec.
  destruct (Z.ltb_spec n 7) as [Hlt|Hge].
  - change 127 with (Z.ones 7).
    rewrite (Z.ones_spec_low 7), (Z.ones_spec_low 8) by lia. reflexivity.
  - destruct (Z.eqb_spec n 7) as [->|Hne].
    + change (Z.testbit 128 7) with true. rewrite !orb_true_r. reflexivity.
    + rewrite (Z.ones_spec_high 8) by lia.
      rewrite !andb_false_r. reflexivity.
Qed.

Lemma byte_low (x : Z) : 0 <= x < 128 -> byte.of_Z x = byte.of_Z (Z.land x 0x7F).
Proof.
  intros H. destruct (group_facts x H) as (_ & _ & H3). rewrite H3. reflexivity.
Qed.

(** A value is its low group beside the rest. *)
Lemma split_group (v s : Z) :
  0 <= s ->
  Z.lor (Z.shiftl (Z.land v 127) s) (Z.shiftl (Z.shiftr v 7) (s + 7)) = Z.shiftl v s.
Proof.
  intros Hs.
  replace (s + 7) with (7 + s) by lia.
  rewrite <- Z.shiftl_shiftl by lia.
  rewrite <- Z.shiftl_lor. f_equal.
  apply Z.bits_inj'. intros n Hn.
  rewrite Z.lor_spec, Z.land_spec.
  destruct (Z.ltb_spec n 7) as [Hlt|Hge].
  - rewrite Z.shiftl_spec_low by lia.
    change 127 with (Z.ones 7). rewrite Z.ones_spec_low by lia.
    rewrite andb_true_r, orb_false_r. reflexivity.
  - rewrite Z.shiftl_spec_high by lia.
    rewrite Z.shiftr_spec by lia.
    change 127 with (Z.ones 7). rewrite Z.ones_spec_high by lia.
    rewrite andb_false_r. cbn [orb]. f_equal. lia.
Qed.

Lemma shl64_small (a s : Z) :
  0 <= a < 128 -> 0 <= s <= 57 -> shl64 a s = Z.shiftl a s.
Proof.
  intros Ha Hs. unfold shl64. apply Z.mod_small.
  rewrite Z.shiftl_mul_pow2 by lia.
  assert (0 < 2 ^ s) by (apply Z.pow_pos_nonneg; lia).
  assert (2 ^ s <= 2 ^ 57) by (apply Z.pow_le_mono_r; lia).
  change (2 ^ 64) with (128 * 2 ^ 57). nia.
Qed.

(** Bits that do not meet add up. *)
Lemma lor_add (a k x : Z) : 0 <= k -> 0 <= x < 2 ^ k -> Z.lor (a * 2 ^ k) x = a * 2 ^ k + x.
Proof.
  intros Hk Hx.
  assert (Hland : Z.land (a * 2 ^ k) x = 0).
  { apply Z.bits_inj'. intros n Hn. rewrite Z.land_spec, Z.bits_0.
    destruct (Z.lt_ge_cases n k) as [Hlt|Hge].
    - rewrite Z.mul_pow2_bits_low by lia. reflexivity.
    - rewrite <- (Z.mod_small x (2 ^ k)) by lia.
      rewrite Z.mod_pow2_bits_high by lia. apply andb_false_r. }
  rewrite <- Z.lxor_lor by exact Hland. symmetry. apply Z.add_nocarry_lxor. exact Hland.
Qed.

(** ** PutUvarint *)

(** One turn of the loop. *)
Lemma PutUvarint_from_step (buf : list byte) (x : Z) (i : nat) :
  PutUvarint_from buf x i =
  if 0x80 <=? x then
    match store buf i (byte.of_Z (Z.lor (byte.unsigned (byte.of_Z x)) 0x80)) with
    | Some buf' => PutUvarint_from buf' (Z.shiftr x 7) (S i)
    | None => None
    end
  else
    match store buf i (byte.of_Z x) with
    | Some buf' => Some (buf', S i)
    | None => None
    end.
Proof.
  funelim (PutUvarint_from buf x i);
    repeat match goal with
           | H : (_ <=? _) = _ |- _ => rewrite H
           | H : store _ _ _ = _ |- _ => rewrite H
           end; reflexivity.
Qed.

Lemma store_at (pre suf : list byte) (s0 b : byte) :
  store (pre ++ s0 :: suf) (List.length pre) b = Some (pre ++ b :: suf).
Proof.
  unfold store.
  replace (List.length pre <? List.length (pre ++ s0 :: suf))%nat with true.
  - rewrite firstn_app, Nat.sub_diag, firstn_all. cbn [firstn].
    rewrite app_nil_r.
    change (S (List.length pre)) with (1 + List.length pre)%nat.
    rewrite <- skipn_skipn.
    rewrite skipn_app, Nat.sub_diag, skipn_all. reflexivity.
  - symmetry. apply Nat.ltb_lt. rewrite length_app. cbn [List.length]. lia.
Qed.

Lemma store_past (pre : list byte) (b : byte) :
  store pre (List.length pre) b = None.
Proof.
  unfold store. rewrite Nat.ltb_irrefl. reflexivity.
Qed.

Lemma moreGroups_0 (x : Z) : x < 128 -> moreGroups x = O.
Proof.
  intros H. unfold moreGroups.
  destruct (Z.le_gt_cases x 0) as [Hx|Hx].
  - rewrite Z.log2_nonpos by lia. reflexivity.
  - assert (Z.log2 x < 7) by (apply Z.log2_lt_pow2; lia).
    pose proof (Z.log2_nonneg x).
    rewrite Z.div_small by lia. reflexivity.
Qed.

Lemma moreGroups_S (x : Z) :
  128 <= x -> moreGroups x = S (moreGroups (Z.shiftr x 7)).
Proof.
  intros H. unfold moreGroups.
  assert (7 <= Z.log2 x) by (apply Z.log2_le_pow2; lia).
  rewrite Z.log2_shiftr by lia.
  rewrite Z.max_r by lia.
  replace (Z.log2 x) with ((Z.log2 x - 7) + 1 * 7) at 1 by lia.
  rewrite Z.div_add by lia.
  rewrite Z2Nat.inj_add; [| apply Z.div_pos; lia | lia].
  change (Z.to_nat 1) with 1%nat. lia.
Qed.

(** The loop writes the groups of [x] from index [i] on, when they fit. *)
Lemma PutUvarint_from_fits (k : nat) :
  forall (x : Z) (pre suf : list byte),
    0 <= x -> moreGroups x = k -> (k < List.length suf)%nat ->
    PutUvarint_from (pre ++ suf) x (List.length pre) =
    Some (pre ++ encodeGroups k x ++ skipn (S k) suf, (List.length pre + S k)%nat).
Proof.
  induction k as [|k IH]; intros x pre suf Hx Hk Hlen;
    rewrite PutUvarint_from_step;
    destruct suf as [|s0 suf]; cbn [List.length] in Hlen; try lia.
  - destruct (Z.leb_spec 0x80 x) as [Hge|Hlt].
    + rewrite moreGroups_S in Hk by lia. discriminate.
    + rewrite store_at. cbn [encodeGroups skipn app].
      rewrite <- byte_low by lia.
      do 2 f_equal. lia.
  - destruct (Z.leb_spec 0x80 x) as [Hge|Hlt].
    + rewrite moreGroups_S in Hk by lia. injection Hk as Hk.
      rewrite store_at, byte_or_0x80.
      replace (pre ++ byte.of_Z (Z.lor (Z.land x 127) 128) :: suf)
        with ((pre ++ [byte.of_Z (Z.lor (Z.land x 127) 128)]) ++ suf)
        by (rewrite <- app_assoc; reflexivity).
      replace (S (List.length pre))
        with (List.length (pre ++ [byte.of_Z (Z.lor (Z.land x 127) 128)]))
        by (rewrite length_app; cbn [List.length]; lia).
      rewrite (IH (Z.shiftr x 7)); [| apply Z.shiftr_nonneg; lia | exact Hk | lia].
      cbn [encodeGroups skipn]. rewrite <- !app_assoc. cbn [app].
      rewrite length_app. cbn [List.length].
      do 2 f_equal. lia.
    + rewrite moreGroups_0 in Hk by lia. discriminate.
Qed.

(** The loop panics when the groups of [x] do not fit. *)
Lemma PutUvarint_from_overflows (k : nat) :
  forall (x : Z) (pre suf : list byte),
    0 <= x -> moreGroups x = k -> (List.length suf <= k)%nat ->
    PutUvarint_from (pre ++ suf) x (List.length pre) = None.
Proof.
  induction k as [|k IH]; intros x pre suf Hx Hk Hlen;
    rewrite PutUvarint_from_step.
  - destruct suf; cbn [List.length] in Hlen; [|lia].
    rewrite app_nil_r, !store_past. destruct (0x80 <=? x); reflexivity.
  - destruct (Z.leb_spec 0x80 x) as [Hge|Hlt].
    + rewrite moreGroups_S in Hk by lia. injection Hk as Hk.
      destruct suf as [|s0 suf].
      * rewrite app_nil_r, store_past. reflexivity.
      * rewrite store_at.
        replace (pre ++ byte.of_Z (Z.lor (byte.unsigned (byte.of_Z x)) 128) :: suf)
          with ((pre ++ [byte.of_Z (Z.lor (byte.unsigned (byte.of_Z x)) 128)]) ++ suf)
          by (rewrite <- app_assoc; reflexivity).
        replace (S (List.length pre))
          with (List.length (pre ++ [byte.of_Z (Z.lor (byte.unsigned (byte.of_Z x)) 128)]))
          by (rewrite length_app; cbn [List.length]; lia).
        apply IH; [apply Z.shiftr_nonneg; lia | exact Hk | cbn [List.length] in Hlen; lia].
    + rewrite moreGroups_0 in Hk by lia. discriminate.
Qed.

Lemma length_encodeGroups (k : nat) (v : Z) : List.length (encodeGroups k v) = S k.
Proof.
  revert v; induction k as [|k IH]; intros v; cbn [encodeGroups List.length].
  - reflexivity.
  - rewrite IH. reflexivity.
Qed.

Lemma length_encodeVarint (v : Z) : List.length (encodeVarint v) = S (moreGroups v).
Proof. apply length_encodeGroups. Qed.

(** ** putVarInt *)

Lemma moreGroups_bound (v : Z) (n : Z) :
  0 <= v < 2 ^ (7 * n) -> 0 < n -> (Z.of_nat (moreGroups v) < n).
Proof.
  intros Hv Hn. unfold moreGroups.
  destruct (Z.eq_dec v 0) as [->|Hne].
  - cbn. lia.
  - assert (Z.log2 v < 7 * n) by (apply Z.log2_lt_pow2; lia).
    pose proof (Z.log2_nonneg v).
    rewrite Z2Nat.id by (apply Z.div_pos; lia).
    apply Z.div_lt_upper_bound; lia.
Qed.

(** A value below 2^35 is written as the varint of the specification. *)
Lemma putVarInt_fits (buf : list byte) (v : Z) :
  0 <= v < 2 ^ 35 -> putVarInt buf v = Some (buf ++ encodeVarint v).
Proof.
  intros Hv. unfold putVarInt, PutUvarint, to_uint64.
  rewrite Z.mod_small by lia.
  pose proof (moreGroups_bound v 5 ltac:(lia) ltac:(lia)) as Hk.
  pose proof (PutUvarint_from_fits (moreGroups v) v [] (repeat Byte.x00 MaxVarintLen32)
                ltac:(lia) eq_refl) as H.
  cbn [app List.length] in H. rewrite H by (rewrite repeat_length; unfold MaxVarintLen32; lia).
  cbn [Nat.add]. f_equal. f_equal.
  fold (encodeVarint v).
  rewrite <- length_encodeVarint.
  rewrite firstn_app, Nat.sub_diag, firstn_all. cbn [firstn]. apply app_nil_r.
Qed.

(** From 2^35 on, five bytes are not enough: the write past the buffer
    panics. *)
Lemma putVarInt_panics (buf : list byte) (v : Z) :
  2 ^ 35 <= to_uint64 v -> putVarInt buf v = None.
Proof.
  intros Hv. unfold putVarInt, PutUvarint.
  pose proof (PutUvarint_from_overflows (moreGroups (to_uint64 v)) (to_uint64 v) []
                (repeat Byte.x00 MaxVarintLen32) ltac:(lia) eq_refl) as H.
  cbn [app List.length] in H. rewrite H; [reflexivity|].
  rewrite repeat_length. unfold MaxVarintLen32, moreGroups.
  assert (35 <= Z.log2 (to_uint64 v)) by (apply Z.log2_le_pow2; lia).
  assert (5 <= Z.log2 (to_uint64 v) / 7) by (apply Z.div_le_lower_bound; lia).
  lia.
Qed.

(** The [uint64] of a negative number, and [putVarInt] of a negative
    [int32]. *)
Lemma to_uint64_negative (v : Z) : - 2 ^ 63 <= v < 0 -> 2 ^ 63 <= to_uint64 v.
Proof.
  intros H. unfold to_uint64.
  replace v with (v + 2 ^ 64 + (-1) * 2 ^ 64) by lia.
  rewrite Z.mod_add by lia. rewrite Z.mod_small by lia. lia.
Qed.

Lemma putVarInt_negative (buf : list byte) (value : Z) :
  - 2 ^ 31 <= value < 0 -> putVarInt buf value = None.
Proof.
  intros Hneg. apply putVarInt_panics.
  pose proof (to_uint64_negative value ltac:(lia)). lia.
Qed.

(** ** ReadUvarint on a byte sequence *)

Lemma ReadByte_cons (b : byte) (bs : list byte) (e : error) :
  ReadByte (mkStream (b :: bs) e) = ((b, None), mkStream bs e).
Proof. reflexivity. Qed.

Lemma ReadByte_nil (e : error) :
  ReadByte (mkStream [] e) = ((Byte.x00, Some e), mkStream [] e).
Proof. reflexivity. Qed.

(** Reading [k + 1] groups of [v] from iteration [i] on adds [v << s] to
    the groups read so far. *)
Lemma ReadUvarint_loop_groups (k : nat) :
  forall (todo : nat) (i x s v : Z) (rst : list byte) (e : error),
    0 <= v < 2 ^ (7 * (Z.of_nat k + 1)) ->
    (k < todo)%nat -> 0 <= i -> i + Z.of_nat k <= 8 ->
    0 <= s -> s + 7 * Z.of_nat k <= 57 ->
    ReadUvarint_loop todo i x s (mkStream (encodeGroups k v ++ rst) e) =
    ((Z.lor x (Z.shiftl v s), None), mkStream rst e).
Proof.
  induction k as [|k IH]; intros todo i x s v rst e Hv Htodo Hi Hik Hs Hsk;
    (destruct todo as [|todo]; [lia|]);
    cbn [encodeGroups app ReadUvarint_loop]; rewrite ReadByte_cons.
  - change (2 ^ (7 * (Z.of_nat 0 + 1))) with 128 in Hv.
    destruct (group_facts v Hv) as (_ & _ & H3).
    rewrite unsigned_last, H3.
    replace (v <? 128) with true by (symmetry; apply Z.ltb_lt; lia).
    replace (i =? Z.of_nat MaxVarintLen64 - 1) with false
      by (symmetry; apply Z.eqb_neq; unfold MaxVarintLen64; lia).
    cbn [andb]. rewrite shl64_small by lia. reflexivity.
  - pose proof (land_127_range v) as Hm.
    destruct (group_facts _ Hm) as (_ & H2 & _).
    rewrite unsigned_more, H2.
    replace (Z.land v 127 + 128 <? 128) with false
      by (symmetry; apply Z.ltb_ge; lia).
    rewrite shl64_small by lia.
    rewrite IH; try lia.
    + rewrite <- Z.lor_assoc, split_group by lia. reflexivity.
    + split; [apply Z.shiftr_nonneg; lia|].
      rewrite Z.shiftr_div_pow2 by lia.
      apply Z.div_lt_upper_bound; [lia|].
      rewrite <- Z.pow_add_r by lia.
      replace (7 + 7 * (Z.of_nat k + 1)) with (7 * (Z.of_nat (S k) + 1)) by lia.
      lia.
Qed.

Lemma moreGroups_covers (v : Z) :
  0 <= v -> v < 2 ^ (7 * (Z.of_nat (moreGroups v) + 1)).
Proof.
  intros Hv. unfold moreGroups.
  destruct (Z.eq_dec v 0) as [->|Hne]; [reflexivity|].
  pose proof (Z.log2_nonneg v) as Hl.
  rewrite Z2Nat.id by (apply Z.div_pos; lia).
  apply Z.log2_lt_pow2; [lia|].
  pose proof (Z.mul_succ_div_gt (Z.log2 v) 7 ltac:(lia)). lia.
Qed.

(** The number of groups is the least that holds [v]. *)
Lemma moreGroups_least (v : Z) :
  0 <= v -> (0 < moreGroups v)%nat -> 2 ^ (7 * Z.of_nat (moreGroups v)) <= v.
Proof.
  intros Hv Hpos. unfold moreGroups in *.
  destruct (Z.eq_dec v 0) as [->|Hne]; [cbn in Hpos; lia|].
  pose proof (Z.log2_nonneg v) as Hl.
  rewrite Z2Nat.id by (apply Z.div_pos; lia).
  apply Z.log2_le_pow2; [lia|].
  apply Z.mul_div_le. lia.
Qed.

(** What the varint of a value below 2^63 decodes to, in front of any
    bytes. *)
Lemma ReadUvarint_encodeVarint (v : Z) (rst : list byte) (e : error) :
  0 <= v < 2 ^ 63 ->
  ReadUvarint (mkStream (encodeVarint v ++ rst) e) = ((v, None), mkStream rst e).
Proof.
  intros Hv. unfold ReadUvarint, encodeVarint.
  pose proof (moreGroups_bound v 9 ltac:(lia) ltac:(lia)) as Hk.
  rewrite ReadUvarint_loop_groups.
  - rewrite Z.shiftl_0_r, Z.lor_0_l. reflexivity.
  - split; [lia | apply moreGroups_covers; lia].
  - unfold MaxVarintLen64. lia.
  - lia.
  - lia.
  - lia.
  - lia.
Qed.

(** ** The buffered reader over a connection *)

Lemma same_script_refl (c : Conn) : same_script c c.
Proof. repeat split. Qed.

Lemma same_script_trans (c1 c2 c3 : Conn) :
  same_script c1 c2 -> same_script c2 c3 -> same_script c1 c3.
Proof.
  unfold same_script. intros (H1 & H2 & H3 & H4 & H5) (K1 & K2 & K3 & K4 & K5).
  repeat split; congruence.
Qed.

Lemma conn_Read_same_script (c : Conn) (n : nat) :
  same_script c (snd (conn_Read c n)).
Proof.
  unfold conn_Read. destruct n; [apply same_script_refl|].
  destruct (incoming c); [apply same_script_refl|].
  repeat split.
Qed.

Lemma Reader_ReadByte_step (b : Reader) :
  Reader_ReadByte b =
  match buf b with
  | c :: bs => ((c, None), mkReader (rd b) bs (err b))
  | [] =>
      match err b with
      | Some _ => ((Byte.x00, fst (readErr b)), snd (readErr b))
      | None => Reader_ReadByte (fill b)
      end
  end.
Proof.
  funelim (Reader_ReadByte b);
    repeat match goal with
           | H : buf _ = _ |- _ => rewrite H
           | H : err _ = _ |- _ => rewrite H
           end; reflexivity.
Qed.

Lemma maxConsecutiveEmptyReads_pos : exists m : nat, maxConsecutiveEmptyReads = S m.
Proof.
  exists 99%nat.
  with_strategy transparent [maxConsecutiveEmptyReads] (unfold maxConsecutiveEmptyReads).
  reflexivity.
Qed.

Lemma fill_loop_S (i : nat) (b : Reader) :
  fill_loop (S i) b =
  let '((data, e), rd') := conn_Read (rd b) (defaultBufSize - List.length (buf b)) in
  let b := mkReader rd' (buf b ++ data) (err b) in
  match e with
  | Some e => mkReader (rd b) (buf b) (Some e)
  | None => match data with
            | [] => fill_loop i b
            | _ :: _ => b
            end
  end.
Proof. reflexivity. Qed.

Lemma fill_spec (b : Reader) :
  err b = None -> buf b = [] ->
  reader_wf (fill b) /\ stream (fill b) = stream b /\ same_script (rd b) (rd (fill b)) /\
  (buf (fill b) <> [] \/ err (fill b) <> None).
Proof.
  intros Herr Hbuf. unfold fill.
  destruct maxConsecutiveEmptyReads_pos as [m ->].
  rewrite fill_loop_S, Hbuf. cbn [List.length app]. rewrite Nat.sub_0_r.
  pose proof (conn_Read_same_script (rd b) defaultBufSize) as Hsame.
  destruct (conn_Read (rd b) defaultBufSize) as [[data e] rd'] eqn:Hc.
  cbn [snd] in Hsame.
  apply conn_Read_inv in Hc; [|apply defaultBufSize_pos].
  destruct Hc as [(-> & Hd & _ & Hp & _)|(-> & -> & -> & Hin)].
  - destruct data as [|d data]; [congruence|].
    unfold reader_wf, stream. cbn [rd buf err]. rewrite Hbuf, Hp, Herr. cbn [app].
    split; [exact I|]. split; [reflexivity|]. split; [exact Hsame|].
    left; discriminate.
  - unfold reader_wf, stream. cbn [rd buf err]. rewrite Hbuf.
    split; [split; [exact Hin | reflexivity]|].
    split; [reflexivity|]. split; [exact Hsame|].
    right; discriminate.
Qed.

(** [ReadByte] on the reader is [ReadByte] on the bytes it stands for. *)
Lemma Reader_ReadByte_view (b : Reader) :
  reader_wf b ->
  ReadByte (view b) = (fst (Reader_ReadByte b), view (snd (Reader_ReadByte b))) /\
  reader_wf (snd (Reader_ReadByte b)) /\
  same_script (rd b) (rd (snd (Reader_ReadByte b))).
Proof.
  assert (Hdirect : forall b : Reader, reader_wf b -> (buf b <> [] \/ err b <> None) ->
    ReadByte (view b) = (fst (Reader_ReadByte b), view (snd (Reader_ReadByte b))) /\
    reader_wf (snd (Reader_ReadByte b)) /\
    same_script (rd b) (rd (snd (Reader_ReadByte b)))).
  { clear b. intros b Hwf Hp. rewrite Reader_ReadByte_step.
    unfold view, stream.
    destruct (buf b) as [|c bs] eqn:Hbuf.
    - destruct (err b) as [e|] eqn:Herr; [|destruct Hp; congruence].
      unfold reader_wf in Hwf. rewrite Herr in Hwf. destruct Hwf as [Hin ->].
      unfold readErr, pending, reader_wf. rewrite Hin, Hbuf, Herr.
      cbn [fst snd rd buf err flat_map app incoming].
      rewrite Hin. cbn [flat_map].
      repeat split; auto.
    - unfold reader_wf in *. cbn [fst snd rd buf err app].
      repeat split; auto. }
  intros Hwf.
  destruct (buf b) as [|c bs] eqn:Hbuf; [|apply Hdirect; [auto | left; congruence]].
  destruct (err b) as [e|] eqn:Herr; [apply Hdirect; [auto | right; congruence]|].
  rewrite Reader_ReadByte_step, Hbuf, Herr.
  destruct (fill_spec b Herr Hbuf) as (Hwf' & Hs & Hsame & Hp).
  destruct (Hdirect (fill b) Hwf' Hp) as (H1 & H2 & H3).
  split; [|split].
  - rewrite <- H1. unfold view. rewrite Hs.
    destruct Hsame as (-> & _). reflexivity.
  - exact H2.
  - eapply same_script_trans; eauto.
Qed.

(** [ReadUvarint] on the reader is [ReadUvarint] on the bytes it stands
    for. *)
Lemma ReadUvarint_loop_view (todo : nat) :
  forall (i x s : Z) (b : Reader),
    reader_wf b ->
    ReadUvarint_loop todo i x s (view b) =
      (fst (ReadUvarint_loop todo i x s b), view (snd (ReadUvarint_loop todo i x s b))) /\
    reader_wf (snd (ReadUvarint_loop todo i x s b)) /\
    same_script (rd b) (rd (snd (ReadUvarint_loop todo i x s b))).
Proof.
  induction todo as [|todo IH]; intros i x s b Hwf; cbn [ReadUvarint_loop].
  - cbn [fst snd]. auto using same_script_refl.
  - destruct (Reader_ReadByte_view b Hwf) as (H1 & H2 & H3).
    change (@ReadByte Reader Reader_ByteReader b) with (Reader_ReadByte b).
    rewrite H1.
    destruct (Reader_ReadByte b) as [[c e] b']. cbn [fst snd] in *.
    destruct e as [e|]; [cbn [fst snd]; auto|].
    destruct (byte.unsigned c <? 128).
    + destruct ((i =? Z.of_nat MaxVarintLen64 - 1) && (1 <? byte.unsigned c));
        cbn [fst snd]; auto.
    + destruct (IH (i + 1) (Z.lor x (shl64 (Z.land (byte.unsigned c) 127) s)) (s + 7)
                  b' H2) as (K1 & K2 & K3).
      split; [exact K1|]. split; [exact K2|].
      eapply same_script_trans; eauto.
Qed.

Lemma ReadUvarint_view (b : Reader) :
  reader_wf b ->
  ReadUvarint (view b) = (fst (ReadUvarint b), view (snd (ReadUvarint b))) /\
  reader_wf (snd (ReadUvarint b)) /\
  same_script (rd b) (rd (snd (ReadUvarint b))).
Proof. apply ReadUvarint_loop_view. Qed.

(** A [Read] into a buffer that is not empty takes a prefix of the bytes
    that is not empty, or finds the end. *)
Lemma Reader_Read_view (b : Reader) (n : nat) :
  reader_wf b -> (0 < n)%nat ->
  reader_wf (snd (Reader_Read b n)) /\
  same_script (rd b) (rd (snd (Reader_Read b n))) /\
  ((exists data : list byte,
       data <> [] /\ (List.length data <= n)%nat /\
       fst (Reader_Read b n) = (data, None) /\
       stream b = data ++ stream (snd (Reader_Read b n))) \/
   (stream b = [] /\ fst (Reader_Read b n) = ([], Some (final (rd b))) /\
    stream (snd (Reader_Read b n)) = [])).
Proof.
  intros Hwf Hn. unfold Reader_Read.
  destruct n as [|n]; [lia|].
  destruct (buf b) as [|x xs] eqn:Hbuf.
  - destruct (err b) as [e|] eqn:Herr.
    + unfold reader_wf in Hwf. rewrite Herr in Hwf. destruct Hwf as [Hin ->].
      unfold readErr, reader_wf, stream, pending. rewrite Herr, Hbuf, Hin.
      cbn [fst snd rd buf err flat_map app].
      split; [exact I|]. split; [apply same_script_refl|].
      right. rewrite Hin. cbn [flat_map]. auto.
    + destruct (defaultBufSize <=? S n)%nat.
      * pose proof (conn_Read_same_script (rd b) (S n)) as Hsame.
        destruct (conn_Read (rd b) (S n)) as [[d e] rd'] eqn:Hc.
        cbn [snd] in Hsame.
        apply conn_Read_inv in Hc; [|lia].
        unfold readErr, reader_wf, stream. cbn [fst snd rd buf err app]. rewrite Hbuf.
        split; [exact I|]. split; [exact Hsame|].
        destruct Hc as [(-> & Hd & Hl & Hp & _)|(-> & -> & -> & Hin)].
        -- left. exists d. cbn [app]. auto.
        -- right. unfold pending. rewrite Hin. cbn [flat_map app]. auto.
      * pose proof (conn_Read_same_script (rd b) defaultBufSize) as Hsame.
        destruct (conn_Read (rd b) defaultBufSize) as [[d e] rd'] eqn:Hc.
        cbn [snd] in Hsame.
        apply conn_Read_inv in Hc; [|apply defaultBufSize_pos].
        destruct Hc as [(-> & Hd & Hl & Hp & _)|(-> & -> & -> & Hin)].
        -- destruct d as [|d0 d]; [congruence|].
           unfold reader_wf, stream. cbn [fst snd rd buf err]. rewrite Hbuf.
           split; [exact I|]. split; [exact Hsame|].
           left. exists (firstn (S n) (d0 :: d)).
           split; [cbn [firstn]; discriminate|].
           split; [apply firstn_le_length|].
           split; [reflexivity|].
           cbn [app]. rewrite Hp, app_assoc, firstn_skipn. reflexivity.
        -- unfold readErr, reader_wf, stream. cbn [fst snd rd buf err]. rewrite Hbuf.
           split; [exact I|]. split; [exact Hsame|].
           right. unfold pending. rewrite Hin. cbn [flat_map app]. auto.
  - unfold stream. cbn [fst snd rd buf err].
    split; [exact Hwf|]. split; [apply same_script_refl|].
    left. exists (firstn (S n) (x :: xs)).
    split; [cbn [firstn]; discriminate|].
    split; [apply firstn_le_length|].
    split; [reflexivity|].
    rewrite Hbuf, app_assoc, firstn_skipn. reflexivity.
Qed.

Lemma ReadFull_loop_step (r : Reader) (size : nat) (got : list byte) (e : option error) :
  ReadFull_loop r size got e =
  if (List.length got <? size)%nat && is_nil e then
    ReadFull_loop (snd (Reader_Read r (size - List.length got))) size
      (got ++ fst (fst (Reader_Read r (size - List.length got))))
      (snd (fst (Reader_Read r (size - List.length got))))
  else ((got, e), r).
Proof.
  funelim (ReadFull_loop r size got e).
  - match goal with H : (_ && _) = false |- _ => rewrite H end. reflexivity.
  - rewrite Hc, Hr. reflexivity.
Qed.

Lemma firstn_app_more {A : Type} (n : nat) (l1 l2 : list A) :
  (List.length l1 <= n)%nat ->
  firstn n (l1 ++ l2) = l1 ++ firstn (n - List.length l1) l2.
Proof.
  intros H. rewrite firstn_app, firstn_all2 by lia. reflexivity.
Qed.

Lemma skipn_app_more {A : Type} (n : nat) (l1 l2 : list A) :
  (List.length l1 <= n)%nat ->
  skipn n (l1 ++ l2) = skipn (n - List.length l1) l2.
Proof.
  intros H. rewrite skipn_app, skipn_all2 by lia. reflexivity.
Qed.

(** The loop of [ReadFull] goes on until [size] bytes are there or the
    bytes end, however many each [Read] brings. *)
Lemma ReadFull_loop_view (m : nat) :
  forall (b : Reader) (size : nat) (got : list byte),
    (List.length (stream b) <= m)%nat -> reader_wf b -> (List.length got <= size)%nat ->
    reader_wf (snd (ReadFull_loop b size got None)) /\
    same_script (rd b) (rd (snd (ReadFull_loop b size got None))) /\
    if (size - List.length got <=? List.length (stream b))%nat then
      fst (ReadFull_loop b size got None) =
        (got ++ firstn (size - List.length got) (stream b), None) /\
      stream (snd (ReadFull_loop b size got None)) =
        skipn (size - List.length got) (stream b)
    else
      fst (ReadFull_loop b size got None) = (got ++ stream b, Some (final (rd b))) /\
      stream (snd (ReadFull_loop b size got None)) = [].
Proof.
  induction m as [|m IH]; intros b size got Hm Hwf Hgot;
    rewrite ReadFull_loop_step; cbn [is_nil]; rewrite andb_true_r;
    destruct (Nat.ltb_spec (List.length got) size) as [Hlt|Hge].
  2, 4: replace (size - List.length got)%nat with O by lia;
        cbn [fst snd firstn skipn Nat.leb]; rewrite app_nil_r;
        auto using same_script_refl.
  - (* no byte is left *)
    destruct (Reader_Read_view b (size - List.length got) Hwf ltac:(lia))
      as (Hwf' & Hsame & [(data & Hd & Hl & Hr & Hs)|(Hs & Hr & Hs')]).
    + rewrite Hs, length_app in Hm. destruct data; [congruence | cbn in Hm; lia].
    + rewrite Hr. cbn [fst snd].
      rewrite ReadFull_loop_step. cbn [is_nil]. rewrite andb_false_r.
      cbn [fst snd]. rewrite Hs. cbn [List.length].
      replace (size - List.length got <=? 0)%nat with false
        by (symmetry; apply Nat.leb_gt; lia).
      auto 6.
  - destruct (Reader_Read_view b (size - List.length got) Hwf ltac:(lia))
      as (Hwf' & Hsame & [(data & Hd & Hl & Hr & Hs)|(Hs & Hr & Hs')]).
    + rewrite Hr. cbn [fst snd].
      set (b' := snd (Reader_Read b (size - List.length got))) in *.
      assert (Hm' : (List.length (stream b') <= m)%nat).
      { rewrite Hs, length_app in Hm. destruct data; [congruence | cbn in Hm; lia]. }
      assert (Hgot' : (List.length (got ++ data) <= size)%nat)
        by (rewrite length_app; lia).
      destruct (IH b' size (got ++ data) Hm' Hwf' Hgot') as (K1 & K2 & K3).
      split; [exact K1|]. split; [eapply same_script_trans; eauto|].
      rewrite length_app in K3.
      replace (size - (List.length got + List.length data))%nat
        with (size - List.length got - List.length data)%nat in K3 by lia.
      rewrite Hs, length_app.
      destruct (Nat.leb_spec (size - List.length got - List.length data)
                  (List.length (stream b'))) as [Hle|Hgt].
      * replace (size - List.length got <=? List.length data + List.length (stream b'))%nat
          with true by (symmetry; apply Nat.leb_le; lia).
        rewrite firstn_app_more, skipn_app_more by lia.
        rewrite <- app_assoc in K3. exact K3.
      * replace (size - List.length got <=? List.length data + List.length (stream b'))%nat
          with false by (symmetry; apply Nat.leb_gt; lia).
        rewrite <- app_assoc in K3.
        destruct Hsame as (Hf & _). rewrite <- Hf. exact K3.
    + rewrite Hr. cbn [fst snd].
      rewrite ReadFull_loop_step. cbn [is_nil]. rewrite andb_false_r.
      cbn [fst snd]. rewrite Hs. cbn [List.length].
      replace (size - List.length got <=? 0)%nat with false
        by (symmetry; apply Nat.leb_gt; lia).
      auto 6.
Qed.

Lemma ReadFull_view (b : Reader) (size : nat) :
  reader_wf b ->
  readFull (view b) size = (fst (ReadFull b size), view (snd (ReadFull b size))) /\
  reader_wf (snd (ReadFull b size)) /\
  same_script (rd b) (rd (snd (ReadFull b size))).
Proof.
  intros Hwf. unfold ReadFull, readFull, view. cbn [rest at_end].
  destruct (ReadFull_loop_view (List.length (stream b)) b size [] (le_n _) Hwf
              ltac:(cbn; lia)) as (K1 & K2 & K3).
  cbn [List.length app] in K3. rewrite Nat.sub_0_r in K3.
  destruct (ReadFull_loop b size [] None) as [[got e] b'].
  cbn [fst snd] in *.
  destruct K2 as (Hf & K2). rewrite Hf.
  split; [|split; [exact K1 | repeat split; tauto]].
  destruct (Nat.leb_spec size (List.length (stream b))) as [Hle|Hgt].
  - destruct K3 as (K3 & K4). injection K3 as -> ->. rewrite K4.
    rewrite length_firstn, Nat.min_l by lia.
    rewrite Nat.leb_refl. reflexivity.
  - destruct K3 as (K3 & K4). injection K3 as -> ->. rewrite K4.
    replace (size <=? List.length (stream b))%nat with false
      by (symmetry; apply Nat.leb_gt; lia).
    destruct (final (rd b)); cbn [is_EOF];
      destruct (0 <? List.length (stream b))%nat; reflexivity.
Qed.

Lemma readFull_length (s : ByteStream) (size : nat) got s' :
  readFull s size = ((got, None), s') ->
  List.length got = size /\ rest s = got ++ rest s'.
Proof.
  unfold readFull. destruct (Nat.leb_spec size (List.length (rest s))) as [Hle|Hgt].
  - intros H. injection H as <- <-. cbn [rest].
    rewrite length_firstn, firstn_skipn. split; [lia | reflexivity].
  - discriminate.
Qed.

(** The reads of [Ping] do to the connection's bytes what the response
    reader of the specification does, however the bytes arrive. *)
Lemma Ping_readResponse_view (b : Reader) :
  reader_wf b ->
  readResponsePacket (view b) =
    (fst (Ping_readResponse b), view (snd (Ping_readResponse b))) /\
  same_script (rd b) (rd (snd (Ping_readResponse b))).
Proof.
  intros Hwf. unfold readResponsePacket, readPayload, Ping_readResponse.
  destruct (ReadUvarint_view b Hwf) as (H1 & Hw1 & Hs1). rewrite H1.
  destruct (ReadUvarint b) as [[x1 e1] b1]. cbn [fst snd] in *.
  destruct e1 as [e1|]; [cbn [fst snd]; auto|].
  destruct (ReadUvarint_view b1 Hw1) as (H2 & Hw2 & Hs2). rewrite H2.
  destruct (ReadUvarint b1) as [[x2 e2] b2]. cbn [fst snd] in *.
  pose proof (same_script_trans _ _ _ Hs1 Hs2) as Hs12.
  destruct e2 as [e2|]; [cbn [fst snd]; auto|].
  destruct (negb (x2 =? 0)); [cbn [fst snd]; auto|].
  destruct (ReadUvarint_view b2 Hw2) as (H3 & Hw3 & Hs3). rewrite H3.
  destruct (ReadUvarint b2) as [[x3 e3] b3]. cbn [fst snd] in *.
  pose proof (same_script_trans _ _ _ Hs12 Hs3) as Hs123.
  destruct e3 as [e3|]; [cbn [fst snd]; auto|].
  destruct (make_bytes x3) as [size|]; [|cbn [fst snd]; auto].
  destruct (ReadFull_view b3 size Hw3) as (H4 & Hw4 & Hs4).
  pose proof (same_script_trans _ _ _ Hs123 Hs4) as Hs1234.
  destruct (ReadFull b3 size) as [[got e4] b4]. cbn [fst snd] in *.
  rewrite H4.
  destruct e4 as [e4|]; [cbn [fst snd]; auto|].
  cbn [fst snd]. split; [|exact Hs1234].
  apply readFull_length in H4. destruct H4 as (Hl & _).
  rewrite Hl, Nat.sub_diag. cbn [repeat]. rewrite app_nil_r. reflexivity.
Qed.

Lemma reader_wf_NewReader (c : Conn) : reader_wf (NewReader c).
Proof. exact I. Qed.

Lemma view_NewReader (c : Conn) : view (NewReader c) = mkStream (pending c) (final c).
Proof. reflexivity. Qed.

(** ** Ping and the response reader *)

Lemma pending_after_writes (c : Conn) (b1 b2 : list byte) :
  pending (snd (conn_Write (snd (conn_Write c b1)) b2)) = pending c /\
  final (snd (conn_Write (snd (conn_Write c b1)) b2)) = final c /\
  written (snd (conn_Write (snd (conn_Write c b1)) b2)) = written c ++ [b1; b2].
Proof.
  unfold conn_Write, pending. cbn [snd incoming final written].
  rewrite <- app_assoc. auto.
Qed.

(** After the deadline is set and the handshake is built, what [Ping]
    returns is decided by the bytes of the connection and the error at
    their end alone. *)
Lemma Ping_exchange_reads (Unmarshal : list byte -> Response -> Response * option error)
    (c : Conn) (address : string) (port protocolVersion : Z) (handshake : list byte) :
  deadline_result c = None ->
  makeHandshakePacket address port protocolVersion = Some handshake ->
  fst (Ping_exchange Unmarshal c address port protocolVersion) =
    after_read Unmarshal (fst (readResponsePacket (mkStream (pending c) (final c)))) /\
  written (snd (Ping_exchange Unmarshal c address port protocolVersion)) =
    written c ++ [handshake; requestPacket].
Proof.
  intros Hd Hh. unfold Ping_exchange, conn_SetDeadline. rewrite Hd, Hh.
  destruct (pending_after_writes c handshake requestPacket) as (Hp & Hf & Hw).
  destruct (conn_Write c handshake) as [e1 c1]. cbn [snd] in Hp, Hf, Hw.
  destruct (conn_Write c1 requestPacket) as [e2 c2]. cbn [snd] in Hp, Hf, Hw.
  destruct (Ping_readResponse_view (NewReader c2) (reader_wf_NewReader c2)) as (Hv & Hs).
  rewrite view_NewReader, Hp, Hf in Hv. rewrite Hv.
  destruct (Ping_readResponse (NewReader c2)) as [r b]. cbn [fst snd] in *.
  destruct Hs as (_ & _ & _ & Hw' & _). cbn [rd NewReader] in Hw'.
  assert (Hwr : written (conn_Close (rd b)) = written c ++ [handshake; requestPacket])
    by (cbn [conn_Close written]; congruence).
  destruct r as [[payload [e|]]|]; cbn [after_read fst snd]; auto.
  destruct (Unmarshal payload zeroResponse) as [resp [e|]]; cbn [fst snd]; auto.
Qed.

(** ** The handshake packet *)

Lemma to_int32_small (x : Z) : - 2 ^ 31 <= x < 2 ^ 31 -> to_int32 x = x.
Proof.
  intros H. unfold to_int32. rewrite Z.mod_small by lia. lia.
Qed.

Lemma length_list_byte_of_string (s : string) :
  List.length (list_byte_of_string s) = String.length s.
Proof.
  unfold list_byte_of_string. rewrite length_map.
  induction s as [|a s IH]; cbn [list_ascii_of_string List.length String.length];
    congruence.
Qed.

Lemma BigEndian_PutUint16_bytes (port : Z) :
  BigEndian_PutUint16 port = [byte.of_Z (port / 256); byte.of_Z (port mod 256)].
Proof.
  unfold BigEndian_PutUint16. rewrite Z.shiftr_div_pow2 by lia.
  change (2 ^ 8) with 256. f_equal. f_equal.
  apply byte.unsigned_inj. rewrite !byte.unsigned_of_Z. unfold byte.wrap.
  change (2 ^ 8) with 256. rewrite Z.mod_mod by lia. reflexivity.
Qed.

Lemma length_encodeVarint_le (v : Z) :
  0 <= v < 2 ^ 35 -> (List.length (encodeVarint v) <= 5)%nat.
Proof.
  intros Hv. rewrite length_encodeVarint.
  pose proof (moreGroups_bound v 5 ltac:(lia) ltac:(lia)). lia.
Qed.

Lemma length_handshakeBody (address : string) (port protocolVersion : Z) :
  0 <= protocolVersion < 2 ^ 31 -> len address < 2 ^ 31 ->
  Z.of_nat (List.length (handshakeBody address port protocolVersion)) <= len address + 14.
Proof.
  intros Hpv Hlen. unfold handshakeBody, len in *.
  rewrite !length_app, length_list_byte_of_string. cbn [List.length].
  pose proof (length_encodeVarint_le protocolVersion ltac:(lia)).
  pose proof (length_encodeVarint_le (Z.of_nat (String.length address)) ltac:(lia)).
  pose proof (length_encodeVarint_le 1 ltac:(lia)).
  change (List.length (encodeVarint 1)) with 1%nat in *.
  lia.
Qed.

Lemma to_int32_high (x : Z) : 2 ^ 31 <= x < 2 ^ 32 -> to_int32 x = x - 2 ^ 32.
Proof.
  intros H. unfold to_int32.
  replace (x + 2 ^ 31) with (x - 2 ^ 31 + 1 * 2 ^ 32) by lia.
  rewrite Z.mod_add by lia. rewrite Z.mod_small by lia. lia.
Qed.

Lemma length_handshakeBody_le (address : string) (port protocolVersion : Z) :
  0 <= protocolVersion < 2 ^ 31 -> len address < 2 ^ 31 ->
  len address + 6 <= Z.of_nat (List.length (handshakeBody address port protocolVersion))
  <= len address + 14.
Proof.
  intros Hpv Hlen. unfold handshakeBody, len in *.
  rewrite !length_app, length_list_byte_of_string. cbn [List.length].
  pose proof (length_encodeVarint_le protocolVersion ltac:(lia)).
  pose proof (length_encodeVarint_le (Z.of_nat (String.length address)) ltac:(lia)).
  rewrite !length_encodeVarint.
  change (moreGroups 1) with 0%nat.
  rewrite !length_encodeVarint in *.
  lia.
Qed.

(** C2.  What [makeHandshakePacket] does for a 16-bit port, a protocol
    version that is an [int32] and an address of less than 2^31 bytes.
    For a negative protocol version it panics and returns no packet,
    where the claim has the layout; so it does when the bytes after the
    length are 2^31 or more (an address of 2^31 - 10 bytes or longer):
    [putVarInt] is given a negative [int32] both times.  Otherwise it
    returns exactly
    [varint(len) | 0x00 | varint(protocolVersion) | varint(len(address)) |
    address bytes | port as 2 bytes big-endian | varint(1)], and the
    leading varint decodes to the number of bytes that follow it. *)
Theorem makeHandshakePacket_layout_or_panic (address : string) (port protocolVersion : Z) :
  0 <= port < 2 ^ 16 -> - 2 ^ 31 <= protocolVersion < 2 ^ 31 -> len address < 2 ^ 31 ->
  (protocolVersion < 0 -> makeHandshakePacket address port protocolVersion = None) /\
  (0 <= protocolVersion ->
   2 ^ 31 <= Z.of_nat (List.length (handshakeBody address port protocolVersion)) ->
   makeHandshakePacket address port protocolVersion = None) /\
  (0 <= protocolVersion ->
   Z.of_nat (List.length (handshakeBody address port protocolVersion)) < 2 ^ 31 ->
   makeHandshakePacket address port protocolVersion =
     Some (encodeVarint (Z.of_nat (List.length (handshakeBody address port protocolVersion)))
           ++ handshakeBody address port protocolVersion) /\
   decodeVarint
     (encodeVarint (Z.of_nat (List.length (handshakeBody address port protocolVersion)))
      ++ handshakeBody address port protocolVersion) =
     inl (Z.of_nat (List.length (handshakeBody address port protocolVersion)),
          List.length
            (encodeVarint
               (Z.of_nat (List.length (handshakeBody address port protocolVersion)))))).
Proof.
  intros Hport Hpv Hlen.
  assert (Hlen0 : 0 <= len address) by (unfold len; lia).
  split.
  { intros Hneg. unfold makeHandshakePacket. cbn [app].
    rewrite to_int32_small by lia.
    rewrite putVarInt_negative by lia. reflexivity. }
  assert (Hbuild : 0 <= protocolVersion ->
            makeHandshakePacket address port protocolVersion =
            match putVarInt []
                    (to_int32
                       (Z.of_nat (List.length (handshakeBody address port protocolVersion))))
            with
            | Some out => Some (out ++ handshakeBody address port protocolVersion)
            | None => None
            end).
  { intros Hpos. unfold makeHandshakePacket.
    rewrite (to_int32_small protocolVersion) by lia.
    rewrite (to_int32_small (len address)) by lia.
    cbn [app].
    rewrite (putVarInt_fits _ protocolVersion) by lia.
    rewrite (putVarInt_fits _ (len address)) by lia.
    rewrite (putVarInt_fits _ 1) by lia.
    rewrite BigEndian_PutUint16_bytes.
    match goal with
    | |- context [putVarInt [] (to_int32 (Z.of_nat (List.length ?b)))] =>
        replace b with (handshakeBody address port protocolVersion)
          by (unfold handshakeBody; cbn [app]; rewrite <- !app_assoc; reflexivity)
    end.
    reflexivity. }
  split.
  - intros Hpos Hbig. rewrite (Hbuild Hpos).
    pose proof (length_handshakeBody_le address port protocolVersion
                  ltac:(lia) Hlen) as Hbody.
    rewrite to_int32_high by lia.
    rewrite putVarInt_negative by lia. reflexivity.
  - intros Hpos Hsmall. rewrite (Hbuild Hpos). split.
    + rewrite to_int32_small by lia. rewrite putVarInt_fits by lia. reflexivity.
    + unfold decodeVarint.
      rewrite ReadUvarint_encodeVarint by lia.
      cbn [rest]. rewrite length_app. do 2 f_equal. lia.
Qed.

(** The handshake for ["x"] and port 25565: no packet for the protocol
    version -1, the layout for the protocol version 0. *)
Lemma makeHandshakePacket_layout_or_panic_x :
  makeHandshakePacket "x" 25565 (-1) = None /\
  makeHandshakePacket "x" 25565 0 =
    Some (encodeVarint (Z.of_nat (List.length (handshakeBody "x" 25565 0)))
          ++ handshakeBody "x" 25565 0).
Proof.
  split.
  - apply (proj1 (makeHandshakePacket_layout_or_panic "x" 25565 (-1)
                    ltac:(lia) ltac:(lia) ltac:(cbn; lia))). lia.
  - apply (proj2 (proj2 (makeHandshakePacket_layout_or_panic "x" 25565 0
                           ltac:(lia) ltac:(lia) ltac:(cbn; lia)))).
    + lia.
    + cbn. lia.
Defined.

(** C4.  [makeHandshakePacket] panics for the protocol version -1, whatever
    the address and the port: [uint64(int32(-1))] is 2^64 - 1, a varint of
    ten bytes, and [putVarInt] offers [PutUvarint] five. *)
Theorem makeHandshakePacket_panics_negative (address : string) (port : Z) :
  makeHandshakePacket address port (-1) = None.
Proof.
  unfold makeHandshakePacket. cbn [app].
  rewrite putVarInt_panics; [reflexivity|].
  vm_compute. discriminate.
Qed.

(** ** The varint round trip *)

(** C1.  For a non-negative 32-bit integer [v], [putVarInt] writes bytes
    that [ReadUvarint] decodes to [v], taking exactly those bytes and
    leaving what follows; their number is the least number of 7-bit groups
    that hold [v]. *)
Theorem putVarInt_round_trip (v : Z) (rst : list byte) :
  0 <= v < 2 ^ 31 ->
  exists enc : list byte,
    putVarInt [] v = Some enc /\
    decodeVarint enc = inl (v, List.length enc) /\
    ReadUvarint (mkStream (enc ++ rst) EOF) = ((v, None), mkStream rst EOF) /\
    (1 <= List.length enc)%nat /\
    v < 2 ^ (7 * Z.of_nat (List.length enc)) /\
    (forall n : nat,
        (1 <= n)%nat -> v < 2 ^ (7 * Z.of_nat n) -> (List.length enc <= n)%nat).
Proof.
  intros Hv. exists (encodeVarint v).
  split; [apply (putVarInt_fits [] v); lia|].
  split.
  { unfold decodeVarint.
    rewrite <- (app_nil_r (encodeVarint v)) at 1.
    rewrite ReadUvarint_encodeVarint by lia.
    cbn [rest List.length]. rewrite Nat.sub_0_r. reflexivity. }
  split; [apply ReadUvarint_encodeVarint; lia|].
  rewrite length_encodeVarint.
  split; [lia|].
  split.
  { replace (Z.of_nat (S (moreGroups v))) with (Z.of_nat (moreGroups v) + 1) by lia.
    apply moreGroups_covers. lia. }
  intros n Hn Hlt.
  destruct (Nat.le_gt_cases (S (moreGroups v)) n) as [Hle|Hgt]; [exact Hle|].
  exfalso.
  pose proof (moreGroups_least v ltac:(lia) ltac:(lia)) as Hleast.
  assert (2 ^ (7 * Z.of_nat n) <= 2 ^ (7 * Z.of_nat (moreGroups v)))
    by (apply Z.pow_le_mono_r; lia).
  lia.
Qed.

(** 0 and 127 take one byte, 128 takes two, 2^31 - 1 takes five. *)
Lemma putVarInt_round_trip_lengths :
  (exists enc, putVarInt [] 0 = Some enc /\ decodeVarint enc = inl (0, 1%nat)) /\
  (exists enc, putVarInt [] 127 = Some enc /\ decodeVarint enc = inl (127, 1%nat)) /\
  (exists enc, putVarInt [] 128 = Some enc /\ decodeVarint enc = inl (128, 2%nat)) /\
  (exists enc, putVarInt [] (2 ^ 31 - 1) = Some enc /\
               decodeVarint enc = inl (2 ^ 31 - 1, 5%nat)).
Proof.
  repeat split.
  - destruct (putVarInt_round_trip 0 [] ltac:(lia)) as (enc & Hp & Hd & _).
    exists enc. split; [exact Hp|]. rewrite Hd.
    vm_compute in Hp. injection Hp as <-. reflexivity.
  - destruct (putVarInt_round_trip 127 [] ltac:(lia)) as (enc & Hp & Hd & _).
    exists enc. split; [exact Hp|]. rewrite Hd.
    vm_compute in Hp. injection Hp as <-. reflexivity.
  - destruct (putVarInt_round_trip 128 [] ltac:(lia)) as (enc & Hp & Hd & _).
    exists enc. split; [exact Hp|]. rewrite Hd.
    vm_compute in Hp. injection Hp as <-. reflexivity.
  - destruct (putVarInt_round_trip (2 ^ 31 - 1) [] ltac:(lia)) as (enc & Hp & Hd & _).
    exists enc. split; [exact Hp|]. rewrite Hd.
    vm_compute in Hp. injection Hp as <-. reflexivity.
Defined.

(** ** The request packet *)

(** C9.  The request packet is the two bytes [{0x01, 0x00}], as the
    variable [requestPacket] and as what [makeRequestPacket] returns, and
    that is what [Ping] writes after the handshake, whatever the address,
    the port, the protocol version and the connection. *)
Theorem requestPacket_constant :
  requestPacket = [Byte.x01; Byte.x00] /\
  (forall u : unit, makeRequestPacket u = [Byte.x01; Byte.x00]) /\
  (forall (Unmarshal : list byte -> Response -> Response * option error)
          (c : Conn) (address : string) (port protocolVersion : Z),
      let c' := snd (Ping_exchange Unmarshal c address port protocolVersion) in
      written c' = written c \/
      exists handshake : list byte,
        written c' = written c ++ [handshake; [Byte.x01; Byte.x00]]).
Proof.
  split; [reflexivity|]. split; [reflexivity|].
  intros Unmarshal c address port protocolVersion.
  destruct (deadline_result c) as [e|] eqn:Hd.
  { left. unfold Ping_exchange, conn_SetDeadline. rewrite Hd. reflexivity. }
  destruct (makeHandshakePacket address port protocolVersion) as [hs|] eqn:Hh.
  - right. exists hs.
    apply (Ping_exchange_reads Unmarshal c address port protocolVersion hs Hd Hh).
  - left. unfold Ping_exchange, conn_SetDeadline. rewrite Hd, Hh. reflexivity.
Qed.

(** ** When ReadUvarint fails *)

(** The bytes end before a byte with the high bit clear. *)
Lemma ReadUvarint_loop_truncated (bytes : list byte) :
  forall (todo : nat) (i x s : Z) (e : error),
    Forall more_follow bytes -> (List.length bytes < todo)%nat -> 0 <= i ->
    snd (fst (ReadUvarint_loop todo i x s (mkStream bytes e))) =
    Some (if (0 <? i + Z.of_nat (List.length bytes)) && is_EOF e
          then ErrUnexpectedEOF else e).
Proof.
  induction bytes as [|b bytes IH]; intros todo i x s e Hall Hlen Hi;
    (destruct todo as [|todo]; [cbn [List.length] in Hlen; lia|]);
    cbn [ReadUvarint_loop].
  - rewrite ReadByte_nil. cbn [fst snd List.length]. rewrite Z.add_0_r. reflexivity.
  - rewrite ReadByte_cons.
    inversion Hall as [|? ? Hb Hall']; subst. unfold more_follow in Hb.
    replace (byte.unsigned b <? 128) with false by (symmetry; apply Z.ltb_ge; lia).
    cbn [List.length] in *.
    rewrite IH by (auto; lia).
    replace (i + 1 + Z.of_nat (List.length bytes))
      with (i + Z.of_nat (S (List.length bytes))) by lia.
    reflexivity.
Qed.

(** As many bytes with the high bit set as the loop has turns. *)
Lemma ReadUvarint_loop_overlong (todo : nat) :
  forall (bytes more : list byte) (i x s : Z) (e : error),
    List.length bytes = todo -> Forall more_follow bytes ->
    snd (fst (ReadUvarint_loop todo i x s (mkStream (bytes ++ more) e))) =
    Some errOverflow.
Proof.
  induction todo as [|todo IH]; intros bytes more i x s e Hlen Hall;
    cbn [ReadUvarint_loop].
  - reflexivity.
  - destruct bytes as [|b bytes]; [discriminate|].
    cbn [app]. rewrite ReadByte_cons.
    inversion Hall as [|? ? Hb Hall']; subst. unfold more_follow in Hb.
    replace (byte.unsigned b <? 128) with false by (symmetry; apply Z.ltb_ge; lia).
    apply IH; [cbn [List.length] in Hlen; lia | exact Hall'].
Qed.

(** A tenth byte above 1. *)
Lemma ReadUvarint_loop_tenth (bytes : list byte) :
  forall (todo : nat) (b : byte) (more : list byte) (i x s : Z) (e : error),
    Forall more_follow bytes -> (List.length bytes < todo)%nat ->
    i + Z.of_nat (List.length bytes) = 9 ->
    1 < byte.unsigned b < 0x80 ->
    snd (fst (ReadUvarint_loop todo i x s (mkStream (bytes ++ b :: more) e))) =
    Some errOverflow.
Proof.
  induction bytes as [|b0 bytes IH]; intros todo b more i x s e Hall Hlen Hi Hb;
    (destruct todo as [|todo]; [cbn [List.length] in Hlen; lia|]);
    cbn [ReadUvarint_loop app]; rewrite ReadByte_cons.
  - cbn [List.length] in Hi.
    replace (byte.unsigned b <? 128) with true by (symmetry; apply Z.ltb_lt; lia).
    replace (i =? Z.of_nat MaxVarintLen64 - 1) with true
      by (symmetry; apply Z.eqb_eq; unfold MaxVarintLen64; lia).
    replace (1 <? byte.unsigned b) with true by (symmetry; apply Z.ltb_lt; lia).
    reflexivity.
  - inversion Hall as [|? ? Hb0 Hall']; subst. unfold more_follow in Hb0.
    replace (byte.unsigned b0 <? 128) with false by (symmetry; apply Z.ltb_ge; lia).
    cbn [List.length] in *.
    apply IH; auto; lia.
Qed.

Lemma ReadUvarint_truncated (bytes : list byte) (e : error) :
  Forall more_follow bytes -> (List.length bytes < 10)%nat ->
  snd (fst (ReadUvarint (mkStream bytes e))) =
  Some (if (0 <? List.length bytes)%nat && is_EOF e then ErrUnexpectedEOF else e).
Proof.
  intros Hall Hlen.
  pose proof (ReadUvarint_loop_truncated bytes MaxVarintLen64 0 0 0 e Hall Hlen
                ltac:(lia)) as H.
  unfold ReadUvarint. rewrite H.
  destruct bytes; reflexivity.
Qed.

Lemma ReadUvarint_overlong (bytes more : list byte) (e : error) :
  List.length bytes = 10%nat -> Forall more_follow bytes ->
  snd (fst (ReadUvarint (mkStream (bytes ++ more) e))) = Some errOverflow.
Proof.
  intros Hlen Hall.
  exact (ReadUvarint_loop_overlong MaxVarintLen64 bytes more 0 0 0 e Hlen Hall).
Qed.

Lemma ReadUvarint_tenth (bytes more : list byte) (b : byte) (e : error) :
  List.length bytes = 9%nat -> Forall more_follow bytes ->
  1 < byte.unsigned b < 0x80 ->
  snd (fst (ReadUvarint (mkStream (bytes ++ b :: more) e))) = Some errOverflow.
Proof.
  intros Hlen Hall Hb.
  refine (ReadUvarint_loop_tenth bytes MaxVarintLen64 b more 0 0 0 e Hall _ _ Hb).
  - rewrite Hlen. unfold MaxVarintLen64. lia.
  - rewrite Hlen. reflexivity.
Qed.

Lemma ReadUvarint_NewReader (c : Conn) :
  fst (ReadUvarint (NewReader c)) = fst (ReadUvarint (mkStream (pending c) (final c))).
Proof.
  destruct (ReadUvarint_view (NewReader c) (reader_wf_NewReader c)) as (H & _).
  rewrite view_NewReader in H.
  destruct (ReadUvarint (NewReader c)) as [res b'].
  rewrite H. reflexivity.
Qed.

Lemma shl64_exact (a s : Z) :
  0 <= a -> 0 <= s -> a * 2 ^ s < 2 ^ 64 -> shl64 a s = Z.shiftl a s.
Proof.
  intros Ha Hs Hlt. unfold shl64. apply Z.mod_small.
  rewrite Z.shiftl_mul_pow2 by lia.
  assert (0 < 2 ^ s) by (apply Z.pow_pos_nonneg; lia). nia.
Qed.

(** A group and the groups above it. *)
Lemma shiftl_group (g r s : Z) :
  0 <= g < 128 -> 0 <= s ->
  Z.lor (Z.shiftl g s) (Z.shiftl r (s + 7)) = Z.shiftl (g + 128 * r) s.
Proof.
  intros Hg Hs.
  replace (g + 128 * r) with (Z.lor (r * 2 ^ 7) g)
    by (rewrite lor_add by lia; lia).
  rewrite Z.shiftl_lor, Z.lor_comm. f_equal.
  rewrite <- Z.shiftl_mul_pow2 by lia. rewrite Z.shiftl_shiftl by lia.
  f_equal. lia.
Qed.

(** The loop takes bytes with the high bit set and the byte that ends
    them, a tenth byte when it is at most 1. *)
Lemma ReadUvarint_loop_accepts (init : list byte) :
  forall (todo : nat) (i x : Z) (last : byte) (more : list byte) (e : error),
    Forall more_follow init -> byte.unsigned last < 0x80 ->
    (List.length init < todo)%nat -> 0 <= i ->
    i + Z.of_nat (List.length init) <= 9 ->
    (i + Z.of_nat (List.length init) = 9 -> byte.unsigned last <= 1) ->
    ReadUvarint_loop todo i x (7 * i) (mkStream (init ++ last :: more) e) =
    ((Z.lor x (Z.shiftl (groupsValue init last) (7 * i)), None), mkStream more e).
Proof.
  induction init as [|b init IH]; intros todo i x last more e Hall Hlast Htodo Hi Hlen H9;
    (destruct todo as [|todo]; [cbn [List.length] in Htodo; lia|]);
    cbn [ReadUvarint_loop app]; rewrite ReadByte_cons; cbn [List.length] in *.
  - pose proof (byte.unsigned_range last) as Hr.
    replace (byte.unsigned last <? 128) with true by (symmetry; apply Z.ltb_lt; lia).
    replace ((i =? Z.of_nat MaxVarintLen64 - 1) && (1 <? byte.unsigned last)) with false.
    + cbn [groupsValue]. rewrite shl64_exact; [reflexivity | lia | lia |].
      destruct (Z.eq_dec i 9) as [->|Hne].
      * assert (byte.unsigned last <= 1) by (apply H9; lia).
        change (2 ^ (7 * 9)) with (2 ^ 63). lia.
      * assert (2 ^ (7 * i) <= 2 ^ 56) by (apply Z.pow_le_mono_r; lia).
        assert (0 < 2 ^ (7 * i)) by (apply Z.pow_pos_nonneg; lia).
        change (2 ^ 64) with (128 * 2 ^ 57). nia.
    + symmetry. apply andb_false_iff.
      destruct (Z.eq_dec i 9) as [->|Hne].
      * right. apply Z.ltb_ge. apply H9. lia.
      * left. apply Z.eqb_neq. unfold MaxVarintLen64. lia.
  - inversion Hall as [|? ? Hb Hall']; subst. unfold more_follow in Hb.
    replace (byte.unsigned b <? 128) with false by (symmetry; apply Z.ltb_ge; lia).
    replace (7 * i + 7) with (7 * (i + 1)) by lia.
    rewrite IH by (auto; lia).
    pose proof (land_127_range (byte.unsigned b)) as Hg.
    rewrite shl64_exact; [| lia | lia |].
    + rewrite <- Z.lor_assoc. cbn [groupsValue].
      replace (7 * (i + 1)) with (7 * i + 7) by lia.
      rewrite shiftl_group by lia. reflexivity.
    + assert (2 ^ (7 * i) <= 2 ^ 56) by (apply Z.pow_le_mono_r; lia).
      assert (0 < 2 ^ (7 * i)) by (apply Z.pow_pos_nonneg; lia).
      change (2 ^ 64) with (128 * 2 ^ 57). change 127 with 0x7f in Hg. nia.
Qed.

Lemma ReadUvarint_accepts (init : list byte) (last : byte) (more : list byte) (e : error) :
  Forall more_follow init -> byte.unsigned last < 0x80 ->
  (List.length init <= 9)%nat ->
  (List.length init = 9%nat -> byte.unsigned last <= 1) ->
  ReadUvarint (mkStream (init ++ last :: more) e) =
  ((groupsValue init last, None), mkStream more e).
Proof.
  intros Hall Hlast Hlen H9. unfold ReadUvarint.
  change 0 with (7 * 0) at 3.
  rewrite ReadUvarint_loop_accepts; try assumption.
  - rewrite Z.shiftl_0_r, Z.lor_0_l. reflexivity.
  - unfold MaxVarintLen64. lia.
  - lia.
  - lia.
  - intros H. apply H9. lia.
Qed.

(** The bytes of a stream begin with a byte that ends a varint, after
    fewer than [n] bytes with the high bit set, or with [n] such bytes,
    or they are fewer than [n], all with the high bit set. *)
Lemma varint_shape (n : nat) :
  forall bytes : list byte,
    (Forall more_follow bytes /\ (List.length bytes < n)%nat) \/
    (exists pre more : list byte,
        bytes = pre ++ more /\ List.length pre = n /\ Forall more_follow pre) \/
    (exists (init : list byte) (last : byte) (more : list byte),
        bytes = init ++ last :: more /\ Forall more_follow init /\
        byte.unsigned last < 0x80 /\ (List.length init < n)%nat).
Proof.
  induction n as [|n IH]; intros bytes.
  - right. left. exists [], bytes. auto.
  - destruct bytes as [|b bytes].
    + left. split; [constructor | cbn; lia].
    + destruct (Z.lt_ge_cases (byte.unsigned b) 0x80) as [Hlow|Hhigh].
      * right. right. exists [], b, bytes. cbn [app List.length].
        repeat split; [constructor | exact Hlow | lia].
      * destruct (IH bytes) as [[Hall Hlen]|[(pre & more & -> & Hlen & Hall)|
                                 (init & last & more & -> & Hall & Hlast & Hlen)]].
        -- left. split; [constructor; assumption | cbn [List.length]; lia].
        -- right. left. exists (b :: pre), more. cbn [app List.length].
           repeat split; [lia | constructor; assumption].
        -- right. right. exists (b :: init), last, more. cbn [app List.length].
           repeat split; [constructor; assumption | exact Hlast | lia].
Qed.

Lemma ReadUvarint_loop_groups64 (k : nat) :
  forall (todo : nat) (i x v : Z) (rst : list byte) (e : error),
    0 <= v < 2 ^ (7 * (Z.of_nat k + 1)) ->
    (k < todo)%nat -> 0 <= i -> i + Z.of_nat k <= 9 ->
    v * 2 ^ (7 * i) < 2 ^ 64 ->
    ReadUvarint_loop todo i x (7 * i) (mkStream (encodeGroups k v ++ rst) e) =
    ((Z.lor x (Z.shiftl v (7 * i)), None), mkStream rst e).
Proof.
  induction k as [|k IH]; intros todo i x v rst e Hv Htodo Hi Hik H64;
    (destruct todo as [|todo]; [lia|]);
    cbn [encodeGroups app ReadUvarint_loop]; rewrite ReadByte_cons.
  - change (2 ^ (7 * (Z.of_nat 0 + 1))) with 128 in Hv.
    destruct (group_facts v Hv) as (_ & _ & H3).
    rewrite unsigned_last, H3.
    replace (v <? 128) with true by (symmetry; apply Z.ltb_lt; lia).
    replace ((i =? Z.of_nat MaxVarintLen64 - 1) && (1 <? v)) with false.
    + rewrite shl64_exact by lia. reflexivity.
    + symmetry. apply andb_false_iff.
      destruct (Z.eq_dec i 9) as [->|Hne].
      * right. apply Z.ltb_ge. change (2 ^ (7 * 9)) with (2 ^ 63) in H64. lia.
      * left. apply Z.eqb_neq. unfold MaxVarintLen64. lia.
  - pose proof (land_127_range v) as Hm.
    destruct (group_facts _ Hm) as (_ & H2 & _).
    rewrite unsigned_more, H2.
    replace (Z.land v 127 + 128 <? 128) with false
      by (symmetry; apply Z.ltb_ge; lia).
    assert (Hp : 0 < 2 ^ (7 * i)) by (apply Z.pow_pos_nonneg; lia).
    assert (Hland : Z.land v 127 <= v).
    { change 127 with (Z.ones 7). rewrite Z.land_ones by lia.
      apply Z.mod_le; lia. }
    rewrite shl64_exact; [| lia | lia | nia].
    replace (7 * i + 7) with (7 * (i + 1)) by lia.
    rewrite IH; try lia.
    + rewrite <- Z.lor_assoc.
      replace (7 * (i + 1)) with (7 * i + 7) by lia.
      rewrite split_group by lia. reflexivity.
    + split; [apply Z.shiftr_nonneg; lia|].
      rewrite Z.shiftr_div_pow2 by lia.
      apply Z.div_lt_upper_bound; [lia|].
      rewrite <- Z.pow_add_r by lia.
      replace (7 + 7 * (Z.of_nat k + 1)) with (7 * (Z.of_nat (S k) + 1)) by lia.
      lia.
    + rewrite Z.shiftr_div_pow2 by lia.
      replace (7 * (i + 1)) with (7 + 7 * i) by lia.
      rewrite Z.pow_add_r by lia.
      pose proof (Z.mul_div_le v (2 ^ 7) ltac:(lia)). nia.
Qed.

(** What the varint of a value of 64 bits decodes to, in front of any
    bytes. *)
Lemma ReadUvarint_encodeVarint64 (v : Z) (rst : list byte) (e : error) :
  0 <= v < 2 ^ 64 ->
  ReadUvarint (mkStream (encodeVarint v ++ rst) e) = ((v, None), mkStream rst e).
Proof.
  intros Hv. unfold ReadUvarint, encodeVarint.
  pose proof (moreGroups_bound v 10 ltac:(lia) ltac:(lia)) as Hk.
  change 0 with (7 * 0) at 3.
  rewrite ReadUvarint_loop_groups64.
  - rewrite Z.shiftl_0_r, Z.lor_0_l. reflexivity.
  - split; [lia | apply moreGroups_covers; lia].
  - unfold MaxVarintLen64. lia.
  - lia.
  - lia.
  - change (2 ^ (7 * 0)) with 1. lia.
Qed.

(** C3, as the code has it.  [ReadUvarint], which reads the packet length,
    the packet ID and the payload length of the response, returns an
    error when the bytes end before a byte with the high bit clear (the
    error of the reader, or [io.ErrUnexpectedEOF] at the end of the bytes
    after at least one byte), and when the value would overflow 64 bits
    (ten bytes with the high bit set, or a tenth byte above 1).  In every
    other case, and in no other, it returns without an error the value of
    the groups it read and leaves the bytes after them: so for every
    value below 2^64, of 32 bits or more as well, written with the fewest
    groups or with more.  On the buffered connection it does what it does
    on the connection's bytes. *)
Theorem ReadUvarint_fails (s : ByteStream) :
  (Forall more_follow (rest s) -> (List.length (rest s) < 10)%nat ->
   snd (fst (ReadUvarint s)) =
   Some (if (0 <? List.length (rest s))%nat && is_EOF (at_end s)
         then ErrUnexpectedEOF else at_end s)) /\
  (forall bytes more : list byte,
      rest s = bytes ++ more -> List.length bytes = 10%nat ->
      Forall more_follow bytes ->
      snd (fst (ReadUvarint s)) = Some errOverflow) /\
  (forall (bytes more : list byte) (b : byte),
      rest s = bytes ++ b :: more -> List.length bytes = 9%nat ->
      Forall more_follow bytes -> 1 < byte.unsigned b < 0x80 ->
      snd (fst (ReadUvarint s)) = Some errOverflow) /\
  (forall (init : list byte) (last : byte) (more : list byte),
      rest s = init ++ last :: more -> Forall more_follow init ->
      byte.unsigned last < 0x80 -> (List.length init <= 9)%nat ->
      (List.length init = 9%nat -> byte.unsigned last <= 1) ->
      ReadUvarint s = ((groupsValue init last, None), mkStream more (at_end s))) /\
  (snd (fst (ReadUvarint s)) = None <->
   exists (init : list byte) (last : byte) (more : list byte),
     rest s = init ++ last :: more /\ Forall more_follow init /\
     byte.unsigned last < 0x80 /\ (List.length init <= 9)%nat /\
     (List.length init = 9%nat -> byte.unsigned last <= 1)) /\
  (forall (v : Z) (more : list byte),
      rest s = encodeVarint v ++ more -> 0 <= v < 2 ^ 64 ->
      fst (ReadUvarint s) = (v, None)) /\
  (forall c : Conn,
      s = mkStream (pending c) (final c) ->
      fst (ReadUvarint (NewReader c)) = fst (ReadUvarint s)).
Proof.
  destruct s as [bytes e]. cbn [rest at_end].
  split; [|split; [|split; [|split; [|split; [|split]]]]].
  - apply ReadUvarint_truncated.
  - intros bs more -> Hlen Hall. apply ReadUvarint_overlong; assumption.
  - intros bs more b -> Hlen Hall Hb. apply ReadUvarint_tenth; assumption.
  - intros init last more -> Hall Hlast Hlen H9. apply ReadUvarint_accepts; assumption.
  - split.
    + intros Hnone.
      destruct (varint_shape 10 bytes)
        as [[Hall Hlen]|[(pre & more & -> & Hlen & Hall)|
                         (init & last & more & -> & Hall & Hlast & Hlen)]].
      * rewrite ReadUvarint_truncated in Hnone by assumption. discriminate.
      * rewrite ReadUvarint_overlong in Hnone by assumption. discriminate.
      * exists init, last, more. repeat split; [exact Hall | exact Hlast | lia |].
        intros H9. destruct (Z.le_gt_cases (byte.unsigned last) 1) as [Hle|Hgt];
          [exact Hle|].
        rewrite ReadUvarint_tenth in Hnone by (auto; lia). discriminate.
    + intros (init & last & more & -> & Hall & Hlast & Hlen & H9).
      rewrite ReadUvarint_accepts by assumption. reflexivity.
  - intros v more -> Hv. rewrite ReadUvarint_encodeVarint64 by exact Hv. reflexivity.
  - intros c ->. apply ReadUvarint_NewReader.
Qed.

(** The claim as it is stated fails: five bytes that encode 2^32, a value
    that overflows 32 bits, are decoded without an error. *)
Lemma ReadUvarint_accepts_33_bits :
  ReadUvarint (mkStream [Byte.x80; Byte.x80; Byte.x80; Byte.x80; Byte.x10] EOF) =
    ((2 ^ 32, None), mkStream [] EOF).
Proof. vm_compute. reflexivity. Qed.

(** The bytes [0x80 0x80] end before the last group, at the end of the
    stream and on a timeout; the ten bytes of 2^64 - 1 are decoded. *)
Lemma ReadUvarint_fails_truncated :
  snd (fst (ReadUvarint (mkStream [Byte.x80; Byte.x80] EOF))) = Some ErrUnexpectedEOF /\
  snd (fst (ReadUvarint (mkStream [Byte.x80; Byte.x80] (ErrNet "i/o timeout")))) =
    Some (ErrNet "i/o timeout") /\
  fst (ReadUvarint
         (mkStream
            [Byte.xff; Byte.xff; Byte.xff; Byte.xff; Byte.xff; Byte.xff; Byte.xff; Byte.xff;
             Byte.xff; Byte.x01] EOF)) = (2 ^ 64 - 1, None).
Proof.
  split; [|split].
  - apply (proj1 (ReadUvarint_fails (mkStream [Byte.x80; Byte.x80] EOF))).
    + repeat constructor; vm_compute; discriminate.
    + cbn. lia.
  - apply (proj1 (ReadUvarint_fails (mkStream [Byte.x80; Byte.x80] (ErrNet "i/o timeout")))).
    + repeat constructor; vm_compute; discriminate.
    + cbn. lia.
  - apply (proj1 (proj2 (proj2 (proj2 (proj2 (proj2
             (ReadUvarint_fails
                (mkStream
                   [Byte.xff; Byte.xff; Byte.xff; Byte.xff; Byte.xff; Byte.xff; Byte.xff;
                    Byte.xff; Byte.xff; Byte.x01] EOF)))))))
             (2 ^ 64 - 1) []).
    + vm_compute. reflexivity.
    + lia.
Defined.

(** ** What Ping returns *)

Lemma Ping_readResponse_NewReader (c : Conn) :
  fst (Ping_readResponse (NewReader c)) =
  fst (readResponsePacket (mkStream (pending c) (final c))).
Proof.
  destruct (Ping_readResponse_view (NewReader c) (reader_wf_NewReader c)) as (H & _).
  rewrite view_NewReader in H.
  destruct (Ping_readResponse (NewReader c)) as [r b'].
  rewrite H. reflexivity.
Qed.

(** What [Ping] returns once the connection is there. *)
Lemma Ping_exchange_result (Unmarshal : list byte -> Response -> Response * option error)
    (c : Conn) (address : string) (port protocolVersion : Z) :
  fst (Ping_exchange Unmarshal c address port protocolVersion) =
  match deadline_result c with
  | Some e => Return (zeroResponse, Some e)
  | None =>
      match makeHandshakePacket address port protocolVersion with
      | None => Panic
      | Some _ =>
          after_read Unmarshal (fst (readResponsePacket (mkStream (pending c) (final c))))
      end
  end.
Proof.
  destruct (deadline_result c) as [e|] eqn:Hd.
  { unfold Ping_exchange, conn_SetDeadline. rewrite Hd. reflexivity. }
  destruct (makeHandshakePacket address port protocolVersion) as [hs|] eqn:Hh.
  - apply (Ping_exchange_reads Unmarshal c address port protocolVersion hs Hd Hh).
  - unfold Ping_exchange, conn_SetDeadline. rewrite Hd, Hh. reflexivity.
Qed.

Lemma shl64_nonneg (a s : Z) : 0 <= shl64 a s.
Proof. unfold shl64. apply Z.mod_pos_bound. lia. Qed.

Lemma ReadUvarint_loop_nonneg {R : Type} {BR : ByteReader R} (todo : nat) :
  forall (i x s : Z) (r : R),
    0 <= x -> 0 <= fst (fst (ReadUvarint_loop todo i x s r)).
Proof.
  induction todo as [|todo IH]; intros i x s r Hx; cbn [ReadUvarint_loop].
  - exact Hx.
  - destruct (ReadByte r) as [[b e] r'].
    destruct e as [e|]; [exact Hx|].
    destruct (byte.unsigned b <? 128).
    + destruct ((i =? Z.of_nat MaxVarintLen64 - 1) && (1 <? byte.unsigned b));
        cbn [fst]; [exact Hx|].
      apply Z.lor_nonneg. split; [exact Hx | apply shl64_nonneg].
    + apply IH. apply Z.lor_nonneg. split; [exact Hx | apply shl64_nonneg].
Qed.

Lemma ReadUvarint_nonneg (s : ByteStream) : 0 <= fst (fst (ReadUvarint s)).
Proof. apply ReadUvarint_loop_nonneg. lia. Qed.

(** ** The declared length of the payload *)

(** C5.  The response [0c 00 80 80 80 80 80 80 80 80 80 01] declares a
    payload of 2^63 bytes and ends there: the reads of [Ping] panic in
    [make([]byte, length)], and so does [Ping], where the claim has the
    call fail with an error because the stream ended before the declared
    length.  The response [04 00 05 7b], which declares 5 bytes and ends
    after one, gives that error: [io.ErrUnexpectedEOF] with the zero
    [Response]. *)
Theorem Ping_panics_on_huge_length :
  fst (Ping_readResponse
         (NewReader
            (scripted
               [Chunk Byte.x0c
                  [Byte.x00; Byte.x80; Byte.x80; Byte.x80; Byte.x80; Byte.x80;
                   Byte.x80; Byte.x80; Byte.x80; Byte.x80; Byte.x01]] EOF))) = Panic /\
  fst (Ping json.Unmarshal
         (fun _ =>
            inr (scripted
                   [Chunk Byte.x0c
                      [Byte.x00; Byte.x80; Byte.x80; Byte.x80; Byte.x80; Byte.x80;
                       Byte.x80; Byte.x80; Byte.x80; Byte.x80; Byte.x01]] EOF))
         "x" 25565 0) = Panic /\
  fst (Ping json.Unmarshal
         (fun _ => inr (scripted [Chunk Byte.x04 [Byte.x00; Byte.x05; Byte.x7b]] EOF))
         "x" 25565 0) = Return (zeroResponse, Some ErrUnexpectedEOF).
Proof. repeat split; vm_compute; reflexivity. Qed.

(** ** The packet ID *)

(** C6.  When the second varint of the response, the packet ID, is not 0,
    the reads of [Ping] stop there with the error "received invalid
    packetId" and no payload, and [Ping] returns the zero [Response] with
    that error; when it is 0, they go on to read the payload. *)
Theorem Ping_checks_packet_id
    (Unmarshal : list byte -> Response -> Response * option error)
    (c : Conn) (address : string) (port protocolVersion : Z) (handshake : list byte)
    (x1 packetId : Z) (s1 s2 : ByteStream) :
  deadline_result c = None ->
  makeHandshakePacket address port protocolVersion = Some handshake ->
  ReadUvarint (mkStream (pending c) (final c)) = ((x1, None), s1) ->
  ReadUvarint s1 = ((packetId, None), s2) ->
  (packetId <> 0 ->
   fst (Ping_readResponse (NewReader c)) = Return ([], Some (ErrPacketId packetId)) /\
   fst (Ping_exchange Unmarshal c address port protocolVersion) =
     Return (zeroResponse, Some (ErrPacketId packetId))) /\
  (packetId = 0 ->
   fst (Ping_readResponse (NewReader c)) = fst (readPayload s2) /\
   fst (Ping_exchange Unmarshal c address port protocolVersion) =
     after_read Unmarshal (fst (readPayload s2))).
Proof.
  intros Hd Hh H1 H2.
  rewrite Ping_exchange_result, Hd, Hh, Ping_readResponse_NewReader.
  unfold readResponsePacket. rewrite H1, H2.
  split; intros Hid.
  - replace (packetId =? 0) with false by (symmetry; apply Z.eqb_neq; exact Hid).
    cbn [negb fst after_read]. split; reflexivity.
  - subst packetId. cbn [Z.eqb negb]. split; reflexivity.
Qed.

(** Feeding [varint(2) | varint(5) | varint(0)], the bytes [02 05 00]:
    the packet ID 5 is refused. *)
Lemma Ping_refuses_packet_id_5 :
  fst (Ping_readResponse
         (NewReader (scripted [Chunk Byte.x02 [Byte.x05; Byte.x00]] EOF))) =
    Return ([], Some (ErrPacketId 5)) /\
  fst (Ping_exchange json.Unmarshal
         (scripted [Chunk Byte.x02 [Byte.x05; Byte.x00]] EOF) "x" 25565 0) =
    Return (zeroResponse, Some (ErrPacketId 5)).
Proof.
  refine (proj1 (Ping_checks_packet_id json.Unmarshal
            (scripted [Chunk Byte.x02 [Byte.x05; Byte.x00]] EOF) "x" 25565 0
            [Byte.x07; Byte.x00; Byte.x00; Byte.x01; Byte.x78; Byte.x63; Byte.xdd; Byte.x01]
            2 5 (mkStream [Byte.x05; Byte.x00] EOF) (mkStream [Byte.x00] EOF)
            eq_refl _ _ _) _).
  - vm_compute. reflexivity.
  - vm_compute. reflexivity.
  - vm_compute. reflexivity.
  - discriminate.
Defined.

(** ** The writes *)

(** C7.  What [Ping] returns does not depend on what the two writes
    return: the results of [conn.Write] are dropped. *)
Theorem Ping_drops_write_errors
    (Unmarshal : list byte -> Response -> Response * option error)
    (c : Conn) (address : string) (port protocolVersion : Z)
    (results : list (option error)) :
  fst (Ping_exchange Unmarshal (with_write_results c results) address port protocolVersion) =
  fst (Ping_exchange Unmarshal c address port protocolVersion).
Proof.
  rewrite !Ping_exchange_result. reflexivity.
Qed.

(** Both writes fail with "broken pipe", the response [04 00 02 7b 7d]
    arrives: [Ping] returns the decoded response and no error. *)
Lemma Ping_succeeds_after_failed_writes :
  Ping json.Unmarshal
    (fun _ =>
       inr (with_write_results
              (scripted [Chunk Byte.x04 [Byte.x00; Byte.x02; Byte.x7b; Byte.x7d]] EOF)
              [Some (ErrNet "write: broken pipe"); Some (ErrNet "write: broken pipe")]))
    "x" 25565 0 =
  (Return (zeroResponse, None),
   Some (mkConn [] EOF None []
           [[Byte.x07; Byte.x00; Byte.x00; Byte.x01; Byte.x78; Byte.x63; Byte.xdd; Byte.x01];
            [Byte.x01; Byte.x00]]
           true)).
Proof. vm_compute. reflexivity. Qed.

(** ** The outer packet length *)

(** C8.  Two responses that differ in their first varint only, the outer
    packet length, and leave the same bytes and the same end after it:
    the reads of [Ping] give the same payload or the same error, and
    [Ping] returns the same. *)
Theorem Ping_ignores_outer_length
    (Unmarshal : list byte -> Response -> Response * option error)
    (c c' : Conn) (address : string) (port protocolVersion : Z)
    (x x' : Z) (s : ByteStream) :
  deadline_result c = deadline_result c' ->
  ReadUvarint (mkStream (pending c) (final c)) = ((x, None), s) ->
  ReadUvarint (mkStream (pending c') (final c')) = ((x', None), s) ->
  fst (Ping_readResponse (NewReader c)) = fst (Ping_readResponse (NewReader c')) /\
  fst (Ping_exchange Unmarshal c address port protocolVersion) =
  fst (Ping_exchange Unmarshal c' address port protocolVersion).
Proof.
  intros Hd H1 H2.
  assert (Heq : fst (readResponsePacket (mkStream (pending c) (final c))) =
                fst (readResponsePacket (mkStream (pending c') (final c')))).
  { unfold readResponsePacket. rewrite H1, H2. reflexivity. }
  split.
  - rewrite !Ping_readResponse_NewReader. exact Heq.
  - rewrite !Ping_exchange_result, Hd, Heq. reflexivity.
Qed.

(** The outer lengths 4 and 1000 before the same packet ID, payload
    length and payload, in different segments. *)
Lemma Ping_ignores_outer_length_1000 :
  fst (Ping_readResponse
         (NewReader (scripted [Chunk Byte.x04 [Byte.x00; Byte.x02; Byte.x7b; Byte.x7d]] EOF))) =
  fst (Ping_readResponse
         (NewReader (scripted (bytewise [Byte.xe8; Byte.x07; Byte.x00; Byte.x02;
                                         Byte.x7b; Byte.x7d]) EOF))) /\
  fst (Ping_exchange json.Unmarshal
         (scripted [Chunk Byte.x04 [Byte.x00; Byte.x02; Byte.x7b; Byte.x7d]] EOF)
         "x" 25565 0) =
  fst (Ping_exchange json.Unmarshal
         (scripted (bytewise [Byte.xe8; Byte.x07; Byte.x00; Byte.x02; Byte.x7b; Byte.x7d])
                   EOF)
         "x" 25565 0).
Proof.
  refine (Ping_ignores_outer_length json.Unmarshal
            (scripted [Chunk Byte.x04 [Byte.x00; Byte.x02; Byte.x7b; Byte.x7d]] EOF)
            (scripted (bytewise [Byte.xe8; Byte.x07; Byte.x00; Byte.x02; Byte.x7b; Byte.x7d])
                      EOF)
            "x" 25565 0 4 1000
            (mkStream [Byte.x00; Byte.x02; Byte.x7b; Byte.x7d] EOF) eq_refl _ _).
  - vm_compute. reflexivity.
  - vm_compute. reflexivity.
Defined.

(** ** Unmarshal succeeds on the right shape *)

Lemma saveError_None (saved e : option error) :
  json.saveError saved e = None <-> saved = None /\ e = None.
Proof.
  destruct saved, e; cbn [json.saveError]; intuition congruence.
Qed.

Lemma store_string_ok (cur : string) (v : json.value) :
  snd (json.store_string cur v) = None <-> shape_string v = true.
Proof. destruct v; cbn; split; intros H; try discriminate; auto. Qed.

Lemma store_int_ok (cur : Z) (v : json.value) :
  snd (json.store_int cur v) = None <-> shape_int v = true.
Proof.
  destruct v; cbn; try (split; intros H; try discriminate; auto; fail).
  destruct (json.ParseInt lit); cbn; split; intros H; try discriminate; auto.
Qed.

Section Struct.

Context {S F : Type}.
Variable fields : list (string * F).
Variable store : F -> json.member -> S -> S * option error.

Lemma store_members_ok (shape : F -> json.value -> bool) :
  (forall f m cur, snd (store f m cur) = None <-> shape f (json.member_value m) = true) ->
  forall (ms : list json.member) (cur : S) (saved : option error),
    snd (json.store_members fields store ms cur saved) = None <->
    saved = None /\
    forallb (fun m => match json.field_of fields (member_key m) with
                      | Some f => shape f (json.member_value m)
                      | None => true
                      end) ms = true.
Proof.
  intros Hs ms. induction ms as [|m ms IH]; intros cur saved;
    cbn [json.store_members forallb].
  - cbn [snd]. tauto.
  - fold (member_key m).
    destruct (json.field_of fields (member_key m)) as [f|].
    + specialize (Hs f m cur).
      destruct (store f m cur) as [cur' e]. cbn [snd] in Hs.
      rewrite IH, saveError_None, andb_true_iff. tauto.
    + rewrite IH. cbn [andb]. tauto.
Qed.

Lemma store_struct_ok (shape : F -> json.value -> bool) :
  (forall f m cur, snd (store f m cur) = None <-> shape f (json.member_value m) = true) ->
  forall (cur : S) (v : json.value),
    snd (json.store_struct fields store cur v) = None <-> shape_struct fields shape v = true.
Proof.
  intros Hs cur v.
  destruct v; cbn [json.store_struct shape_struct snd];
    try (split; intros H; try discriminate; auto; fail).
  rewrite (store_members_ok shape Hs). tauto.
Qed.

(** A member leaves alone what [proj] reads when [keeps] holds of it. *)
Lemma store_members_keeps {A : Type} (proj : S -> A) (keeps : F -> json.member -> Prop) :
  (forall f m cur, keeps f m -> proj (fst (store f m cur)) = proj cur) ->
  forall (ms : list json.member) (cur : S) (saved : option error),
    (forall m, In m ms ->
               forall f, json.field_of fields (member_key m) = Some f -> keeps f m) ->
    proj (fst (json.store_members fields store ms cur saved)) = proj cur.
Proof.
  intros Hk ms. induction ms as [|m ms IH]; intros cur saved Hms;
    cbn [json.store_members].
  - reflexivity.
  - fold (member_key m).
    destruct (json.field_of fields (member_key m)) as [f|] eqn:Hf.
    + specialize (Hk f m cur (Hms m (or_introl eq_refl) f Hf)).
      destruct (store f m cur) as [cur' e]. cbn [fst] in Hk.
      rewrite IH by (intros m' Hin; apply Hms; right; exact Hin).
      exact Hk.
    + apply IH. intros m' Hin. apply Hms. right. exact Hin.
Qed.

Lemma store_struct_keeps {A : Type} (proj : S -> A) (keeps : F -> json.member -> Prop) :
  (forall f m cur, keeps f m -> proj (fst (store f m cur)) = proj cur) ->
  forall (cur : S) (v : json.value),
    match v with
    | json.JObject ms =>
        forall m, In m ms ->
                  forall f, json.field_of fields (member_key m) = Some f -> keeps f m
    | _ => True
    end ->
    proj (fst (json.store_struct fields store cur v)) = proj cur.
Proof.
  intros Hk cur v Hv.
  destruct v; cbn [json.store_struct fst]; try reflexivity.
  apply (store_members_keeps proj keeps Hk). exact Hv.
Qed.

End Struct.

(** A field of a struct: what storing into it returns is what the store
    of its type returns. *)
Ltac field_ok :=
  match goal with
  | |- context [json.store_string ?c ?v] =>
      pose proof (store_string_ok c v); destruct (json.store_string c v)
  | |- context [json.store_int ?c ?v] =>
      pose proof (store_int_ok c v); destruct (json.store_int c v)
  end; cbn [snd] in *; assumption.

Lemma store_SampleEntry_ok (cur : SampleEntry) (v : json.value) :
  snd (json.store_SampleEntry cur v) = None <-> shape_SampleEntry v = true.
Proof.
  apply store_struct_ok. intros f m cur'. destruct f; field_ok.
Qed.

Lemma store_elems_ok (vs : list json.value) :
  forall (backing : list SampleEntry) (saved : option error),
    snd (json.store_elems vs backing saved) = None <->
    saved = None /\ forallb shape_SampleEntry vs = true.
Proof.
  induction vs as [|v vs IH]; intros backing saved; cbn [json.store_elems forallb].
  - cbn [snd]. tauto.
  - pose proof (store_SampleEntry_ok (hd json.zeroSample backing) v) as Hv.
    destruct (json.store_SampleEntry (hd json.zeroSample backing) v) as [x e].
    specialize (IH (tl backing) (json.saveError saved e)).
    destruct (json.store_elems vs (tl backing) (json.saveError saved e)) as [xs saved'].
    cbn [snd] in *. rewrite IH, saveError_None, andb_true_iff. tauto.
Qed.

Lemma store_Sample_ok (cur : slice SampleEntry) (v : json.value) :
  snd (json.store_Sample cur v) = None <-> shape_Sample v = true.
Proof.
  destruct v as [| | | |vs|]; cbn [json.store_Sample shape_Sample snd];
    try (split; intros H; try discriminate; auto; fail).
  destruct vs as [|v vs]; [cbn; tauto|].
  pose proof (store_elems_ok (v :: vs) (elems cur ++ spare cur) None) as H.
  destruct (json.store_elems (v :: vs) (elems cur ++ spare cur) None) as [xs e].
  cbn [snd] in *. rewrite H. tauto.
Qed.

Lemma store_Version_ok (cur : VersionInfo) (v : json.value) :
  snd (json.store_Version cur v) = None <-> shape_Version v = true.
Proof.
  apply store_struct_ok. intros f m cur'. destruct f; field_ok.
Qed.

Lemma store_Players_ok (cur : PlayersInfo) (v : json.value) :
  snd (json.store_Players cur v) = None <-> shape_Players v = true.
Proof.
  apply store_struct_ok. intros f m cur'. destruct f; try field_ok.
  pose proof (store_Sample_ok (Players_Sample cur') (json.member_value m)).
  destruct (json.store_Sample (Players_Sample cur') (json.member_value m)).
  cbn [snd] in *. assumption.
Qed.

Lemma store_Response_ok (cur : Response) (v : json.value) :
  snd (json.store_Response cur v) = None <-> shape_Response v = true.
Proof.
  apply store_struct_ok. intros f m cur'. destruct f; try field_ok.
  - pose proof (store_Version_ok (Version cur') (json.member_value m)).
    destruct (json.store_Version (Version cur') (json.member_value m)).
    cbn [snd] in *. assumption.
  - pose proof (store_Players_ok (Players cur') (json.member_value m)).
    destruct (json.store_Players (Players cur') (json.member_value m)).
    cbn [snd] in *. assumption.
  - cbn [snd]. tauto.
Qed.

(** ** A field that is left out keeps its value *)

(** Storing into another field of the struct. *)
Ltac other_field :=
  repeat match goal with
         | |- context [json.store_string ?c ?v] => destruct (json.store_string c v)
         | |- context [json.store_int ?c ?v] => destruct (json.store_int c v)
         | |- context [json.store_Sample ?c ?v] => destruct (json.store_Sample c v)
         | |- context [json.store_Version ?c ?v] => destruct (json.store_Version c v)
         | |- context [json.store_Players ?c ?v] => destruct (json.store_Players c v)
         end; reflexivity.

Ltac omitted H :=
  match type of H with
  | omits _ _ ?v => destruct v; try exact I; intros m Hin f Hf; specialize (H m Hin); congruence
  end.

Lemma store_Version_keeps_Name (cur : VersionInfo) (v : json.value) :
  omits json.VersionFields json.Version_name v ->
  Version_Name (fst (json.store_Version cur v)) = Version_Name cur.
Proof.
  intros H.
  apply (store_struct_keeps json.VersionFields _ Version_Name
           (fun f _ => f <> json.Version_name)).
  - intros f m cur' Hf. destruct f; [congruence | other_field].
  - omitted H.
Qed.

Lemma store_Version_keeps_Protocol (cur : VersionInfo) (v : json.value) :
  omits json.VersionFields json.Version_protocol v ->
  Version_Protocol (fst (json.store_Version cur v)) = Version_Protocol cur.
Proof.
  intros H.
  apply (store_struct_keeps json.VersionFields _ Version_Protocol
           (fun f _ => f <> json.Version_protocol)).
  - intros f m cur' Hf. destruct f; [other_field | congruence].
  - omitted H.
Qed.

Lemma store_Players_keeps_Max (cur : PlayersInfo) (v : json.value) :
  omits json.PlayersFields json.Players_max v ->
  Players_Max (fst (json.store_Players cur v)) = Players_Max cur.
Proof.
  intros H.
  apply (store_struct_keeps json.PlayersFields _ Players_Max
           (fun f _ => f <> json.Players_max)).
  - intros f m cur' Hf. destruct f; [congruence | other_field | other_field].
  - omitted H.
Qed.

Lemma store_Players_keeps_Online (cur : PlayersInfo) (v : json.value) :
  omits json.PlayersFields json.Players_online v ->
  Players_Online (fst (json.store_Players cur v)) = Players_Online cur.
Proof.
  intros H.
  apply (store_struct_keeps json.PlayersFields _ Players_Online
           (fun f _ => f <> json.Players_online)).
  - intros f m cur' Hf. destruct f; [other_field | congruence | other_field].
  - omitted H.
Qed.

Lemma store_Players_keeps_Sample (cur : PlayersInfo) (v : json.value) :
  omits json.PlayersFields json.Players_sample v ->
  Players_Sample (fst (json.store_Players cur v)) = Players_Sample cur.
Proof.
  intros H.
  apply (store_struct_keeps json.PlayersFields _ Players_Sample
           (fun f _ => f <> json.Players_sample)).
  - intros f m cur' Hf. destruct f; [other_field | other_field | congruence].
  - omitted H.
Qed.

Lemma store_Response_keeps_Description (cur : Response) (v : json.value) :
  omits json.ResponseFields json.Response_description v ->
  Description (fst (json.store_Response cur v)) = Description cur.
Proof.
  intros H.
  apply (store_struct_keeps json.ResponseFields _ Description
           (fun f _ => f <> json.Response_description)).
  - intros f m cur' Hf. destruct f; [other_field | other_field | congruence | other_field].
  - omitted H.
Qed.

Lemma store_Response_keeps_Favicon (cur : Response) (v : json.value) :
  omits json.ResponseFields json.Response_favicon v ->
  Favicon (fst (json.store_Response cur v)) = Favicon cur.
Proof.
  intros H.
  apply (store_struct_keeps json.ResponseFields _ Favicon
           (fun f _ => f <> json.Response_favicon)).
  - intros f m cur' Hf. destruct f; [other_field | other_field | other_field | congruence].
  - omitted H.
Qed.

(** A field of [Version] keeps its value when every [version] of the
    payload leaves it out. *)
Lemma store_Response_keeps_Version {A : Type} (proj : VersionInfo -> A)
    (inner : json.value -> Prop) (cur : Response) (v : json.value) :
  (forall x w, inner w -> proj (fst (json.store_Version x w)) = proj x) ->
  omits_in json.ResponseFields json.Response_version inner v ->
  proj (Version (fst (json.store_Response cur v))) = proj (Version cur).
Proof.
  intros Hin H.
  apply (store_struct_keeps json.ResponseFields _ (fun r => proj (Version r))
           (fun f m => f = json.Response_version -> inner (json.member_value m))).
  - intros f m cur' Hf. destruct f; try other_field.
    specialize (Hin (Version cur') (json.member_value m) (Hf eq_refl)).
    destruct (json.store_Version (Version cur') (json.member_value m)).
    exact Hin.
  - destruct v; try exact I. intros m Hm f Hf ->. exact (H m Hm Hf).
Qed.

Lemma store_Response_keeps_Players {A : Type} (proj : PlayersInfo -> A)
    (inner : json.value -> Prop) (cur : Response) (v : json.value) :
  (forall x w, inner w -> proj (fst (json.store_Players x w)) = proj x) ->
  omits_in json.ResponseFields json.Response_players inner v ->
  proj (Players (fst (json.store_Response cur v))) = proj (Players cur).
Proof.
  intros Hin H.
  apply (store_struct_keeps json.ResponseFields _ (fun r => proj (Players r))
           (fun f m => f = json.Response_players -> inner (json.member_value m))).
  - intros f m cur' Hf. destruct f; try other_field.
    specialize (Hin (Players cur') (json.member_value m) (Hf eq_refl)).
    destruct (json.store_Players (Players cur') (json.member_value m)).
    exact Hin.
  - destruct v; try exact I. intros m Hm f Hf ->. exact (H m Hm Hf).
Qed.

(** ** Fields the payload leaves out *)

(** C10.  When [Ping] has read the payload, what it returns is what
    [json.Unmarshal] makes of it from the zero [Response].  A payload
    that is not JSON gives a syntax error.  A payload that is JSON is
    unmarshalled without an error exactly when it has the shape of a
    [Response], where every field may be left out; and a field that the
    payload leaves out has its zero value in the [Response] returned: the
    empty string, 0, the [nil] sample, no description. *)
Theorem Ping_unmarshals_missing_fields
    (c : Conn) (address : string) (port protocolVersion : Z)
    (handshake payload : list byte) :
  deadline_result c = None ->
  makeHandshakePacket address port protocolVersion = Some handshake ->
  fst (Ping_readResponse (NewReader c)) = Return (payload, None) ->
  fst (Ping_exchange json.Unmarshal c address port protocolVersion) =
    Return (json.Unmarshal payload zeroResponse) /\
  match json.parse payload with
  | None => json.Unmarshal payload zeroResponse = (zeroResponse, Some SyntaxError)
  | Some v =>
      (snd (json.Unmarshal payload zeroResponse) = None <-> shape_Response v = true) /\
      (omits_in json.ResponseFields json.Response_version
         (omits json.VersionFields json.Version_name) v ->
       Version_Name (Version (fst (json.Unmarshal payload zeroResponse))) = ""%string) /\
      (omits_in json.ResponseFields json.Response_version
         (omits json.VersionFields json.Version_protocol) v ->
       Version_Protocol (Version (fst (json.Unmarshal payload zeroResponse))) = 0) /\
      (omits_in json.ResponseFields json.Response_players
         (omits json.PlayersFields json.Players_max) v ->
       Players_Max (Players (fst (json.Unmarshal payload zeroResponse))) = 0) /\
      (omits_in json.ResponseFields json.Response_players
         (omits json.PlayersFields json.Players_online) v ->
       Players_Online (Players (fst (json.Unmarshal payload zeroResponse))) = 0) /\
      (omits_in json.ResponseFields json.Response_players
         (omits json.PlayersFields json.Players_sample) v ->
       Players_Sample (Players (fst (json.Unmarshal payload zeroResponse))) = nilSlice) /\
      (omits json.ResponseFields json.Response_description v ->
       Description (fst (json.Unmarshal payload zeroResponse)) = []) /\
      (omits json.ResponseFields json.Response_favicon v ->
       Favicon (fst (json.Unmarshal payload zeroResponse)) = ""%string)
  end.
Proof.
  intros Hd Hh Hr. split.
  - rewrite Ping_exchange_result, Hd, Hh, <- Ping_readResponse_NewReader, Hr.
    reflexivity.
  - unfold json.Unmarshal. destruct (json.parse payload) as [v|]; [|reflexivity].
    split; [apply store_Response_ok|].
    split; [intros H; apply (store_Response_keeps_Version Version_Name _ zeroResponse v
                               store_Version_keeps_Name H)|].
    split; [intros H; apply (store_Response_keeps_Version Version_Protocol _ zeroResponse v
                               store_Version_keeps_Protocol H)|].
    split; [intros H; apply (store_Response_keeps_Players Players_Max _ zeroResponse v
                               store_Players_keeps_Max H)|].
    split; [intros H; apply (store_Response_keeps_Players Players_Online _ zeroResponse v
                               store_Players_keeps_Online H)|].
    split; [intros H; apply (store_Response_keeps_Players Players_Sample _ zeroResponse v
                               store_Players_keeps_Sample H)|].
    split; [apply store_Response_keeps_Description | apply store_Response_keeps_Favicon].
Qed.

(** The payload [{}], in the response [04 00 02 7b 7d]: [Ping] returns the
    zero [Response] and no error. *)
Lemma Ping_unmarshals_empty_object :
  fst (Ping_exchange json.Unmarshal
         (scripted [Chunk Byte.x04 [Byte.x00; Byte.x02; Byte.x7b; Byte.x7d]] EOF)
         "x" 25565 0) =
    Return (zeroResponse, None).
Proof.
  refine (proj1 (Ping_unmarshals_missing_fields
            (scripted [Chunk Byte.x04 [Byte.x00; Byte.x02; Byte.x7b; Byte.x7d]] EOF)
            "x" 25565 0
            [Byte.x07; Byte.x00; Byte.x00; Byte.x01; Byte.x78; Byte.x63; Byte.xdd; Byte.x01]
            [Byte.x7b; Byte.x7d] eq_refl _ _)).
  - vm_compute. reflexivity.
  - vm_compute. reflexivity.
Defined.

(** The claim as it is stated fails for a payload that is JSON and no
    object: the payload [[]], in the response [04 00 02 5b 5d], is valid
    JSON with no field in it, and [Ping] returns the error of
    [json.Unmarshal], "cannot unmarshal array". *)
Lemma Ping_fails_on_array_payload :
  json.parse [Byte.x5b; Byte.x5d] = Some (json.JArray []) /\
  fst (Ping_exchange json.Unmarshal
         (scripted [Chunk Byte.x04 [Byte.x00; Byte.x02; Byte.x5b; Byte.x5d]] EOF)
         "x" 25565 0) =
    Return (zeroResponse, Some (UnmarshalTypeError "array")).
Proof. split; vm_compute; reflexivity. Qed.

(** ** When putVarInt panics *)

Lemma putVarInt_some_nonneg (buf out : list byte) (value : Z) :
  - 2 ^ 31 <= value < 2 ^ 31 -> putVarInt buf value = Some out -> 0 <= value.
Proof.
  intros Hv H. destruct (Z.lt_ge_cases value 0) as [Hneg|Hpos]; [|exact Hpos].
  rewrite putVarInt_negative in H by lia. discriminate.
Qed.

(** X1.  For a value of type [int32], [putVarInt] panics exactly when
    the value is negative: [uint64(value)] is then at least 2^63, and
    [PutUvarint] writes past the five bytes of the buffer. *)
Theorem putVarInt_panics_iff (buf : list byte) (value : Z) :
  - 2 ^ 31 <= value < 2 ^ 31 ->
  (putVarInt buf value = None <-> value < 0).
Proof.
  intros Hv. split.
  - intros H. destruct (Z.lt_ge_cases value 0) as [Hneg|Hpos]; [exact Hneg|].
    rewrite putVarInt_fits in H by lia. discriminate.
  - intros Hneg. apply putVarInt_negative. lia.
Qed.

(** The least [int32], written after one byte. *)
Lemma putVarInt_panics_iff_min :
  putVarInt [Byte.x00] (- 2 ^ 31) = None <-> - 2 ^ 31 < 0.
Proof. apply (putVarInt_panics_iff [Byte.x00] (- 2 ^ 31)). lia. Defined.

(** ** The bytes of a varint *)

Lemma encodeGroups_split (k : nat) :
  forall v : Z,
    exists init : list byte,
      encodeGroups k v = init ++ [byte.of_Z (Z.land (Z.shiftr v (7 * Z.of_nat k)) 0x7F)] /\
      Forall more_follow init /\ List.length init = k.
Proof.
  induction k as [|k IH]; intros v.
  - exists []. cbn [encodeGroups app]. rewrite Z.shiftr_0_r. auto.
  - destruct (IH (Z.shiftr v 7)) as (init & He & Hf & Hl).
    exists (byte.of_Z (Z.lor (Z.land v 0x7F) 0x80) :: init).
    cbn [encodeGroups app List.length]. rewrite He.
    rewrite Z.shiftr_shiftr by lia.
    replace (7 + 7 * Z.of_nat k) with (7 * Z.of_nat (S k)) by lia.
    split; [reflexivity|]. split; [|congruence].
    constructor; [|exact Hf].
    unfold more_follow. rewrite unsigned_more.
    pose proof (land_127_range v). lia.
Qed.

(** X2.  For a non-negative [int32], [putVarInt] appends to the buffer,
    leaving what it holds, at most five bytes that delimit themselves:
    every byte but the last has the high bit set, the last has it clear,
    and the last is not zero unless the value is 0. *)
Theorem putVarInt_self_delimiting (buf : list byte) (value : Z) :
  0 <= value < 2 ^ 31 ->
  exists (init : list byte) (last : byte),
    putVarInt buf value = Some (buf ++ init ++ [last]) /\
    Forall more_follow init /\ (List.length init <= 4)%nat /\
    byte.unsigned last < 0x80 /\
    (value <> 0 -> 0 < byte.unsigned last).
Proof.
  intros Hv.
  destruct (encodeGroups_split (moreGroups value) value) as (init & He & Hf & Hl).
  exists init, (byte.of_Z (Z.land (Z.shiftr value (7 * Z.of_nat (moreGroups value))) 0x7F)).
  rewrite putVarInt_fits by lia. unfold encodeVarint. rewrite He.
  split; [reflexivity|]. split; [exact Hf|].
  pose proof (moreGroups_bound value 5 ltac:(lia) ltac:(lia)) as Hk.
  split; [lia|].
  rewrite unsigned_last.
  pose proof (land_127_range (Z.shiftr value (7 * Z.of_nat (moreGroups value)))) as Hr.
  split; [lia|].
  intros Hne.
  pose proof (moreGroups_covers value ltac:(lia)) as Hc.
  set (k := Z.of_nat (moreGroups value)) in *.
  assert (Hk0 : 0 <= k) by lia.
  assert (Hq : 0 < Z.shiftr value (7 * k) < 128).
  { rewrite Z.shiftr_div_pow2 by lia. split.
    - destruct (Nat.eq_dec (moreGroups value) 0) as [H0|H0].
      + subst k. rewrite H0. cbn. rewrite Z.div_1_r. lia.
      + pose proof (moreGroups_least value ltac:(lia) ltac:(lia)) as Hle.
        fold k in Hle. apply Z.div_str_pos. lia.
    - apply Z.div_lt_upper_bound; [lia|].
      change 128 with (2 ^ 7). rewrite <- Z.pow_add_r by lia.
      replace (7 * k + 7) with (7 * (k + 1)) by lia. exact Hc. }
  assert (Hq' : 0 <= Z.shiftr value (7 * k) < 128) by lia.
  destruct (group_facts _ Hq') as (_ & _ & H3). lia.
Qed.

(** The value 300, written after one byte: [ac 02]. *)
Lemma putVarInt_self_delimiting_300 :
  exists (init : list byte) (last : byte),
    putVarInt [Byte.x00] 300 = Some ([Byte.x00] ++ init ++ [last]) /\
    Forall more_follow init /\ (List.length init <= 4)%nat /\
    byte.unsigned last < 0x80 /\
    (300 <> 0 -> 0 < byte.unsigned last).
Proof. apply (putVarInt_self_delimiting [Byte.x00] 300). lia. Defined.

(** X3.  The encodings of [putVarInt] are prefix-free: when the bytes
    written for two values are each followed by any bytes and the two
    sequences are equal, the values are equal, and so are the bytes that
    follow. *)
Theorem putVarInt_prefix_free (v1 v2 : Z) (enc1 enc2 rst1 rst2 : list byte) :
  - 2 ^ 31 <= v1 < 2 ^ 31 -> - 2 ^ 31 <= v2 < 2 ^ 31 ->
  putVarInt [] v1 = Some enc1 -> putVarInt [] v2 = Some enc2 ->
  enc1 ++ rst1 = enc2 ++ rst2 ->
  v1 = v2 /\ enc1 = enc2 /\ rst1 = rst2.
Proof.
  intros H1 H2 He1 He2 Heq.
  pose proof (putVarInt_some_nonneg _ _ _ H1 He1) as Hp1.
  pose proof (putVarInt_some_nonneg _ _ _ H2 He2) as Hp2.
  rewrite putVarInt_fits in He1, He2 by lia. cbn [app] in He1, He2.
  injection He1 as <-. injection He2 as <-.
  pose proof (ReadUvarint_encodeVarint v1 rst1 EOF ltac:(lia)) as R1.
  pose proof (ReadUvarint_encodeVarint v2 rst2 EOF ltac:(lia)) as R2.
  rewrite Heq in R1. rewrite R1 in R2.
  injection R2 as -> ->. auto.
Qed.

(** The bytes [ac 02 7b] are read in one way only. *)
Lemma putVarInt_prefix_free_300 :
  300 = 300 /\ [Byte.xac; Byte.x02] = [Byte.xac; Byte.x02] /\ [Byte.x7b] = [Byte.x7b].
Proof.
  apply (putVarInt_prefix_free 300 300 [Byte.xac; Byte.x02] [Byte.xac; Byte.x02]
           [Byte.x7b] [Byte.x7b]); try lia; reflexivity.
Defined.

(** ** When makeHandshakePacket panics *)

Lemma to_int32_range (x : Z) : - 2 ^ 31 <= to_int32 x < 2 ^ 31.
Proof.
  unfold to_int32. pose proof (Z.mod_pos_bound (x + 2 ^ 31) (2 ^ 32) ltac:(lia)). lia.
Qed.

(** The packet for a protocol version that is not negative as an
    [int32]. *)
Lemma makeHandshakePacket_some (address : string) (port protocolVersion : Z) :
  0 <= to_int32 protocolVersion -> len address + 14 < 2 ^ 31 ->
  makeHandshakePacket address port protocolVersion =
    Some (encodeVarint
            (Z.of_nat (List.length (handshakeBody address port (to_int32 protocolVersion))))
          ++ handshakeBody address port (to_int32 protocolVersion)).
Proof.
  intros Hpv Hlen.
  pose proof (to_int32_range protocolVersion) as Hr.
  assert (Hlen0 : 0 <= len address) by (unfold len; lia).
  pose proof (length_handshakeBody address port (to_int32 protocolVersion)
                ltac:(lia) ltac:(lia)) as Hbody.
  set (body := handshakeBody address port (to_int32 protocolVersion)) in *.
  unfold makeHandshakePacket.
  rewrite (to_int32_small (len address)) by lia.
  cbn [app].
  rewrite (putVarInt_fits _ (to_int32 protocolVersion)) by lia.
  rewrite (putVarInt_fits _ (len address)) by lia.
  rewrite (putVarInt_fits _ 1) by lia.
  rewrite BigEndian_PutUint16_bytes.
  match goal with
  | |- context [putVarInt [] (to_int32 (Z.of_nat (List.length ?b)))] =>
      replace b with body
        by (unfold body, handshakeBody; cbn [app]; rewrite <- !app_assoc; reflexivity)
  end.
  rewrite to_int32_small by lia.
  rewrite putVarInt_fits by lia.
  reflexivity.
Qed.

Lemma makeHandshakePacket_negative (address : string) (port protocolVersion : Z) :
  to_int32 protocolVersion < 0 ->
  makeHandshakePacket address port protocolVersion = None.
Proof.
  intros Hneg. pose proof (to_int32_range protocolVersion) as Hr.
  unfold makeHandshakePacket. cbn [app].
  rewrite putVarInt_negative by lia. reflexivity.
Qed.

(** X4.  For an address of less than 2^31 - 14 bytes,
    [makeHandshakePacket] panics exactly when [int32(protocolVersion)] is
    negative, whatever the port; so it panics for the protocol version
    2^31, which is positive as an [int]. *)
Theorem makeHandshakePacket_panics_iff (address : string) (port protocolVersion : Z) :
  len address + 14 < 2 ^ 31 ->
  (makeHandshakePacket address port protocolVersion = None <->
   to_int32 protocolVersion < 0).
Proof.
  intros Hlen. split.
  - intros H. destruct (Z.lt_ge_cases (to_int32 protocolVersion) 0) as [Hneg|Hpos];
      [exact Hneg|].
    rewrite makeHandshakePacket_some in H by assumption. discriminate.
  - apply makeHandshakePacket_negative.
Qed.

(** The protocol version 2^31, which is -2^31 as an [int32]. *)
Lemma makeHandshakePacket_panics_iff_2_31 :
  makeHandshakePacket "x" 25565 (2 ^ 31) = None <-> to_int32 (2 ^ 31) < 0.
Proof. apply (makeHandshakePacket_panics_iff "x" 25565 (2 ^ 31)). cbn. lia. Defined.

(** ** The handshake determines its arguments *)

Lemma list_byte_of_string_inj (s t : string) :
  list_byte_of_string s = list_byte_of_string t -> s = t.
Proof.
  intros H. rewrite <- (string_of_list_byte_of_string s), H.
  apply string_of_list_byte_of_string.
Qed.

Lemma byte_of_Z_inj (x y : Z) :
  0 <= x < 256 -> 0 <= y < 256 -> byte.of_Z x = byte.of_Z y -> x = y.
Proof.
  intros Hx Hy H.
  rewrite <- (unsigned_of_Z_small x Hx), <- (unsigned_of_Z_small y Hy), H. reflexivity.
Qed.

Lemma app_same_length {A : Type} (l1 l2 r1 r2 : list A) :
  List.length l1 = List.length l2 -> l1 ++ r1 = l2 ++ r2 -> l1 = l2 /\ r1 = r2.
Proof.
  revert l2. induction l1 as [|x l1 IH]; intros [|y l2] Hl H; try discriminate.
  - auto.
  - injection Hl as Hl. injection H as -> H.
    destruct (IH l2 Hl H) as [-> ->]. auto.
Qed.

(** X5.  The handshake packet determines the arguments it was made
    from: two calls that return the same packet were given the same
    address, the same port and the same protocol version. *)
Theorem makeHandshakePacket_injective
    (address1 address2 : string) (port1 port2 version1 version2 : Z) (packet : list byte) :
  0 <= port1 < 2 ^ 16 -> 0 <= port2 < 2 ^ 16 ->
  - 2 ^ 31 <= version1 < 2 ^ 31 -> - 2 ^ 31 <= version2 < 2 ^ 31 ->
  len address1 + 14 < 2 ^ 31 -> len address2 + 14 < 2 ^ 31 ->
  makeHandshakePacket address1 port1 version1 = Some packet ->
  makeHandshakePacket address2 port2 version2 = Some packet ->
  address1 = address2 /\ port1 = port2 /\ version1 = version2.
Proof.
  intros Hp1 Hp2 Hv1 Hv2 Hl1 Hl2 H1 H2.
  assert (Hn1 : 0 <= to_int32 version1).
  { destruct (Z.lt_ge_cases (to_int32 version1) 0) as [Hneg|Hpos]; [|exact Hpos].
    rewrite makeHandshakePacket_negative in H1 by assumption. discriminate. }
  assert (Hn2 : 0 <= to_int32 version2).
  { destruct (Z.lt_ge_cases (to_int32 version2) 0) as [Hneg|Hpos]; [|exact Hpos].
    rewrite makeHandshakePacket_negative in H2 by assumption. discriminate. }
  rewrite makeHandshakePacket_some in H1, H2 by assumption.
  rewrite to_int32_small in * by assumption.
  assert (Hlen1 : 0 <= len address1) by (unfold len; lia).
  assert (Hlen2 : 0 <= len address2) by (unfold len; lia).
  pose proof (length_handshakeBody address1 port1 version1 ltac:(lia) ltac:(lia)) as Hb1.
  pose proof (length_handshakeBody address2 port2 version2 ltac:(lia) ltac:(lia)) as Hb2.
  remember (handshakeBody address1 port1 version1) as body1 eqn:Eb1.
  remember (handshakeBody address2 port2 version2) as body2 eqn:Eb2.
  assert (H : encodeVarint (Z.of_nat (List.length body1)) ++ body1 =
              encodeVarint (Z.of_nat (List.length body2)) ++ body2) by congruence.
  (* the length prefix *)
  pose proof (ReadUvarint_encodeVarint (Z.of_nat (List.length body1)) body1 EOF
                ltac:(lia)) as R1.
  pose proof (ReadUvarint_encodeVarint (Z.of_nat (List.length body2)) body2 EOF
                ltac:(lia)) as R2.
  rewrite <- H, R1 in R2. injection R2 as _ Hbody.
  subst body1 body2.
  (* the protocol version *)
  unfold handshakeBody in Hbody. cbn [app] in Hbody. injection Hbody as Hbody.
  pose proof (ReadUvarint_encodeVarint version1
                (encodeVarint (len address1) ++ list_byte_of_string address1 ++
                 byte.of_Z (port1 / 256) :: byte.of_Z (port1 mod 256) :: encodeVarint 1)
                EOF ltac:(lia)) as V1.
  pose proof (ReadUvarint_encodeVarint version2
                (encodeVarint (len address2) ++ list_byte_of_string address2 ++
                 byte.of_Z (port2 / 256) :: byte.of_Z (port2 mod 256) :: encodeVarint 1)
                EOF ltac:(lia)) as V2.
  rewrite <- Hbody, V1 in V2. injection V2 as Hv Hrest.
  subst version2.
  (* the length of the address *)
  pose proof (ReadUvarint_encodeVarint (len address1)
                (list_byte_of_string address1 ++
                 byte.of_Z (port1 / 256) :: byte.of_Z (port1 mod 256) :: encodeVarint 1)
                EOF ltac:(lia)) as A1.
  pose proof (ReadUvarint_encodeVarint (len address2)
                (list_byte_of_string address2 ++
                 byte.of_Z (port2 / 256) :: byte.of_Z (port2 mod 256) :: encodeVarint 1)
                EOF ltac:(lia)) as A2.
  rewrite <- Hrest, A1 in A2. injection A2 as Hlen Htail.
  (* the address and the port *)
  apply app_same_length in Htail.
  2:{ rewrite !length_list_byte_of_string. unfold len in Hlen. lia. }
  destruct Htail as [Haddr Hport].
  injection Hport as Hhi Hlo.
  apply list_byte_of_string_inj in Haddr.
  apply byte_of_Z_inj in Hhi;
    [| split; [apply Z.div_pos; lia | apply Z.div_lt_upper_bound; lia] ..].
  apply byte_of_Z_inj in Hlo; [| apply Z.mod_pos_bound; lia ..].
  split; [exact Haddr|]. split; [|lia].
  rewrite (Z.div_mod port1 256), (Z.div_mod port2 256) by lia. lia.
Qed.

(** The packet for ["x"], the port 25565 and the protocol version 0. *)
Lemma makeHandshakePacket_injective_x :
  "x"%string = "x"%string /\ 25565 = 25565 /\ 0 = 0.
Proof.
  apply (makeHandshakePacket_injective "x" "x" 25565 25565 0 0
           [Byte.x07; Byte.x00; Byte.x00; Byte.x01; Byte.x78; Byte.x63; Byte.xdd; Byte.x01]);
    try (cbn; lia); reflexivity.
Defined.

(** ** The connection after Ping *)

Lemma Ping_exchange_closed (Unmarshal : list byte -> Response -> Response * option error)
    (c : Conn) (address : string) (port protocolVersion : Z) :
  closed (snd (Ping_exchange Unmarshal c address port protocolVersion)) = true.
Proof.
  unfold Ping_exchange.
  destruct (conn_SetDeadline c); [reflexivity|].
  destruct (makeHandshakePacket address port protocolVersion); [|reflexivity].
  cbv beta iota zeta delta [conn_Write].
  match goal with
  | |- context [Ping_readResponse ?r] => destruct (Ping_readResponse r) as [r0 reader]
  end.
  destruct r0 as [[payload [e|]]|]; try reflexivity.
  destruct (Unmarshal payload zeroResponse) as [resp [e|]]; reflexivity.
Qed.

(** X6.  [Ping] closes the connection it has opened on every path:
    when it returns a response, when it returns an error, and when it
    panics.  It leaves no connection only when the dial has failed, and it
    then returns the error of the dial with the zero [Response]. *)
Theorem Ping_closes_connection
    (Unmarshal : list byte -> Response -> Response * option error)
    (DialTimeout : string -> error + Conn)
    (address : string) (port protocolVersion : Z) :
  match snd (Ping Unmarshal DialTimeout address port protocolVersion) with
  | Some conn => closed conn = true
  | None =>
      exists e : error,
        DialTimeout (address ++ ":" ++ Itoa port)%string = inl e /\
        fst (Ping Unmarshal DialTimeout address port protocolVersion) =
          Return (zeroResponse, Some e)
  end.
Proof.
  unfold Ping.
  destruct (DialTimeout (address ++ ":" ++ Itoa port)%string) as [e|c].
  - cbn [snd fst]. exists e. auto.
  - pose proof (Ping_exchange_closed Unmarshal c address port protocolVersion) as H.
    destruct (Ping_exchange Unmarshal c address port protocolVersion) as [r c'].
    exact H.
Qed.

(** X7.  What [Ping] does to the connection.  When [SetDeadline] fails
    or the handshake cannot be built, it only closes it: nothing is
    written and nothing is read.  Otherwise it writes exactly the
    handshake and then the request packet, taking the results of two
    writes, whatever it reads afterwards, and closes it. *)
Theorem Ping_connection_log
    (Unmarshal : list byte -> Response -> Response * option error)
    (c : Conn) (address : string) (port protocolVersion : Z) :
  let c' := snd (Ping_exchange Unmarshal c address port protocolVersion) in
  match deadline_result c, makeHandshakePacket address port protocolVersion with
  | None, Some handshake =>
      written c' = written c ++ [handshake; requestPacket] /\
      write_results c' = tl (tl (write_results c)) /\
      final c' = final c /\ deadline_result c' = deadline_result c /\ closed c' = true
  | _, _ => c' = conn_Close c
  end.
Proof.
  cbv zeta. unfold Ping_exchange, conn_SetDeadline.
  destruct (deadline_result c) as [e|] eqn:Hd; [reflexivity|].
  destruct (makeHandshakePacket address port protocolVersion) as [hs|]; [|reflexivity].
  cbv beta iota zeta delta [conn_Write].
  match goal with
  | |- context [Ping_readResponse (NewReader ?c2)] =>
      destruct (Ping_readResponse_view (NewReader c2) (reader_wf_NewReader c2)) as (_ & Hs);
      destruct (Ping_readResponse (NewReader c2)) as [r0 reader]
  end.
  cbn [snd rd NewReader] in Hs.
  destruct Hs as (Hf & Hdl & Hwr & Hw & Hc).
  cbn [final deadline_result write_results written closed] in Hf, Hdl, Hwr, Hw, Hc.
  assert (H : written (conn_Close (rd reader)) = written c ++ [hs; requestPacket] /\
              write_results (conn_Close (rd reader)) = tl (tl (write_results c)) /\
              final (conn_Close (rd reader)) = final c /\
              deadline_result (conn_Close (rd reader)) = None /\
              closed (conn_Close (rd reader)) = true).
  { cbn [conn_Close written write_results final deadline_result closed].
    rewrite Hw, Hwr, Hf, Hdl, Hd, <- app_assoc. auto. }
  destruct r0 as [[payload [e|]]|]; try exact H.
  destruct (Unmarshal payload zeroResponse) as [resp [e|]]; exact H.
Qed.

(** ** What ReadUvarint takes *)

Lemma ReadUvarint_loop_takes (todo : nat) :
  forall (i x s : Z) (r : ByteStream),
    let out := ReadUvarint_loop todo i x s r in
    at_end (snd out) = at_end r /\
    exists taken : list byte,
      rest r = taken ++ rest (snd out) /\ (List.length taken <= todo)%nat /\
      match snd (fst out) with
      | None =>
          exists (init : list byte) (last : byte),
            taken = init ++ [last] /\ Forall more_follow init /\ byte.unsigned last < 0x80
      | Some e =>
          Forall more_follow taken /\ rest (snd out) = [] /\ end_error (at_end r) e \/
          e = errOverflow
      end.
Proof.
  induction todo as [|todo IH]; intros i x s r; cbv zeta.
  - cbn [ReadUvarint_loop snd fst]. split; [reflexivity|].
    exists []. split; [reflexivity|]. split; [cbn; lia|]. right. reflexivity.
  - cbn [ReadUvarint_loop]. destruct r as [[|b bs] e].
    + rewrite ReadByte_nil. cbn [snd fst rest at_end]. split; [reflexivity|].
      exists []. split; [reflexivity|]. split; [cbn; lia|]. left.
      split; [constructor|]. split; [reflexivity|].
      unfold end_error. destruct (0 <? i); cbn [andb]; [|auto].
      destruct e; cbn [is_EOF]; auto.
    + rewrite ReadByte_cons.
      destruct (byte.unsigned b <? 0x80) eqn:Hb.
      * apply Z.ltb_lt in Hb.
        destruct ((i =? Z.of_nat MaxVarintLen64 - 1) && (1 <? byte.unsigned b));
          cbn [snd fst rest at_end]; (split; [reflexivity|]);
          exists [b]; (split; [reflexivity|]); (split; [cbn; lia|]).
        -- right. reflexivity.
        -- exists [], b. auto.
      * apply Z.ltb_ge in Hb.
        specialize (IH (i + 1) (Z.lor x (shl64 (Z.land (byte.unsigned b) 0x7f) s)) (s + 7)
                      (mkStream bs e)).
        cbv zeta in IH. destruct IH as (He & taken & Ht & Hl & Hm).
        cbn [rest at_end] in *. split; [exact He|].
        exists (b :: taken). split; [cbn [app]; congruence|].
        split; [cbn [List.length]; lia|].
        destruct (snd (fst (ReadUvarint_loop todo (i + 1)
                              (Z.lor x (shl64 (Z.land (byte.unsigned b) 0x7f) s)) (s + 7)
                              (mkStream bs e)))) as [e'|].
        -- destruct Hm as [(Hf & Hr & Hee)|Ho]; [left|right; exact Ho].
           split; [constructor; [exact Hb | exact Hf]|]. auto.
        -- destruct Hm as (init & last & -> & Hf & Hlast).
           exists (b :: init), last. split; [reflexivity|].
           split; [constructor; [exact Hb | exact Hf]|exact Hlast].
Qed.

(** X8.  From the buffered reader of a connection, [ReadUvarint] takes a
    prefix of at most ten bytes of what can still be read, and leaves the
    rest.  When it succeeds, the prefix is bytes with the high bit set
    followed by one with the high bit clear.  When it fails, the error is
    the overflow error, or the connection has ended inside the varint and
    the error is that of the connection, with [io.ErrUnexpectedEOF] in
    place of [io.EOF]. *)
Theorem ReadUvarint_takes (b : Reader) :
  reader_wf b ->
  final (rd (snd (ReadUvarint b))) = final (rd b) /\
  exists taken : list byte,
    stream b = taken ++ stream (snd (ReadUvarint b)) /\ (List.length taken <= 10)%nat /\
    match snd (fst (ReadUvarint b)) with
    | None =>
        exists (init : list byte) (last : byte),
          taken = init ++ [last] /\ Forall more_follow init /\ byte.unsigned last < 0x80
    | Some e =>
        Forall more_follow taken /\ stream (snd (ReadUvarint b)) = [] /\
        end_error (final (rd b)) e \/
        e = errOverflow
    end.
Proof.
  intros Hwf.
  destruct (ReadUvarint_view b Hwf) as (Hv & _ & Hs).
  pose proof (ReadUvarint_loop_takes MaxVarintLen64 0 0 0 (view b)) as H.
  cbv zeta in H. fold (ReadUvarint (view b)) in H. rewrite Hv in H.
  destruct (ReadUvarint b) as [res b'].
  cbn [fst snd view rest at_end] in H, Hs |- *.
  destruct H as (_ & taken & Ht & Hl & Hm).
  split; [apply Hs|]. exists taken. auto.
Qed.

(** The bytes [ac 02 7b], one at a time. *)
Lemma ReadUvarint_takes_300 :
  final (rd (snd (ReadUvarint reader_300))) = final (rd reader_300) /\
  exists taken : list byte,
    stream reader_300 = taken ++ stream (snd (ReadUvarint reader_300)) /\
    (List.length taken <= 10)%nat /\
    match snd (fst (ReadUvarint reader_300)) with
    | None =>
        exists (init : list byte) (last : byte),
          taken = init ++ [last] /\ Forall more_follow init /\ byte.unsigned last < 0x80
    | Some e =>
        Forall more_follow taken /\ stream (snd (ReadUvarint reader_300)) = [] /\
        end_error (final (rd reader_300)) e \/
        e = errOverflow
    end.
Proof. apply (ReadUvarint_takes reader_300). apply reader_wf_NewReader. Defined.

(** ** The errors of the reads *)

Lemma ReadUvarint_error (r : ByteStream) (e : error) :
  snd (fst (ReadUvarint r)) = Some e -> end_error (at_end r) e \/ e = errOverflow.
Proof.
  intros H.
  destruct (ReadUvarint_loop_takes MaxVarintLen64 0 0 0 r) as (_ & taken & _ & _ & Hm).
  fold (ReadUvarint r) in Hm. rewrite H in Hm.
  destruct Hm as [(_ & _ & He)|Ho]; auto.
Qed.

Lemma ReadUvarint_at_end (r : ByteStream) : at_end (snd (ReadUvarint r)) = at_end r.
Proof. apply (ReadUvarint_loop_takes MaxVarintLen64 0 0 0 r). Qed.

Lemma readFull_error (s : ByteStream) (size : nat) (e : error) :
  snd (fst (readFull s size)) = Some e -> end_error (at_end s) e.
Proof.
  unfold readFull, end_error.
  destruct (size <=? List.length (rest s))%nat; cbn [fst snd]; [discriminate|].
  intros H. injection H as <-.
  destruct (0 <? List.length (rest s))%nat; cbn [andb]; [|auto].
  destruct (at_end s); cbn [is_EOF]; auto.
Qed.

Lemma readPayload_error (s : ByteStream) (payload : list byte) (e : error) :
  fst (readPayload s) = Return (payload, Some e) ->
  end_error (at_end s) e \/ e = errOverflow.
Proof.
  unfold readPayload.
  pose proof (ReadUvarint_error s) as H1. pose proof (ReadUvarint_at_end s) as A1.
  destruct (ReadUvarint s) as [[length [e1|]] s1]; cbn [fst snd] in *.
  - intros H. injection H as _ <-. auto.
  - destruct (make_bytes length) as [size|]; [|discriminate].
    pose proof (readFull_error s1 size) as H2.
    destruct (readFull s1 size) as [[got [e2|]] s2]; cbn [fst snd] in *.
    + intros H. injection H as _ <-. left. rewrite <- A1. auto.
    + discriminate.
Qed.

Lemma readResponsePacket_error (s : ByteStream) (payload : list byte) (e : error) :
  fst (readResponsePacket s) = Return (payload, Some e) -> read_error (at_end s) e.
Proof.
  unfold readResponsePacket, read_error.
  pose proof (ReadUvarint_error s) as H1. pose proof (ReadUvarint_at_end s) as A1.
  destruct (ReadUvarint s) as [[x1 [e1|]] s1]; cbn [fst snd] in *.
  { intros H. injection H as _ <-. destruct (H1 _ eq_refl); auto. }
  pose proof (ReadUvarint_error s1) as H2. pose proof (ReadUvarint_at_end s1) as A2.
  destruct (ReadUvarint s1) as [[packetId [e2|]] s2]; cbn [fst snd] in *.
  { intros H. injection H as _ <-. rewrite <- A1. destruct (H2 _ eq_refl); auto. }
  destruct (packetId =? 0) eqn:Hid; cbn [negb].
  - intros H. apply readPayload_error in H. rewrite A2, A1 in H. destruct H; auto.
  - intros H. injection H as _ <-. apply Z.eqb_neq in Hid. right. right. eauto.
Qed.

(** ** The errors of Unmarshal *)

Lemma saveError_type_error (saved e : option error) :
  type_error saved -> type_error e -> type_error (json.saveError saved e).
Proof. destruct saved; cbn [json.saveError]; auto. Qed.

Lemma store_string_type_error (cur : string) (v : json.value) :
  type_error (snd (json.store_string cur v)).
Proof. destruct v; cbn; eauto. Qed.

Lemma store_int_type_error (cur : Z) (v : json.value) :
  type_error (snd (json.store_int cur v)).
Proof.
  destruct v; cbn; eauto. destruct (json.ParseInt lit); cbn; eauto.
Qed.

Section StructErrors.

Context {S F : Type}.
Variable fields : list (string * F).
Variable store : F -> json.member -> S -> S * option error.
Hypothesis store_type_error : forall f m cur, type_error (snd (store f m cur)).

Lemma store_members_type_error (ms : list json.member) :
  forall (cur : S) (saved : option error),
    type_error saved -> type_error (snd (json.store_members fields store ms cur saved)).
Proof.
  induction ms as [|m ms IH]; intros cur saved Hs; cbn [json.store_members].
  - exact Hs.
  - destruct (json.field_of fields (json.unquote (fst (fst m)))) as [f|]; [|auto].
    pose proof (store_type_error f m cur) as He.
    destruct (store f m cur) as [cur' e]. cbn [snd] in He.
    apply IH. apply saveError_type_error; assumption.
Qed.

Lemma store_struct_type_error (cur : S) (v : json.value) :
  type_error (snd (json.store_struct fields store cur v)).
Proof.
  destruct v; cbn [json.store_struct snd type_error]; eauto.
  apply store_members_type_error. exact I.
Qed.

End StructErrors.

Ltac field_type_error :=
  match goal with
  | |- context [json.store_string ?c ?v] =>
      pose proof (store_string_type_error c v); destruct (json.store_string c v)
  | |- context [json.store_int ?c ?v] =>
      pose proof (store_int_type_error c v); destruct (json.store_int c v)
  end; cbn [snd] in *; assumption.

Lemma store_SampleEntry_type_error (cur : SampleEntry) (v : json.value) :
  type_error (snd (json.store_SampleEntry cur v)).
Proof. apply store_struct_type_error. intros f m cur'. destruct f; field_type_error. Qed.

Lemma store_elems_type_error (vs : list json.value) :
  forall (backing : list SampleEntry) (saved : option error),
    type_error saved -> type_error (snd (json.store_elems vs backing saved)).
Proof.
  induction vs as [|v vs IH]; intros backing saved Hs; cbn [json.store_elems].
  - exact Hs.
  - pose proof (store_SampleEntry_type_error (hd json.zeroSample backing) v) as Hv.
    destruct (json.store_SampleEntry (hd json.zeroSample backing) v) as [x e].
    specialize (IH (tl backing) (json.saveError saved e)
                  (saveError_type_error _ _ Hs Hv)).
    destruct (json.store_elems vs (tl backing) (json.saveError saved e)) as [xs saved'].
    exact IH.
Qed.

Lemma store_Sample_type_error (cur : slice SampleEntry) (v : json.value) :
  type_error (snd (json.store_Sample cur v)).
Proof.
  destruct v as [| | | |vs|]; cbn [json.store_Sample snd type_error json.describe]; eauto.
  destruct vs as [|v vs]; [exact I|].
  pose proof (store_elems_type_error (v :: vs) (elems cur ++ spare cur) None I) as H.
  destruct (json.store_elems (v :: vs) (elems cur ++ spare cur) None) as [xs e].
  exact H.
Qed.

Lemma store_Version_type_error (cur : VersionInfo) (v : json.value) :
  type_error (snd (json.store_Version cur v)).
Proof. apply store_struct_type_error. intros f m cur'. destruct f; field_type_error. Qed.

Lemma store_Players_type_error (cur : PlayersInfo) (v : json.value) :
  type_error (snd (json.store_Players cur v)).
Proof.
  apply store_struct_type_error. intros f m cur'. destruct f; try field_type_error.
  pose proof (store_Sample_type_error (Players_Sample cur') (json.member_value m)).
  destruct (json.store_Sample (Players_Sample cur') (json.member_value m)).
  assumption.
Qed.

Lemma store_Response_type_error (cur : Response) (v : json.value) :
  type_error (snd (json.store_Response cur v)).
Proof.
  apply store_struct_type_error. intros f m cur'. destruct f; try field_type_error.
  - pose proof (store_Version_type_error (Version cur') (json.member_value m)).
    destruct (json.store_Version (Version cur') (json.member_value m)). assumption.
  - pose proof (store_Players_type_error (Players cur') (json.member_value m)).
    destruct (json.store_Players (Players cur') (json.member_value m)). assumption.
  - exact I.
Qed.

(** An error of [Unmarshal] is a syntax error, which leaves the value
    alone, or a type error. *)
Lemma Unmarshal_error (data : list byte) (resp : Response) (e : error) :
  snd (json.Unmarshal data resp) = Some e ->
  (e = SyntaxError /\ fst (json.Unmarshal data resp) = resp) \/
  exists Value : string, e = UnmarshalTypeError Value.
Proof.
  unfold json.Unmarshal. destruct (json.parse data) as [v|].
  - pose proof (store_Response_type_error resp v) as H. intros He. rewrite He in H.
    right. exact H.
  - cbn [snd fst]. intros H. injection H as <-. auto.
Qed.

(** ** The errors of Ping *)

(** X9.  The errors of [Ping].  An error other than a type error of
    [json.Unmarshal] comes with the zero [Response], and it is the error
    of the dial, the error of [SetDeadline], the error the connection
    ended with ([io.ErrUnexpectedEOF] in place of [io.EOF]), the overflow
    of a varint, the error for a packet ID that is not 0, or a syntax
    error. *)
Theorem Ping_error_classification
    (DialTimeout : string -> error + Conn)
    (address : string) (port protocolVersion : Z) (resp : Response) (e : error) :
  fst (Ping json.Unmarshal DialTimeout address port protocolVersion) =
    Return (resp, Some e) ->
  (exists Value : string, e = UnmarshalTypeError Value) \/
  (resp = zeroResponse /\
   (DialTimeout (address ++ ":" ++ Itoa port)%string = inl e \/
    exists conn : Conn,
      DialTimeout (address ++ ":" ++ Itoa port)%string = inr conn /\
      (deadline_result conn = Some e \/
       e = final conn \/ (e = ErrUnexpectedEOF /\ final conn = EOF) \/
       e = errOverflow \/
       (exists packetId : Z, packetId <> 0 /\ e = ErrPacketId packetId) \/
       e = SyntaxError))).
Proof.
  unfold Ping.
  destruct (DialTimeout (address ++ ":" ++ Itoa port)%string) as [e0|c] eqn:Hdial.
  { cbn [fst]. intros H. injection H as <- <-. right. auto. }
  pose proof (Ping_exchange_result json.Unmarshal c address port protocolVersion) as Hr.
  destruct (Ping_exchange json.Unmarshal c address port protocolVersion) as [r c'].
  cbn [fst] in *. intros H. rewrite H in Hr. clear H.
  symmetry in Hr.
  destruct (deadline_result c) as [e0|] eqn:Hd.
  { injection Hr as <- <-. right. split; [reflexivity|]. right. exists c. auto. }
  destruct (makeHandshakePacket address port protocolVersion) as [hs|]; [|discriminate].
  pose proof (readResponsePacket_error (mkStream (pending c) (final c))) as Hread.
  destruct (fst (readResponsePacket (mkStream (pending c) (final c))))
    as [[payload [e1|]]|]; cbn [after_read] in Hr; [| |discriminate].
  - injection Hr as <- <-. right. split; [reflexivity|]. right. exists c.
    split; [reflexivity|].
    destruct (Hread payload e1 eq_refl) as [[H|H]|[H|H]]; cbn [at_end] in *; auto 7.
  - pose proof (Unmarshal_error payload zeroResponse e) as Hu.
    destruct (json.Unmarshal payload zeroResponse) as [resp' e'].
    injection Hr as E1 E2. subst resp' e'. cbn [fst snd] in Hu.
    destruct (Hu eq_refl) as [[-> ->]|Ht]; [|left; exact Ht].
    right. split; [reflexivity|]. right. exists c. auto 8.
Qed.

(** The response [02 05 00], with the packet ID 5. *)
Lemma Ping_error_classification_5 :
  (exists Value : string, ErrPacketId 5 = UnmarshalTypeError Value) \/
  (zeroResponse = zeroResponse /\
   (dial_to (scripted [Chunk Byte.x02 [Byte.x05; Byte.x00]] EOF)
      ("x" ++ ":" ++ Itoa 25565)%string = inl (ErrPacketId 5) \/
    exists conn : Conn,
      dial_to (scripted [Chunk Byte.x02 [Byte.x05; Byte.x00]] EOF)
        ("x" ++ ":" ++ Itoa 25565)%string = inr conn /\
      (deadline_result conn = Some (ErrPacketId 5) \/
       ErrPacketId 5 = final conn \/ (ErrPacketId 5 = ErrUnexpectedEOF /\ final conn = EOF) \/
       ErrPacketId 5 = errOverflow \/
       (exists packetId : Z, packetId <> 0 /\ ErrPacketId 5 = ErrPacketId packetId) \/
       ErrPacketId 5 = SyntaxError))).
Proof.
  apply (Ping_error_classification
           (dial_to (scripted [Chunk Byte.x02 [Byte.x05; Byte.x00]] EOF))
           "x" 25565 0 zeroResponse (ErrPacketId 5)).
  vm_compute. reflexivity.
Defined.

(** A type error comes with what was stored before and after it: here the
    favicon, beside a version that is a number. *)
Example Ping_partial_response :
  fst (Ping json.Unmarshal
         (dial_to (scripted
                     (bytewise
                        (response_packet
                           (str "{" ++ quoted "version" ++ str ":3,"
                            ++ quoted "favicon" ++ str ":" ++ quoted "x" ++ str "}")))
                     EOF))
         "example.org" DefaultPort LatestProtocolVersion) =
  Return (mkResponse (mkVersion "" 0) (mkPlayers 0 0 nilSlice) [] "x",
          Some (UnmarshalTypeError "number")).
Proof. vm_compute. reflexivity. Qed.

(** ** When Ping succeeds *)

Lemma make_bytes_some (length : Z) (size : nat) :
  0 <= length -> make_bytes length = Some size -> Z.of_nat size = length.
Proof.
  unfold make_bytes. intros H0. destruct (length <=? maxAlloc); [|discriminate].
  intros H. injection H as <-. lia.
Qed.

(** The reads that give a payload. *)
Lemma readResponsePacket_payload (s : ByteStream) (payload : list byte) :
  fst (readResponsePacket s) = Return (payload, None) ->
  exists (x declared : Z) (s1 s2 s3 : ByteStream),
    ReadUvarint s = ((x, None), s1) /\
    ReadUvarint s1 = ((0, None), s2) /\
    ReadUvarint s2 = ((declared, None), s3) /\
    declared <= Z.of_nat (List.length (rest s3)) /\
    payload = firstn (Z.to_nat declared) (rest s3).
Proof.
  unfold readResponsePacket, readPayload.
  destruct (ReadUvarint s) as [[x [e1|]] s1] eqn:R1; [discriminate|].
  destruct (ReadUvarint s1) as [[packetId [e2|]] s2] eqn:R2; [discriminate|].
  destruct (packetId =? 0) eqn:Hid; cbn [negb]; [|discriminate].
  apply Z.eqb_eq in Hid. subst packetId.
  pose proof (ReadUvarint_nonneg s2) as Hnn.
  destruct (ReadUvarint s2) as [[declared [e3|]] s3] eqn:R3; [discriminate|].
  cbn [fst] in Hnn.
  destruct (make_bytes declared) as [size|] eqn:Hm; [|discriminate].
  apply make_bytes_some in Hm; [|exact Hnn].
  unfold readFull.
  destruct (size <=? List.length (rest s3))%nat eqn:Hsize; cbn [fst]; [|discriminate].
  apply Nat.leb_le in Hsize.
  intros H. injection H as <-.
  exists x, declared, s1, s2, s3.
  repeat (split; [first [reflexivity | assumption]|]). split; [lia|].
  f_equal. lia.
Qed.

(** X10.  When [Ping] returns no error, the dial and [SetDeadline] have
    succeeded, the handshake was built, and the stream started with a
    varint, the packet ID 0, the length of the payload and as many bytes
    as that; these bytes are a JSON text of the shape of a [Response],
    and the [Response] returned is what they are stored into from the
    zero value. *)
Theorem Ping_success_sound
    (DialTimeout : string -> error + Conn)
    (address : string) (port protocolVersion : Z) (resp : Response) :
  fst (Ping json.Unmarshal DialTimeout address port protocolVersion) =
    Return (resp, None) ->
  exists (conn : Conn) (handshake : list byte) (x declared : Z) (s1 s2 s3 : ByteStream)
         (val : json.value),
    DialTimeout (address ++ ":" ++ Itoa port)%string = inr conn /\
    deadline_result conn = None /\
    makeHandshakePacket address port protocolVersion = Some handshake /\
    ReadUvarint (mkStream (pending conn) (final conn)) = ((x, None), s1) /\
    ReadUvarint s1 = ((0, None), s2) /\
    ReadUvarint s2 = ((declared, None), s3) /\
    declared <= Z.of_nat (List.length (rest s3)) /\
    json.parse (firstn (Z.to_nat declared) (rest s3)) = Some val /\
    shape_Response val = true /\
    json.store_Response zeroResponse val = (resp, None).
Proof.
  unfold Ping.
  destruct (DialTimeout (address ++ ":" ++ Itoa port)%string) as [e0|c] eqn:Hdial.
  { cbn [fst]. discriminate. }
  pose proof (Ping_exchange_result json.Unmarshal c address port protocolVersion) as Hr.
  destruct (Ping_exchange json.Unmarshal c address port protocolVersion) as [r c'].
  cbn [fst] in *. intros H. rewrite H in Hr. clear H. symmetry in Hr.
  destruct (deadline_result c) as [e0|] eqn:Hd; [discriminate|].
  destruct (makeHandshakePacket address port protocolVersion) as [hs|]; [|discriminate].
  pose proof (readResponsePacket_payload (mkStream (pending c) (final c))) as Hread.
  destruct (fst (readResponsePacket (mkStream (pending c) (final c))))
    as [[payload [e1|]]|]; cbn [after_read] in Hr; try discriminate.
  destruct (Hread payload eq_refl) as (x & declared & s1 & s2 & s3 & R1 & R2 & R3 & Hle & ->).
  injection Hr as Hu.
  unfold json.Unmarshal in Hu.
  destruct (json.parse (firstn (Z.to_nat declared) (rest s3))) as [val|] eqn:Hp;
    [|discriminate].
  exists c, hs, x, declared, s1, s2, s3, val.
  repeat (split; [first [reflexivity | assumption]|]).
  split; [|exact Hu].
  apply (store_Response_ok zeroResponse val). rewrite Hu. reflexivity.
Qed.

(** The response [04 00 02 7b 7d], with the payload [{}]. *)
Lemma Ping_success_sound_empty_object :
  exists (conn : Conn) (handshake : list byte) (x declared : Z) (s1 s2 s3 : ByteStream)
         (val : json.value),
    dial_to (scripted [Chunk Byte.x04 [Byte.x00; Byte.x02; Byte.x7b; Byte.x7d]] EOF)
      ("x" ++ ":" ++ Itoa 25565)%string = inr conn /\
    deadline_result conn = None /\
    makeHandshakePacket "x" 25565 0 = Some handshake /\
    ReadUvarint (mkStream (pending conn) (final conn)) = ((x, None), s1) /\
    ReadUvarint s1 = ((0, None), s2) /\
    ReadUvarint s2 = ((declared, None), s3) /\
    declared <= Z.of_nat (List.length (rest s3)) /\
    json.parse (firstn (Z.to_nat declared) (rest s3)) = Some val /\
    shape_Response val = true /\
    json.store_Response zeroResponse val = (zeroResponse, None).
Proof.
  apply (Ping_success_sound
           (dial_to (scripted [Chunk Byte.x04 [Byte.x00; Byte.x02; Byte.x7b; Byte.x7d]] EOF))
           "x" 25565 0 zeroResponse).
  vm_compute. reflexivity.
Defined.

(** ** The value of ReadUvarint is a uint64 *)

Lemma lor_lt_pow2 (a b n : Z) :
  0 <= n -> 0 <= a < 2 ^ n -> 0 <= b < 2 ^ n -> 0 <= Z.lor a b < 2 ^ n.
Proof.
  intros Hn Ha Hb.
  assert (H0 : 0 <= Z.lor a b) by (apply Z.lor_nonneg; lia).
  split; [exact H0|].
  destruct (Z.eq_dec (Z.lor a b) 0) as [->|Hne]; [lia|].
  apply Z.log2_lt_pow2; [lia|].
  rewrite Z.log2_lor by lia.
  destruct (Z.eq_dec a 0) as [->|Ha0]; destruct (Z.eq_dec b 0) as [->|Hb0].
  - cbn in Hne. lia.
  - assert (Z.log2 b < n) by (apply Z.log2_lt_pow2; lia).
    change (Z.log2 0) with 0. pose proof (Z.log2_nonneg b). lia.
  - assert (Z.log2 a < n) by (apply Z.log2_lt_pow2; lia).
    change (Z.log2 0) with 0. pose proof (Z.log2_nonneg a). lia.
  - assert (Z.log2 a < n) by (apply Z.log2_lt_pow2; lia).
    assert (Z.log2 b < n) by (apply Z.log2_lt_pow2; lia). lia.
Qed.

Lemma shl64_range (a s : Z) : 0 <= shl64 a s < 2 ^ 64.
Proof. unfold shl64. apply Z.mod_pos_bound. lia. Qed.

Lemma ReadUvarint_loop_uint64 {R : Type} {BR : ByteReader R} (todo : nat) :
  forall (i x s : Z) (r : R),
    0 <= x < 2 ^ 64 -> 0 <= fst (fst (ReadUvarint_loop todo i x s r)) < 2 ^ 64.
Proof.
  induction todo as [|todo IH]; intros i x s r Hx; cbn [ReadUvarint_loop].
  - exact Hx.
  - destruct (ReadByte r) as [[b [e|]] r']; [exact Hx|].
    destruct (byte.unsigned b <? 0x80).
    + destruct ((i =? Z.of_nat MaxVarintLen64 - 1) && (1 <? byte.unsigned b));
        cbn [fst]; [exact Hx|].
      apply lor_lt_pow2; [lia | exact Hx | apply shl64_range].
    + apply IH. apply lor_lt_pow2; [lia | exact Hx | apply shl64_range].
Qed.

(** X11.  The value [ReadUvarint] returns is a [uint64], with or
    without an error, from the buffered reader over a connection as from
    a byte sequence. *)
Theorem ReadUvarint_uint64 (c : Conn) (s : ByteStream) :
  0 <= fst (fst (ReadUvarint (NewReader c))) < 2 ^ 64 /\
  0 <= fst (fst (ReadUvarint s)) < 2 ^ 64.
Proof.
  split; apply ReadUvarint_loop_uint64; lia.
Qed.

(** ** A response packet is read back *)

Lemma readFull_exact (payload more : list byte) (e : error) :
  readFull (mkStream (payload ++ more) e) (List.length payload) =
  ((payload, None), mkStream more e).
Proof.
  unfold readFull. cbn [rest at_end].
  replace (List.length payload <=? List.length (payload ++ more))%nat with true
    by (symmetry; apply Nat.leb_le; rewrite length_app; lia).
  rewrite firstn_app, Nat.sub_diag, firstn_all, skipn_app, Nat.sub_diag, skipn_all.
  cbn [firstn skipn app]. rewrite app_nil_r. reflexivity.
Qed.

Lemma readResponsePacket_response_packet (payload more : list byte) (e : error) :
  Z.of_nat (List.length payload) <= maxAlloc ->
  readResponsePacket (mkStream (response_packet payload ++ more) e) =
  (Return (payload, None), mkStream more e).
Proof.
  intros Hlen. unfold maxAlloc in Hlen.
  unfold response_packet, readResponsePacket, readPayload. cbv zeta.
  rewrite <- !app_assoc. rewrite ReadUvarint_encodeVarint.
  2:{ split; [lia|]. rewrite !length_app, length_encodeVarint. cbn [List.length].
      pose proof (moreGroups_bound (Z.of_nat (List.length payload)) 9 ltac:(lia) ltac:(lia)).
      lia. }
  cbn [app].
  change (ReadUvarint (mkStream (Byte.x00 :: ?l) e)) with
    (ReadUvarint (mkStream (encodeVarint 0 ++ l) e)).
  rewrite (ReadUvarint_encodeVarint 0) by lia.
  cbn [Z.eqb negb].
  rewrite ReadUvarint_encodeVarint by lia.
  unfold make_bytes, maxAlloc.
  replace (Z.of_nat (List.length payload) <=? 2 ^ 48) with true
    by (symmetry; apply Z.leb_le; lia).
  rewrite Nat2Z.id, readFull_exact. reflexivity.
Qed.

(** X12.  A response packet is read back: when the server sends the
    varint of the packet length, the packet ID 0, the varint of the length
    of a payload and the payload, [Ping] returns what [Unmarshal] makes of
    that payload, however the bytes are cut into segments, whatever
    follows them and whatever error the connection ends with. *)
Theorem Ping_reads_response_packet
    (Unmarshal : list byte -> Response -> Response * option error)
    (c : Conn) (address : string) (port protocolVersion : Z)
    (payload more : list byte) :
  deadline_result c = None ->
  0 <= to_int32 protocolVersion -> len address + 14 < 2 ^ 31 ->
  pending c = response_packet payload ++ more ->
  Z.of_nat (List.length payload) <= maxAlloc ->
  fst (Ping_exchange Unmarshal c address port protocolVersion) =
    Return (Unmarshal payload zeroResponse).
Proof.
  intros Hd Hv Ha Hp Hlen.
  rewrite Ping_exchange_result, Hd, makeHandshakePacket_some by assumption.
  rewrite Hp, readResponsePacket_response_packet by assumption.
  reflexivity.
Qed.

(** The payload [{}] byte by byte, before two stray bytes and a
    timeout. *)
Lemma Ping_reads_response_packet_bytewise :
  fst (Ping_exchange json.Unmarshal
         (scripted (bytewise (response_packet [Byte.x7b; Byte.x7d] ++ [Byte.xff; Byte.xff]))
                   (ErrNet "i/o timeout"))
         "x" 25565 0) =
    Return (json.Unmarshal [Byte.x7b; Byte.x7d] zeroResponse).
Proof.
  apply (Ping_reads_response_packet json.Unmarshal
           (scripted (bytewise (response_packet [Byte.x7b; Byte.x7d] ++ [Byte.xff; Byte.xff]))
                     (ErrNet "i/o timeout"))
           "x" 25565 0 [Byte.x7b; Byte.x7d] [Byte.xff; Byte.xff]).
  - reflexivity.
  - vm_compute. discriminate.
  - vm_compute. reflexivity.
  - vm_compute. reflexivity.
  - vm_compute. discriminate.
Defined.

(** ** Members that name no field *)

Lemma store_members_known {S F : Type} (fields : list (string * F))
    (store : F -> json.member -> S -> S * option error) (ms : list json.member) :
  forall (cur : S) (saved : option error),
    json.store_members fields store ms cur saved =
    json.store_members fields store (filter (known fields) ms) cur saved.
Proof.
  induction ms as [|m ms IH]; intros cur saved; cbn [filter json.store_members].
  - reflexivity.
  - unfold known at 1. fold (member_key m).
    destruct (json.field_of fields (member_key m)) as [f|] eqn:Hf.
    + cbn [json.store_members]. fold (member_key m). rewrite Hf.
      destruct (store f m cur) as [cur' e]. apply IH.
    + apply IH.
Qed.



(** ** Escaped texts *)

Lemma escape_cons (b : byte) (text : list byte) :
  escape (b :: text) = escape_byte b ++ escape text.
Proof. reflexivity. Qed.

(** A byte of seven bits is what its escape stands for. *)
Lemma unquote_escape_byte (c : byte) (tail : list byte) :
  (json.u c <? 0x80) = true ->
  json.unquote (escape_byte c ++ tail) = c :: json.unquote tail.
Proof. destruct c; try discriminate; intros _; reflexivity. Qed.

Lemma escape_high (c : byte) : (json.u c <? 0x80) = false -> escape_byte c = [c].
Proof. destruct c; try discriminate; intros _; reflexivity. Qed.

Lemma high_not_backslash (b : byte) :
  (json.u b <? 0x80) = false -> Byte.eqb b Byte.x5c = false.
Proof. destruct b; try discriminate; intros _; reflexivity. Qed.

Lemma cont_high (b : byte) : json.cont b = true -> (json.u b <? 0x80) = false.
Proof.
  unfold json.cont, json.between. intros H. apply andb_prop in H. destruct H as [H _].
  apply Z.leb_le in H. apply Z.ltb_ge. lia.
Qed.

Lemma rune2_cont (c c1 : byte) : json.rune2 c c1 = true -> json.cont c1 = true.
Proof. unfold json.rune2. intros H. apply andb_prop in H. tauto. Qed.

Lemma between_high (lo hi : Z) (b : byte) :
  0x80 <= lo -> json.between lo hi b = true -> (json.u b <? 0x80) = false.
Proof.
  unfold json.between. intros Hlo H. apply andb_prop in H. destruct H as [H _].
  apply Z.leb_le in H. apply Z.ltb_ge. lia.
Qed.

Lemma rune3_high (c c1 c2 : byte) :
  json.rune3 c c1 c2 = true ->
  (json.u c1 <? 0x80) = false /\ (json.u c2 <? 0x80) = false.
Proof.
  unfold json.rune3. intros H. apply andb_prop in H. destruct H as [H H2].
  split; [|apply cont_high; exact H2].
  repeat (apply orb_prop in H; destruct H as [H|H]);
    apply andb_prop in H; destruct H as [_ H];
    first [apply cont_high; exact H | eapply between_high; [|exact H]; lia].
Qed.

Lemma rune4_high (c c1 c2 c3 : byte) :
  json.rune4 c c1 c2 c3 = true ->
  (json.u c1 <? 0x80) = false /\ (json.u c2 <? 0x80) = false /\
  (json.u c3 <? 0x80) = false.
Proof.
  unfold json.rune4. intros H. apply andb_prop in H. destruct H as [H H3].
  apply andb_prop in H. destruct H as [H H2].
  split; [|split; apply cont_high; assumption].
  repeat (apply orb_prop in H; destruct H as [H|H]);
    apply andb_prop in H; destruct H as [_ H];
    first [apply cont_high; exact H | eapply between_high; [|exact H]; lia].
Qed.

Lemma unquote_escape_upto (n : nat) :
  forall s : list byte,
    (List.length s <= n)%nat -> utf8 s = true -> json.unquote (escape s) = s.
Proof.
  induction n as [|n IH]; intros s Hn Hp.
  { destruct s; [reflexivity | cbn [List.length] in Hn; lia]. }
  destruct s as [|c rest]; [reflexivity|].
  cbn [List.length] in Hn. cbn [utf8] in Hp. rewrite escape_cons.
  destruct (json.u c <? 0x80) eqn:Hc.
  - rewrite (unquote_escape_byte c _ Hc), (IH rest ltac:(lia) Hp). reflexivity.
  - rewrite (escape_high c Hc). cbn [app json.unquote].
    rewrite (high_not_backslash c Hc), Hc.
    destruct rest as [|c1 rest1]; [discriminate|].
    cbn [List.length] in Hn. rewrite escape_cons.
    destruct (json.rune2 c c1) eqn:H2.
    { rewrite (escape_high c1 (cont_high c1 (rune2_cont c c1 H2))). cbn [app].
      rewrite H2, (IH rest1 ltac:(lia) Hp). reflexivity. }
    destruct rest1 as [|c2 rest2]; [discriminate|].
    cbn [List.length] in Hn. rewrite escape_cons.
    destruct (json.rune3 c c1 c2) eqn:H3.
    { destruct (rune3_high c c1 c2 H3) as [Hc1 Hc2].
      rewrite (escape_high c1 Hc1), (escape_high c2 Hc2). cbn [app].
      rewrite H2, H3, (IH rest2 ltac:(lia) Hp). reflexivity. }
    destruct rest2 as [|c3 rest3]; [discriminate|].
    cbn [List.length] in Hn. rewrite escape_cons.
    apply andb_prop in Hp. destruct Hp as [H4 Hp].
    destruct (rune4_high c c1 c2 c3 H4) as (Hc1 & Hc2 & Hc3).
    rewrite (escape_high c1 Hc1), (escape_high c2 Hc2), (escape_high c3 Hc3). cbn [app].
    rewrite H2, H3, H4, (IH rest3 ltac:(lia) Hp). reflexivity.
Qed.

(** A text in UTF-8 is what its escaped form stands for. *)
Lemma unquote_escape (text : list byte) :
  utf8 text = true -> json.unquote (escape text) = text.
Proof. intros H. apply (unquote_escape_upto (List.length text) text (le_n _) H). Qed.

(** ** The scanner on rendered pieces *)

Lemma lex_run_cons (st : json.lexstate) (pos : nat) (b : byte) (input : list byte) :
  json.lex_run st pos (b :: input) =
  match json.lex_step st pos b with
  | None => None
  | Some (ts, st') =>
      match json.lex_run st' (S pos) input with
      | None => None
      | Some ts' => Some (ts ++ ts')
      end
  end.
Proof. reflexivity. Qed.

(** The scanner takes the escaped form of a byte. *)
Lemma lex_escape_byte (b : byte) (start pos : nat) (acc rest : list byte) :
  json.lex_run (json.LString start acc) pos (escape_byte b ++ rest) =
  json.lex_run (json.LString start (rev (escape_byte b) ++ acc))
    (List.length (escape_byte b) + pos) rest.
Proof.
  destruct b; cbn;
    match goal with
    | |- context [json.lex_run ?st ?p rest] => destruct (json.lex_run st p rest)
    end; reflexivity.
Qed.

(** The scanner takes an escaped text up to the quote that ends it. *)
Lemma lex_string (text : list byte) :
  forall (start pos : nat) (acc rest : list byte),
    json.lex_run (json.LString start acc) pos (escape text ++ Byte.x22 :: rest) =
    match json.lex_run json.LStart (S (pos + List.length (escape text))) rest with
    | None => None
    | Some ts =>
        Some ((json.TString (rev acc ++ escape text),
               (start, S (pos + List.length (escape text)))) :: ts)
    end.
Proof.
  induction text as [|b text IH]; intros start pos acc rest.
  - cbn [escape flat_map app List.length]. rewrite lex_run_cons. cbn [json.lex_step].
    rewrite Nat.add_0_r, app_nil_r.
    destruct (json.lex_run json.LStart (S pos) rest); reflexivity.
  - rewrite escape_cons, <- app_assoc, lex_escape_byte, IH.
    rewrite rev_app_distr, rev_involutive, <- app_assoc, length_app.
    replace (List.length (escape_byte b) + pos + List.length (escape text))%nat
      with (pos + (List.length (escape_byte b) + List.length (escape text)))%nat by lia.
    reflexivity.
Qed.

Lemma lex_start_mark (pos : nat) (b : byte) (t : json.token) :
  punct_token b = Some t ->
  json.lex_start pos b = Some ([(t, (pos, S pos))], json.LStart).
Proof. destruct b; try discriminate; intros H; injection H as <-; reflexivity. Qed.

(** A mark ends a number. *)
Lemma lex_number_end (ns : json.numstate) (start pos : nat) (acc : list byte)
    (b : byte) (rest : list byte) :
  is_mark b = true -> json.num_done ns = true ->
  json.lex_run (json.LNum ns start acc) pos (b :: rest) =
  match json.lex_run json.LStart pos (b :: rest) with
  | None => None
  | Some ts => Some ((json.TNumber (rev acc), (start, pos)) :: ts)
  end.
Proof.
  intros Hb Hd. rewrite !lex_run_cons. cbn [json.lex_step].
  assert (Hn : json.num_step ns b = None).
  { unfold is_mark in Hb. destruct b; try discriminate Hb; destruct ns; reflexivity. }
  rewrite Hn, Hd.
  destruct (json.lex_start pos b) as [[ts st']|]; [|reflexivity].
  destruct (json.lex_run st' (S pos) rest); reflexivity.
Qed.

Lemma lex_digits (ds : list byte) :
  forall (start pos : nat) (acc : list byte) (b : byte) (rest : list byte),
    forallb json.is_digit ds = true -> is_mark b = true ->
    json.lex_run (json.LNum json.N1 start acc) pos (ds ++ b :: rest) =
    match json.lex_run json.LStart (pos + List.length ds) (b :: rest) with
    | None => None
    | Some ts => Some ((json.TNumber (rev acc ++ ds), (start, (pos + List.length ds)%nat)) :: ts)
    end.
Proof.
  induction ds as [|d ds IH]; intros start pos acc b rest Hd Hb.
  - cbn [app List.length]. rewrite Nat.add_0_r, app_nil_r.
    apply lex_number_end; [exact Hb | reflexivity].
  - cbn [forallb] in Hd. apply andb_prop in Hd. destruct Hd as [Hd0 Hd].
    cbn [app].
    rewrite (lex_run_cons (json.LNum json.N1 start acc)). cbn [json.lex_step].
    assert (Hn : json.num_step json.N1 d = Some json.N1).
    { unfold json.is_digit in Hd0. destruct d; try discriminate Hd0; reflexivity. }
    rewrite Hn, (IH start (S pos) (d :: acc) b rest Hd Hb).
    cbn [List.length rev]. rewrite <- app_assoc. cbn [app].
    replace (S pos + List.length ds)%nat with (pos + S (List.length ds))%nat by lia.
    destruct (json.lex_run json.LStart (pos + S (List.length ds)) (b :: rest)); reflexivity.
Qed.

Lemma lex_unsigned (ds : list byte) (pos : nat) (b : byte) (rest : list byte) :
  unsigned_literal ds = true -> is_mark b = true ->
  json.lex_run json.LStart pos (ds ++ b :: rest) =
  match json.lex_run json.LStart (pos + List.length ds) (b :: rest) with
  | None => None
  | Some ts => Some ((json.TNumber ds, (pos, (pos + List.length ds)%nat)) :: ts)
  end.
Proof.
  intros Hu Hb. destruct ds as [|d ds]; [discriminate|].
  assert (Hcase : (d = Byte.x30 /\ ds = []) \/
                  (json.is_digit19 d = true /\ forallb json.is_digit ds = true)).
  { unfold unsigned_literal in Hu.
    destruct d; try (right; apply andb_prop in Hu; exact Hu).
    destruct ds; [left; auto | right; apply andb_prop in Hu; exact Hu]. }
  destruct Hcase as [[-> ->]|[Hd Hds]].
  - cbn [app List.length].
    rewrite (lex_run_cons json.LStart pos Byte.x30). cbn [json.lex_step json.lex_start].
    rewrite (lex_number_end json.N0 pos (S pos) [Byte.x30] b rest Hb eq_refl).
    replace (pos + 1)%nat with (S pos) by lia.
    cbn [rev app].
    destruct (json.lex_run json.LStart (S pos) (b :: rest)); reflexivity.
  - cbn [app].
    rewrite (lex_run_cons json.LStart pos d). cbn [json.lex_step].
    assert (Hs : json.lex_start pos d = Some ([], json.LNum json.N1 pos [d])).
    { unfold json.is_digit19 in Hd. destruct d; try discriminate Hd; reflexivity. }
    rewrite Hs, (lex_digits ds pos (S pos) [d] b rest Hds Hb).
    cbn [List.length rev app].
    replace (S pos + List.length ds)%nat with (pos + S (List.length ds))%nat by lia.
    destruct (json.lex_run json.LStart (pos + S (List.length ds)) (b :: rest)); reflexivity.
Qed.

Lemma lex_number (lit : list byte) (pos : nat) (b : byte) (rest : list byte) :
  int_literal lit = true -> is_mark b = true ->
  json.lex_run json.LStart pos (lit ++ b :: rest) =
  match json.lex_run json.LStart (pos + List.length lit) (b :: rest) with
  | None => None
  | Some ts => Some ((json.TNumber lit, (pos, (pos + List.length lit)%nat)) :: ts)
  end.
Proof.
  intros Hl Hb.
  assert (Hcase : (exists ds, lit = Byte.x2d :: ds /\ unsigned_literal ds = true) \/
                  unsigned_literal lit = true).
  { unfold int_literal in Hl. destruct lit as [|d ds]; [right; exact Hl|].
    destruct d; try (right; exact Hl). left. eauto. }
  destruct Hcase as [(ds & -> & Hu)|Hu]; [|apply lex_unsigned; assumption].
  destruct ds as [|d ds]; [discriminate|].
  assert (Hcase : (d = Byte.x30 /\ ds = []) \/
                  (json.is_digit19 d = true /\ forallb json.is_digit ds = true)).
  { unfold unsigned_literal in Hu.
    destruct d; try (right; apply andb_prop in Hu; exact Hu).
    destruct ds; [left; auto | right; apply andb_prop in Hu; exact Hu]. }
  cbn [app].
  rewrite (lex_run_cons json.LStart pos Byte.x2d). cbn [json.lex_step json.lex_start].
  destruct Hcase as [[-> ->]|[Hd Hds]].
  - cbn [app].
    rewrite (lex_run_cons (json.LNum json.NNeg pos [Byte.x2d])).
    cbn [json.lex_step json.num_step].
    rewrite (lex_number_end json.N0 pos (S (S pos)) [Byte.x30; Byte.x2d] b rest Hb eq_refl).
    cbn [List.length rev app].
    replace (pos + 2)%nat with (S (S pos)) by lia.
    destruct (json.lex_run json.LStart (S (S pos)) (b :: rest)); reflexivity.
  - rewrite (lex_run_cons (json.LNum json.NNeg pos [Byte.x2d])). cbn [json.lex_step].
    assert (Hn : json.num_step json.NNeg d = Some json.N1).
    { unfold json.is_digit19 in Hd. destruct d; try discriminate Hd; reflexivity. }
    rewrite Hn, (lex_digits ds pos (S (S pos)) [d; Byte.x2d] b rest Hds Hb).
    cbn [List.length rev app].
    replace (S (S pos) + List.length ds)%nat with (pos + S (S (List.length ds)))%nat by lia.
    destruct (json.lex_run json.LStart (pos + S (S (List.length ds))) (b :: rest));
      reflexivity.
Qed.

(** The scanner gives the tokens of the pieces. *)
Lemma lex_render (ps : list piece) :
  forall pos : nat,
    well_formed ps = true ->
    json.lex_run json.LStart pos (render ps) = Some (tokens pos ps).
Proof.
  induction ps as [|p ps IH]; intros pos Hwf.
  - reflexivity.
  - destruct p as [b|text|lit]; cbn [well_formed] in Hwf.
    + apply andb_prop in Hwf. destruct Hwf as [Hb Hwf]. unfold is_mark in Hb.
      destruct (punct_token b) as [t|] eqn:Ht; [|discriminate].
      change (render (Punct b :: ps)) with (b :: render ps).
      rewrite lex_run_cons. cbn [json.lex_step].
      rewrite (lex_start_mark pos b t Ht).
      replace (S pos) with (pos + List.length (render_piece (Punct b)))%nat
        by (cbn [render_piece List.length]; lia).
      rewrite (IH _ Hwf). cbn [tokens token_of app]. rewrite Ht. reflexivity.
    + change (render (Str text :: ps))
        with ((Byte.x22 :: escape text ++ [Byte.x22]) ++ render ps).
      cbn [app]. rewrite <- app_assoc. cbn [app].
      rewrite lex_run_cons. cbn [json.lex_step json.lex_start].
      rewrite (lex_string text pos (S pos) [] (render ps)).
      replace (S (S pos + List.length (escape text))) with
        (pos + List.length (render_piece (Str text)))%nat
        by (cbn [render_piece List.length]; rewrite length_app; cbn [List.length]; lia).
      rewrite (IH _ Hwf). reflexivity.
    + apply andb_prop in Hwf. destruct Hwf as [Hl Hwf].
      apply andb_prop in Hl. destruct Hl as [Hl Hnext].
      destruct ps as [|[b| |] ps]; try discriminate Hnext.
      specialize (IH (pos + List.length lit)%nat Hwf).
      assert (Hb : is_mark b = true).
      { cbn [well_formed] in Hwf. apply andb_prop in Hwf. exact (proj1 Hwf). }
      change (render (Num lit :: Punct b :: ps)) with (lit ++ b :: render ps).
      rewrite (lex_number lit pos b (render ps) Hl Hb).
      change (b :: render ps) with (render (Punct b :: ps)).
      rewrite IH. reflexivity.
Qed.

(** ** Integers in decimal *)

Lemma decimal_digits_acc (fuel : nat) :
  forall (n : Z) (acc : list byte),
    decimal_digits fuel n acc = decimal_digits fuel n [] ++ acc.
Proof.
  induction fuel as [|fuel IH]; intros n acc; cbn [decimal_digits].
  - reflexivity.
  - destruct (n <? 10); [reflexivity|].
    rewrite (IH (n / 10) (_ :: acc)), (IH (n / 10) [_]), <- app_assoc. reflexivity.
Qed.

Lemma digits_app (l1 l2 : list byte) :
  forall acc : Z,
    json.digits acc (l1 ++ l2) =
    match json.digits acc l1 with
    | Some v => json.digits v l2
    | None => None
    end.
Proof.
  induction l1 as [|b l1 IH]; intros acc; cbn [app json.digits].
  - reflexivity.
  - destruct (json.is_digit b); [apply IH | reflexivity].
Qed.

(** The digit of [m], for [m] below 10. *)
Lemma digit_byte (m : Z) :
  0 <= m < 10 ->
  json.is_digit (byte.of_Z (48 + m)) = true /\
  json.u (byte.of_Z (48 + m)) - 48 = m /\
  (0 < m -> json.is_digit19 (byte.of_Z (48 + m)) = true).
Proof.
  intros Hm.
  assert (H : m = 0 \/ m = 1 \/ m = 2 \/ m = 3 \/ m = 4 \/ m = 5 \/ m = 6 \/ m = 7 \/
              m = 8 \/ m = 9) by lia.
  repeat destruct H as [H|H]; subst m; (split; [reflexivity|]); (split; [reflexivity|]);
    intros H0; try reflexivity; lia.
Qed.

Lemma digit19_literal (d : byte) (ds : list byte) :
  json.is_digit19 d = true -> forallb json.is_digit ds = true ->
  unsigned_literal (d :: ds) = true.
Proof.
  intros Hd Hds. unfold unsigned_literal.
  destruct d; try discriminate Hd; rewrite Hds; reflexivity.
Qed.

Lemma digit19_digit (d : byte) : json.is_digit19 d = true -> json.is_digit d = true.
Proof.
  unfold json.is_digit19, json.is_digit. intros H.
  apply andb_prop in H. destruct H as [H1 H2].
  apply andb_true_intro. split; [apply Z.leb_le; apply Z.leb_le in H1; lia | exact H2].
Qed.

(** The digits of a positive number: they start with a digit that is not
    0, and they are read back as the number. *)
Lemma decimal_digits_positive (fuel : nat) :
  forall n : Z,
    0 < n < 10 ^ Z.of_nat fuel ->
    exists (d : byte) (ds : list byte),
      decimal_digits fuel n [] = d :: ds /\
      json.is_digit19 d = true /\ forallb json.is_digit ds = true /\
      json.digits 0 (d :: ds) = Some n.
Proof.
  induction fuel as [|fuel IH]; intros n Hn.
  - cbn in Hn. lia.
  - cbn [decimal_digits].
    pose proof (Z.mod_pos_bound n 10 ltac:(lia)) as Hmod.
    destruct (digit_byte (n mod 10) Hmod) as (Hd & Hu & H19).
    destruct (n <? 10) eqn:Hlt.
    + apply Z.ltb_lt in Hlt. rewrite Z.mod_small in * by lia.
      exists (byte.of_Z (48 + n)), []. split; [reflexivity|].
      split; [apply H19; lia|]. split; [reflexivity|].
      cbn [json.digits]. rewrite Hd, Hu. f_equal; lia.
    + apply Z.ltb_ge in Hlt.
      assert (Hq : 0 < n / 10 < 10 ^ Z.of_nat fuel).
      { split; [apply Z.div_str_pos; lia|].
        apply Z.div_lt_upper_bound; [lia|].
        replace (Z.of_nat (S fuel)) with (1 + Z.of_nat fuel) in Hn by lia.
        rewrite Z.pow_add_r in Hn by lia. lia. }
      destruct (IH (n / 10) Hq) as (d & ds & He & H1 & H2 & H3).
      rewrite decimal_digits_acc, He.
      exists d, (ds ++ [byte.of_Z (48 + n mod 10)]). split; [reflexivity|].
      split; [exact H1|]. split.
      * rewrite forallb_app, H2. cbn [forallb]. rewrite Hd. reflexivity.
      * change (d :: ds ++ [byte.of_Z (48 + n mod 10)])
          with ((d :: ds) ++ [byte.of_Z (48 + n mod 10)]).
        rewrite digits_app, H3. cbn [json.digits]. rewrite Hd, Hu.
        pose proof (Z.div_mod n 10 ltac:(lia)). f_equal; lia.
Qed.

Lemma decimal_digits_zero (fuel : nat) :
  decimal_digits (S fuel) 0 [] = [Byte.x30].
Proof. reflexivity. Qed.

Lemma decimal_literal (n : Z) :
  - 10 ^ 19 < n < 10 ^ 19 -> int_literal (decimal n) = true.
Proof.
  intros Hn. unfold decimal.
  destruct (n <? 0) eqn:Hneg.
  - apply Z.ltb_lt in Hneg.
    destruct (decimal_digits_positive 19 (- n) ltac:(lia)) as (d & ds & -> & H1 & H2 & _).
    cbn [int_literal]. apply digit19_literal; assumption.
  - apply Z.ltb_ge in Hneg.
    destruct (Z.eq_dec n 0) as [->|Hne]; [reflexivity|].
    destruct (decimal_digits_positive 19 n ltac:(lia)) as (d & ds & -> & H1 & H2 & _).
    unfold int_literal.
    pose proof (digit19_literal d ds H1 H2) as Hl.
    destruct d; try discriminate H1; exact Hl.
Qed.

(** [strconv.ParseInt] reads back what is written in decimal, when it is
    an integer of 64 bits, and refuses it when it is not. *)
Lemma ParseInt_decimal (n : Z) :
  - 10 ^ 19 < n < 10 ^ 19 ->
  json.ParseInt (decimal n) =
  if (- 2 ^ 63 <=? n) && (n <? 2 ^ 63) then Some n else None.
Proof.
  intros Hn. unfold decimal.
  destruct (n <? 0) eqn:Hneg.
  - apply Z.ltb_lt in Hneg.
    destruct (decimal_digits_positive 19 (- n) ltac:(lia)) as (d & ds & -> & H1 & H2 & H3).
    unfold json.ParseInt. cbn [Byte.eqb]. 
    change (Byte.eqb Byte.x2d Byte.x2d) with true. cbv iota.
    rewrite H3. cbn [option_map]. rewrite Z.opp_involutive. reflexivity.
  - apply Z.ltb_ge in Hneg.
    destruct (Z.eq_dec n 0) as [->|Hne]; [reflexivity|].
    destruct (decimal_digits_positive 19 n ltac:(lia)) as (d & ds & -> & H1 & H2 & H3).
    unfold json.ParseInt.
    replace (Byte.eqb d Byte.x2d) with false
      by (destruct d; try discriminate H1; reflexivity).
    rewrite H3. reflexivity.
Qed.

(** The text of a status with one player in the sample. *)
Example encode_status_example :
  encode_status "1.14.4" 498 20 3 [mkSample "Notch" "069a79f4"] (Chat example_motd) "" =
  str "{" ++ quoted "version" ++ str ":{"
  ++ quoted "name" ++ str ":" ++ quoted "1.14.4" ++ str ","
  ++ quoted "protocol" ++ str ":498},"
  ++ quoted "players" ++ str ":{"
  ++ quoted "max" ++ str ":20,"
  ++ quoted "online" ++ str ":3,"
  ++ quoted "sample" ++ str ":[{" ++ quoted "name" ++ str ":" ++ quoted "Notch" ++ str ","
  ++ quoted "id" ++ str ":" ++ quoted "069a79f4" ++ str "}]},"
  ++ quoted "description" ++ str ":{" ++ quoted "text" ++ str ":"
  ++ quoted (section_sign ++ "aA server\nfor all")
  ++ str "}," ++ quoted "favicon" ++ str ":" ++ quoted "" ++ str "}".
Proof. vm_compute. reflexivity. Qed.

(** ** Pieces and their tokens *)

Lemma text_size_cons (p : piece) (ps : list piece) :
  text_size (p :: ps) = (List.length (render_piece p) + text_size ps)%nat.
Proof. unfold text_size, render. cbn [flat_map]. apply length_app. Qed.

Lemma text_size_app (ps qs : list piece) : text_size (ps ++ qs) = (text_size ps + text_size qs)%nat.
Proof. unfold text_size, render. rewrite flat_map_app. apply length_app. Qed.

Lemma tokens_app (ps qs : list piece) :
  forall pos : nat, tokens pos (ps ++ qs) = tokens pos ps ++ tokens (pos + text_size ps) qs.
Proof.
  induction ps as [|p ps IH]; intros pos; cbn [app tokens].
  - unfold text_size. cbn. rewrite Nat.add_0_r. reflexivity.
  - rewrite IH, text_size_cons, Nat.add_assoc. reflexivity.
Qed.

(** The text of some pieces, cut out of the text of all of them. *)
Lemma slice_of_pieces (pre mid post : list piece) (s e : nat) :
  s = text_size pre -> e = (text_size pre + text_size mid)%nat ->
  json.slice_of (render (pre ++ mid ++ post)) s e = render mid.
Proof.
  intros -> ->. unfold json.slice_of, text_size, render.
  rewrite !flat_map_app.
  rewrite skipn_app, skipn_all, Nat.sub_diag. cbn [skipn app].
  replace (List.length (flat_map render_piece pre) + List.length (flat_map render_piece mid)
           - List.length (flat_map render_piece pre))%nat
    with (List.length (flat_map render_piece mid)) by lia.
  rewrite firstn_app, Nat.sub_diag, firstn_all. cbn [firstn]. apply app_nil_r.
Qed.

Lemma store_string_escape (cur s : string) :
  utf8_string s = true -> json.store_string cur (json.JString (escape (str s))) = (s, None).
Proof.
  intros Hp. cbn [json.store_string]. unfold str.
  rewrite unquote_escape by exact Hp.
  rewrite string_of_list_byte_of_string. reflexivity.
Qed.

Lemma store_int_decimal (cur n : Z) :
  int64 n -> json.store_int cur (json.JNumber (decimal n)) = (n, None).
Proof.
  intros Hn. unfold int64 in Hn. cbn [json.store_int].
  rewrite ParseInt_decimal by lia.
  replace ((- 2 ^ 63 <=? n) && (n <? 2 ^ 63)) with true; [reflexivity|].
  symmetry. apply andb_true_intro. split; [apply Z.leb_le | apply Z.ltb_lt]; lia.
Qed.

(** ** The parser on the tokens of a status *)

Lemma push_shallow (f : json.frame) (next : json.pstate) (stack : list json.frame) :
  (List.length stack < 8)%nat -> json.push f next stack = Some (next, f :: stack).
Proof.
  intros H. unfold json.push.
  replace (List.length (f :: stack) <=? json.maxNestingDepth)%nat with true; [reflexivity|].
  symmetry. apply Nat.leb_le.
  assert (Hd : (8 <= json.maxNestingDepth)%nat) by (apply Nat.leb_le; vm_compute; reflexivity).
  cbn [List.length]. lia.
Qed.

Ltac parse_steps :=
  repeat (cbn [json.parse_run json.parse_step json.begin_value json.complete json.read_key
               json.end_object json.end_array fst snd tokens token_of punct_token app
               LBrace RBrace LBracket RBracket Colon Comma Text entry_pieces
               description_pieces];
          rewrite ?push_shallow by (cbn [List.length]; lia)).

Lemma parse_entry (input : list byte) (st : json.pstate) (pos a : nat) (e : SampleEntry)
    (els : list json.value) (stk : list json.frame) (ts : list json.ptoken) :
  st = json.PValue \/ st = json.PArrayStart -> (List.length stk < 6)%nat ->
  exists v : json.value,
    entry_like e v /\
    json.parse_run input st (json.FArray a els :: stk) (tokens pos (entry_pieces e) ++ ts) =
    json.parse_run input json.PAfterValue (json.FArray a (v :: els) :: stk) ts.
Proof.
  intros Hst Hstk. eexists. split.
  2:{ destruct Hst as [-> | ->]; parse_steps; cbn [rev app]; reflexivity. }
  unfold entry_like. eauto.
Qed.

Lemma parse_more_entries (input : list byte) (a : nat) (stk : list json.frame)
    (es : list SampleEntry) :
  (List.length stk < 6)%nat ->
  forall (pos : nat) (els : list json.value) (ts : list json.ptoken),
  exists vs : list json.value,
    Forall2 entry_like es vs /\
    json.parse_run input json.PAfterValue (json.FArray a els :: stk)
      (tokens pos (flat_map (fun e => Comma :: entry_pieces e) es) ++ ts) =
    json.parse_run input json.PAfterValue (json.FArray a (rev vs ++ els) :: stk) ts.
Proof.
  intros Hstk. induction es as [|e es IH]; intros pos els ts.
  - exists []. split; [constructor | reflexivity].
  - cbn [flat_map]. rewrite tokens_app, <- app_assoc.
    change (tokens pos (Comma :: entry_pieces e)) with
      ((json.TComma, (pos, (pos + 1)%nat)) :: tokens (pos + 1) (entry_pieces e)).
    cbn [app json.parse_run json.parse_step fst].
    destruct (parse_entry input json.PValue (pos + 1) a e els stk
                (tokens (pos + text_size (Comma :: entry_pieces e))
                   (flat_map (fun e => Comma :: entry_pieces e) es) ++ ts)
                (or_introl eq_refl) Hstk) as (v & Hv & ->).
    destruct (IH (pos + text_size (Comma :: entry_pieces e))%nat (v :: els) ts)
      as (vs & Hvs & ->).
    exists (v :: vs). split; [constructor; assumption|].
    cbn [rev]. rewrite <- app_assoc. reflexivity.
Qed.

(** The entries between the brackets, from after [[] to after []]: the
    array is the value of the member that is being read. *)
Lemma parse_entries (input : list byte) (a o : nat) (ms : list json.member)
    (k : list byte) (stk : list json.frame) (es : list SampleEntry)
    (pos : nat) (pe : nat * nat) (ts : list json.ptoken) :
  (List.length stk < 5)%nat ->
  exists vs : list json.value,
    Forall2 entry_like es vs /\
    json.parse_run input json.PArrayStart
      (json.FArray a [] :: json.FObject o ms (Some k) :: stk)
      (tokens pos (entries_pieces es) ++ (json.TEndArray, pe) :: ts) =
    json.parse_run input json.PAfterValue
      (json.FObject o ((k, json.JArray vs, json.slice_of input a (snd pe)) :: ms) None :: stk)
      ts.
Proof.
  intros Hstk. destruct es as [|e es].
  - exists []. split; [constructor | reflexivity].
  - cbn [entries_pieces]. rewrite tokens_app, <- app_assoc.
    destruct (parse_entry input json.PArrayStart pos a e []
                (json.FObject o ms (Some k) :: stk)
                (tokens (pos + text_size (entry_pieces e))
                   (flat_map (fun e => Comma :: entry_pieces e) es) ++
                 (json.TEndArray, pe) :: ts)
                (or_intror eq_refl) ltac:(cbn [List.length]; lia)) as (v & Hv & ->).
    destruct (parse_more_entries input a (json.FObject o ms (Some k) :: stk) es
                ltac:(cbn [List.length]; lia)
                (pos + text_size (entry_pieces e))%nat [v] ((json.TEndArray, pe) :: ts))
      as (vs & Hvs & ->).
    exists (v :: vs). split; [constructor; assumption|].
    cbn [json.parse_run json.parse_step json.end_array json.complete fst snd].
    rewrite rev_app_distr, rev_involutive. reflexivity.
Qed.

Lemma well_formed_text (ps qs : list piece) :
  forallb text_piece ps = true -> well_formed (ps ++ qs) = well_formed qs.
Proof.
  induction ps as [|p ps IH]; intros H; [reflexivity|].
  cbn [forallb] in H. apply andb_prop in H. destruct H as [Hp H].
  cbn [app]. destruct p as [b|text|lit]; cbn [text_piece] in Hp; [| |discriminate].
  - cbn [well_formed]. rewrite Hp. apply IH. exact H.
  - cbn [well_formed]. apply IH. exact H.
Qed.

Lemma entry_pieces_text (e : SampleEntry) : forallb text_piece (entry_pieces e) = true.
Proof. reflexivity. Qed.

Lemma entries_pieces_text (es : list SampleEntry) :
  forallb text_piece (entries_pieces es) = true.
Proof.
  destruct es as [|e es]; [reflexivity|].
  cbn [entries_pieces]. rewrite forallb_app, (entry_pieces_text e). cbn [andb].
  induction es as [|e' es IH]; [reflexivity|].
  cbn [flat_map]. rewrite forallb_app. cbn [forallb text_piece Comma].
  rewrite (entry_pieces_text e'), IH. reflexivity.
Qed.

Lemma status_pieces_well_formed (name : string) (protocol max online : Z)
    (sample : list SampleEntry) (motd : description) (favicon : string) :
  int64 protocol -> int64 max -> int64 online ->
  well_formed (status_pieces name protocol max online sample motd favicon) = true.
Proof.
  unfold int64. intros Hp Hm Ho.
  unfold status_pieces.
  cbn [app well_formed Text LBrace RBrace LBracket RBracket Colon Comma is_mark punct_token
       andb].
  rewrite !decimal_literal by lia.
  rewrite well_formed_text by apply entries_pieces_text.
  destruct motd as [text|text]; reflexivity.
Qed.

Lemma parse_encode_status (name : string) (protocol max online : Z)
    (sample : list SampleEntry) (motd : description) (favicon : string) :
  int64 protocol -> int64 max -> int64 online ->
  match json.parse (encode_status name protocol max online sample motd favicon) with
  | Some v => status_like name protocol max online sample motd favicon v
  | None => False
  end.
Proof.
  intros Hp Hm Ho.
  unfold json.parse, encode_status.
  rewrite lex_render by (apply status_pieces_well_formed; assumption).
  remember (render (status_pieces name protocol max online sample motd favicon))
    as input eqn:Hinput.
  unfold status_pieces. cbn [app]. parse_steps.
  rewrite tokens_app. parse_steps.
  match goal with
  | |- context [json.parse_run input json.PArrayStart
                  (json.FArray ?a [] :: json.FObject ?o ?ms (Some ?k) :: ?stk)
                  (tokens ?pos (entries_pieces sample) ++ (json.TEndArray, ?pe) :: ?ts)] =>
      destruct (parse_entries input a o ms k stk sample pos pe ts
                  ltac:(cbn [List.length]; lia)) as (vs & Hvs & ->)
  end.
  destruct motd as [text|text].
  - parse_steps. cbn [rev app].
    match goal with
    | |- context [(escape (str "description"), _, json.slice_of input ?s ?e)] =>
        replace (json.slice_of input s e) with (render (description_pieces (Legacy text)))
    end.
    + unfold status_like. do 8 eexists. exists vs. eexists.
      split; [exact Hvs | reflexivity].
    + subst input. symmetry. unfold status_pieces.
      rewrite (app_assoc (entries_pieces sample)).
      rewrite (app_assoc _ (entries_pieces sample ++ _)).
      apply slice_of_pieces; cbn [description_pieces];
        rewrite !text_size_app, !text_size_cons; change (text_size []) with 0%nat; lia.
  - parse_steps. cbn [rev app].
    match goal with
    | |- context [(escape (str "description"), _, json.slice_of input ?s ?e)] =>
        replace (json.slice_of input s e) with (render (description_pieces (Chat text)))
    end.
    + unfold status_like. do 8 eexists. exists vs. eexists.
      split; [exact Hvs | reflexivity].
    + subst input. symmetry. unfold status_pieces.
      rewrite (app_assoc (entries_pieces sample)).
      rewrite (app_assoc _ (entries_pieces sample ++ _)).
      apply slice_of_pieces; cbn [description_pieces];
        rewrite !text_size_app, !text_size_cons; change (text_size []) with 0%nat; lia.
Qed.

(** ** Storing the value of a status *)

Ltac resolve_keys :=
  repeat match goal with
         | |- context [json.field_of ?fs (json.unquote (str ?k))] =>
             let r := eval vm_compute in (json.field_of fs (json.unquote (str k))) in
             change (json.field_of fs (json.unquote (str k))) with r
         end.

Ltac store_steps :=
  repeat (cbn [json.store_Response json.store_Version json.store_Players
               json.store_SampleEntry json.store_struct json.store_members
               json.member_value json.member_text json.saveError fst snd
               Version Players Description Favicon Version_Name Version_Protocol
               Players_Max Players_Online Players_Sample Sample_Name Sample_Id
               zeroResponse];
          resolve_keys;
          rewrite ?store_string_escape, ?store_int_decimal by assumption).

Lemma store_entry (cur e : SampleEntry) (v : json.value) :
  utf8_entry e = true -> entry_like e v ->
  json.store_SampleEntry cur v = (e, None).
Proof.
  unfold utf8_entry. intros Hp (t1 & t2 & ->).
  apply andb_prop in Hp. destruct Hp as [H1 H2].
  store_steps. destruct e; reflexivity.
Qed.

Lemma store_entries (es : list SampleEntry) :
  forall (vs : list json.value) (backing : list SampleEntry) (saved : option error),
    forallb utf8_entry es = true -> Forall2 entry_like es vs ->
    json.store_elems vs backing saved = (es, saved).
Proof.
  induction es as [|e es IH]; intros vs backing saved Hp Hvs; inversion Hvs; subst.
  - reflexivity.
  - cbn [forallb] in Hp. apply andb_prop in Hp. destruct Hp as [He Hp].
    cbn [json.store_elems].
    rewrite (store_entry _ e y He) by assumption.
    rewrite (IH l' (tl backing) (json.saveError saved None) Hp) by assumption.
    destruct saved; reflexivity.
Qed.

Lemma store_sample (es : list SampleEntry) (vs : list json.value) :
  forallb utf8_entry es = true -> Forall2 entry_like es vs ->
  json.store_Sample nilSlice (json.JArray vs) = (mkSlice es [] true, None).
Proof.
  intros Hp Hvs. destruct vs as [|v vs].
  - inversion Hvs; subst. reflexivity.
  - cbn [json.store_Sample nilSlice elems spare app].
    rewrite (store_entries es (v :: vs) [] None Hp Hvs). reflexivity.
Qed.

Lemma store_status (name : string) (protocol max online : Z)
    (sample : list SampleEntry) (motd : description) (favicon : string) (v : json.value) :
  utf8_string name = true -> utf8_string favicon = true ->
  forallb utf8_entry sample = true ->
  int64 protocol -> int64 max -> int64 online ->
  status_like name protocol max online sample motd favicon v ->
  json.store_Response zeroResponse v =
  (mkResponse (mkVersion name protocol) (mkPlayers max online (mkSlice sample [] true))
     (render (description_pieces motd)) favicon,
   None).
Proof.
  intros Hn Hf Hs Hp Hm Ho (t1 & t2 & t3 & t4 & t5 & t6 & t7 & t8 & vs & dv & Hvs & ->).
  store_steps.
  rewrite (store_sample sample vs Hs Hvs).
  store_steps. reflexivity.
Qed.

(** [json.Unmarshal] of the status a server writes. *)
Lemma Unmarshal_encode_status (name : string) (protocol max online : Z)
    (sample : list SampleEntry) (motd : description) (favicon : string) :
  utf8_string name = true -> utf8_string favicon = true ->
  forallb utf8_entry sample = true ->
  int64 protocol -> int64 max -> int64 online ->
  json.Unmarshal (encode_status name protocol max online sample motd favicon)
    zeroResponse =
  (mkResponse (mkVersion name protocol) (mkPlayers max online (mkSlice sample [] true))
     (render (description_pieces motd)) favicon,
   None).
Proof.
  intros Hn Hf Hs Hp Hm Ho.
  pose proof (parse_encode_status name protocol max online sample motd favicon
                Hp Hm Ho) as H.
  unfold json.Unmarshal.
  destruct (json.parse (encode_status name protocol max online sample motd favicon))
    as [v|]; [|contradiction].
  apply store_status; assumption.
Qed.

(** ** Ping on the status of a server *)

Lemma Ping_dialled (Unmarshal : list byte -> Response -> Response * option error)
    (DialTimeout : string -> error + Conn) (c : Conn)
    (address : string) (port protocolVersion : Z) :
  DialTimeout (address ++ ":" ++ Itoa port)%string = inr c ->
  fst (Ping Unmarshal DialTimeout address port protocolVersion) =
  fst (Ping_exchange Unmarshal c address port protocolVersion).
Proof.
  intros Hd. unfold Ping. rewrite Hd.
  destruct (Ping_exchange Unmarshal c address port protocolVersion). reflexivity.
Qed.

(** X14.  The status of a server is decoded.  When the server sends the
    response packet of
    [{"version":{"name":..,"protocol":..},"players":{"max":..,"online":..,
    "sample":[{"name":..,"id":..},..]},"description":..,"favicon":..}],
    with strings of UTF-8 text in which the quote, the backslash and the
    control characters are escaped, integers of 64 bits in decimal and a
    description that is a string or an object with a text, [Ping]
    returns no error and a [Response] with these values: the name and
    the protocol of the version, the numbers of players, the strings
    without the escapes, the entries of the sample, in their order, as
    the elements of a slice that is not [nil] and whose array holds
    nothing but zero entries past them (how many is the runtime's
    choice), and the text of the description as it was sent. *)
Theorem Ping_decodes_status
    (DialTimeout : string -> error + Conn) (c : Conn)
    (address : string) (port protocolVersion : Z)
    (name : string) (protocol max online : Z) (sample : list SampleEntry)
    (motd : description) (favicon : string) (more : list byte) :
  DialTimeout (address ++ ":" ++ Itoa port)%string = inr c ->
  deadline_result c = None ->
  0 <= to_int32 protocolVersion -> len address + 14 < 2 ^ 31 ->
  pending c =
    response_packet (encode_status name protocol max online sample motd favicon)
    ++ more ->
  Z.of_nat (List.length (encode_status name protocol max online sample motd favicon))
    <= maxAlloc ->
  utf8_string name = true -> utf8_string favicon = true ->
  forallb utf8_entry sample = true ->
  int64 protocol -> int64 max -> int64 online ->
  exists resp : Response,
    fst (Ping json.Unmarshal DialTimeout address port protocolVersion) =
      Return (resp, None) /\
    Version resp = mkVersion name protocol /\
    Players_Max (Players resp) = max /\
    Players_Online (Players resp) = online /\
    elems (Players_Sample (Players resp)) = sample /\
    nonnil (Players_Sample (Players resp)) = true /\
    Forall (eq json.zeroSample) (spare (Players_Sample (Players resp))) /\
    Description resp = render (description_pieces motd) /\
    Favicon resp = favicon.
Proof.
  intros Hdial Hd Hv Ha Hpend Hlen Hn Hf Hs Hp Hm Ho.
  rewrite (Ping_dialled _ _ c) by exact Hdial.
  rewrite Ping_exchange_result, Hd, makeHandshakePacket_some by assumption.
  rewrite Hpend, readResponsePacket_response_packet by assumption.
  cbn [fst after_read].
  rewrite Unmarshal_encode_status by assumption.
  eexists. split; [reflexivity|].
  cbn [Version Players Players_Max Players_Online Players_Sample elems nonnil spare
       Description Favicon].
  repeat split. constructor.
Qed.

(** One player in the sample, a description of two lines with a
    formatting code; the bytes come one at a time, before a stray byte
    and a timeout. *)
Lemma Ping_decodes_status_example :
  exists resp : Response,
    fst (Ping json.Unmarshal (dial_to example_connection)
           "example.org" DefaultPort LatestProtocolVersion) = Return (resp, None) /\
    Version resp = mkVersion "1.14.4" 498 /\
    Players_Max (Players resp) = 20 /\
    Players_Online (Players resp) = 3 /\
    elems (Players_Sample (Players resp)) = [mkSample "Notch" "069a79f4"] /\
    nonnil (Players_Sample (Players resp)) = true /\
    Forall (eq json.zeroSample) (spare (Players_Sample (Players resp))) /\
    Description resp =
      str "{" ++ quoted "text" ++ str ":"
      ++ quoted (section_sign ++ "aA server\nfor all") ++ str "}" /\
    Favicon resp = ""%string.
Proof.
  apply (Ping_decodes_status (dial_to example_connection) example_connection
           "example.org" DefaultPort LatestProtocolVersion
           "1.14.4" 498 20 3 [mkSample "Notch" "069a79f4"] (Chat example_motd) "" [Byte.xff]);
    try reflexivity; try (vm_compute; first [reflexivity | discriminate]);
    try (unfold int64; lia).
Defined.

(** ** An int field takes the integers of 64 bits *)

(** X15.  An [int] field takes the integers of 64 bits: a number in
    decimal is stored when it is at least -2^63 and less than 2^63, and
    otherwise the field keeps its value and the error is a type error
    with the number in it. *)
Theorem store_int_range (cur n : Z) :
  - 10 ^ 19 < n < 10 ^ 19 ->
  json.store_int cur (json.JNumber (decimal n)) =
  if (- 2 ^ 63 <=? n) && (n <? 2 ^ 63) then (n, None)
  else (cur, Some (UnmarshalTypeError ("number " ++ string_of_list_byte (decimal n)))).
Proof.
  intros Hn. cbn [json.store_int]. rewrite ParseInt_decimal by exact Hn.
  destruct ((- 2 ^ 63 <=? n) && (n <? 2 ^ 63)); reflexivity.
Qed.

(** The greatest [int64] is stored, the number after it is refused. *)
Lemma store_int_range_bounds :
  (json.store_int 7 (json.JNumber (decimal (2 ^ 63 - 1))) =
   if (- 2 ^ 63 <=? 2 ^ 63 - 1) && (2 ^ 63 - 1 <? 2 ^ 63) then (2 ^ 63 - 1, None)
   else (7, Some (UnmarshalTypeError
                    ("number " ++ string_of_list_byte (decimal (2 ^ 63 - 1)))))) /\
  (json.store_int 7 (json.JNumber (decimal (2 ^ 63))) =
   if (- 2 ^ 63 <=? 2 ^ 63) && (2 ^ 63 <? 2 ^ 63) then (2 ^ 63, None)
   else (7, Some (UnmarshalTypeError ("number " ++ string_of_list_byte (decimal (2 ^ 63)))))).
Proof.
  split; [apply (store_int_range 7 (2 ^ 63 - 1)) | apply (store_int_range 7 (2 ^ 63))]; lia.
Defined.

(** ** When Ping panics *)

Lemma readResponsePacket_panics (s : ByteStream) :
  fst (readResponsePacket s) = Panic <->
  exists (x declared : Z) (s1 s2 s3 : ByteStream),
    ReadUvarint s = ((x, None), s1) /\
    ReadUvarint s1 = ((0, None), s2) /\
    ReadUvarint s2 = ((declared, None), s3) /\
    maxAlloc < declared.
Proof.
  unfold readResponsePacket, readPayload. split.
  - destruct (ReadUvarint s) as [[x [e1|]] s1] eqn:R1; [discriminate|].
    destruct (ReadUvarint s1) as [[packetId [e2|]] s2] eqn:R2; [discriminate|].
    destruct (packetId =? 0) eqn:Hid; cbn [negb]; [|discriminate].
    apply Z.eqb_eq in Hid. subst packetId.
    destruct (ReadUvarint s2) as [[declared [e3|]] s3] eqn:R3; [discriminate|].
    unfold make_bytes. destruct (declared <=? maxAlloc) eqn:Hm.
    + destruct (readFull s3 (Z.to_nat declared)) as [[got [e4|]] s4]; discriminate.
    + intros _. apply Z.leb_gt in Hm. exists x, declared, s1, s2, s3. auto.
  - intros (x & declared & s1 & s2 & s3 & R1 & R2 & R3 & Hm).
    rewrite R1, R2. cbn [Z.eqb negb]. rewrite R3.
    unfold make_bytes. replace (declared <=? maxAlloc) with false; [reflexivity|].
    symmetry. apply Z.leb_gt. exact Hm.
Qed.

(** X16.  When [Ping] panics.  For an address of less than 2^31 - 14
    bytes, [Ping] panics exactly when the dial and [SetDeadline] have
    succeeded and either [int32(protocolVersion)] is negative, or the
    server has sent a varint, the packet ID 0 and a payload length of
    more than [maxAlloc]. *)
Theorem Ping_panics_iff
    (DialTimeout : string -> error + Conn)
    (address : string) (port protocolVersion : Z) :
  len address + 14 < 2 ^ 31 ->
  (fst (Ping json.Unmarshal DialTimeout address port protocolVersion) = Panic <->
   exists c : Conn,
     DialTimeout (address ++ ":" ++ Itoa port)%string = inr c /\
     deadline_result c = None /\
     (to_int32 protocolVersion < 0 \/
      exists (x declared : Z) (s1 s2 s3 : ByteStream),
        ReadUvarint (mkStream (pending c) (final c)) = ((x, None), s1) /\
        ReadUvarint s1 = ((0, None), s2) /\
        ReadUvarint s2 = ((declared, None), s3) /\
        maxAlloc < declared)).
Proof.
  intros Ha.
  destruct (DialTimeout (address ++ ":" ++ Itoa port)%string) as [e0|c] eqn:Hdial.
  { unfold Ping. rewrite Hdial. cbn [fst]. split; [discriminate|].
    intros (c & Hc & _). discriminate. }
  rewrite (Ping_dialled _ _ c) by exact Hdial.
  rewrite Ping_exchange_result.
  destruct (deadline_result c) as [e0|] eqn:Hd.
  { split; [discriminate|]. intros (c' & Hc & Hd' & _).
    injection Hc as <-. congruence. }
  destruct (Z.lt_ge_cases (to_int32 protocolVersion) 0) as [Hneg|Hpos].
  { rewrite makeHandshakePacket_negative by exact Hneg.
    split; [|reflexivity]. intros _. exists c. auto. }
  rewrite makeHandshakePacket_some by assumption.
  pose proof (readResponsePacket_panics (mkStream (pending c) (final c))) as Hp.
  split.
  - intros H. exists c. split; [reflexivity|]. split; [exact Hd|]. right.
    apply Hp.
    destruct (fst (readResponsePacket (mkStream (pending c) (final c))))
      as [[payload [e1|]]|]; cbn [after_read] in H; try discriminate; reflexivity.
  - intros (c' & Hc & _ & [Hneg|Hex]); [lia|].
    injection Hc as <-. apply Hp in Hex. rewrite Hex. reflexivity.
Qed.

(** The response [0c 00] and the payload length 2^63. *)
Lemma Ping_panics_iff_huge_length :
  fst (Ping json.Unmarshal
         (dial_to (scripted
                     [Chunk Byte.x0c
                        [Byte.x00; Byte.x80; Byte.x80; Byte.x80; Byte.x80; Byte.x80;
                         Byte.x80; Byte.x80; Byte.x80; Byte.x80; Byte.x01]] EOF))
         "x" 25565 0) = Panic <->
  exists c : Conn,
    dial_to (scripted
               [Chunk Byte.x0c
                  [Byte.x00; Byte.x80; Byte.x80; Byte.x80; Byte.x80; Byte.x80;
                   Byte.x80; Byte.x80; Byte.x80; Byte.x80; Byte.x01]] EOF)
      ("x" ++ ":" ++ Itoa 25565)%string = inr c /\
    deadline_result c = None /\
    (to_int32 0 < 0 \/
     exists (x declared : Z) (s1 s2 s3 : ByteStream),
       ReadUvarint (mkStream (pending c) (final c)) = ((x, None), s1) /\
       ReadUvarint s1 = ((0, None), s2) /\
       ReadUvarint s2 = ((declared, None), s3) /\
       maxAlloc < declared).
Proof.
  apply (Ping_panics_iff
           (dial_to (scripted
                       [Chunk Byte.x0c
                          [Byte.x00; Byte.x80; Byte.x80; Byte.x80; Byte.x80; Byte.x80;
                           Byte.x80; Byte.x80; Byte.x80; Byte.x80; Byte.x01]] EOF))
           "x" 25565 0).
  cbn. lia.
Defined.

(** ** Keys in another case *)

Lemma bytes_eqb_eq (a b : list byte) : json.bytes_eqb a b = true <-> a = b.
Proof.
  revert b. induction a as [|x a IH]; intros [|y b]; cbn [json.bytes_eqb];
    try (split; [discriminate | discriminate]); [tauto|].
  rewrite andb_true_iff, IH. split.
  - intros [Hxy ->]. f_equal. apply Byte.byte_dec_bl. exact Hxy.
  - intros H. injection H as -> ->. split; [apply Byte.byte_dec_lb|]; reflexivity.
Qed.

Lemma upper_ascii (b : byte) : is_ascii (json.upper b) = is_ascii b.
Proof.
  unfold is_ascii, json.upper, json.between, json.u.
  destruct ((97 <=? byte.unsigned b) && (byte.unsigned b <=? 122)) eqn:H; [|reflexivity].
  apply andb_prop in H. destruct H as [H1 H2].
  apply Z.leb_le in H1. apply Z.leb_le in H2.
  rewrite unsigned_of_Z_small by lia.
  transitivity true; [|symmetry]; apply Z.ltb_lt; lia.
Qed.

Lemma same_upper_ascii (name key : list byte) :
  forallb is_ascii name = true -> map json.upper key = map json.upper name ->
  forallb is_ascii key = true.
Proof.
  revert key. induction name as [|n name IH]; intros [|k key] Ha H; try discriminate.
  - reflexivity.
  - cbn [map] in H. injection H as Hk H.
    cbn [forallb] in Ha |- *. apply andb_prop in Ha. destruct Ha as [Hn Ha].
    rewrite (IH key Ha H), andb_true_r, <- upper_ascii, Hk, upper_ascii. exact Hn.
Qed.

Lemma equalFold_ascii (name : list byte) :
  forall key : list byte,
    forallb is_ascii key = true ->
    (json.equalFold name key = true <-> map json.upper key = map json.upper name).
Proof.
  induction name as [|n name IH]; intros [|k key] Ha; cbn [json.equalFold map];
    try (split; discriminate); [tauto|].
  cbn [forallb] in Ha. apply andb_prop in Ha. destruct Ha as [Hk Ha].
  unfold is_ascii in Hk. unfold json.u at 1. change 0x80 with 128. rewrite Hk.
  rewrite andb_true_iff, (IH key Ha). split.
  - intros [Hnk ->]. f_equal. symmetry. apply Byte.byte_dec_bl. exact Hnk.
  - intros H. injection H as -> ->. split; [apply Byte.byte_dec_lb|]; reflexivity.
Qed.

Section Fields.

Context {F : Type}.

Lemma distinct_names_field (fields : list (string * F)) :
  distinct_names (map (fun nf => str (fst nf)) fields) = true ->
  forall (n1 n2 : string) (f1 f2 : F),
    In (n1, f1) fields -> In (n2, f2) fields ->
    map json.upper (str n1) = map json.upper (str n2) -> f1 = f2.
Proof.
  induction fields as [|[n f] fields IH]; intros Hd n1 n2 f1 f2 H1 H2 Hu; [contradiction|].
  cbn [map distinct_names fst] in Hd.
  apply andb_prop in Hd. destruct Hd as [Hd Hrest].
  apply andb_prop in Hd. destruct Hd as [_ Hn].
  rewrite forallb_forall in Hn.
  assert (Hother : forall n' f', In (n', f') fields ->
                                 map json.upper (str n) <> map json.upper (str n')).
  { intros n' f' Hin Heq.
    specialize (Hn (str n') (in_map (fun nf => str (fst nf)) fields (n', f') Hin)).
    apply (proj2 (bytes_eqb_eq _ _)) in Heq. rewrite Heq in Hn. discriminate. }
  destruct H1 as [H1|H1]; destruct H2 as [H2|H2].
  - congruence.
  - injection H1 as <- <-. exfalso. exact (Hother n2 f2 H2 Hu).
  - injection H2 as <- <-. exfalso. exact (Hother n1 f1 H1 (eq_sym Hu)).
  - exact (IH Hrest n1 n2 f1 f2 H1 H2 Hu).
Qed.

Lemma distinct_names_ascii (fields : list (string * F)) :
  distinct_names (map (fun nf => str (fst nf)) fields) = true ->
  forall (n : string) (f : F), In (n, f) fields -> forallb is_ascii (str n) = true.
Proof.
  induction fields as [|[n0 f0] fields IH]; intros Hd n f Hin; [contradiction|].
  cbn [map distinct_names fst] in Hd.
  apply andb_prop in Hd. destruct Hd as [Hd Hrest].
  apply andb_prop in Hd. destruct Hd as [Ha _].
  destruct Hin as [Hin|Hin]; [injection Hin as <- <-; exact Ha | exact (IH Hrest n f Hin)].
Qed.

(** A key that is the name of a field but for case names that field. *)
Lemma field_of_same_letters (fields : list (string * F)) (name : string) (f : F)
    (key : list byte) :
  distinct_names (map (fun nf => str (fst nf)) fields) = true ->
  In (name, f) fields -> same_letters key name ->
  json.field_of fields key = Some f.
Proof.
  intros Hd Hin Hs. unfold same_letters in Hs.
  pose proof (distinct_names_ascii fields Hd name f Hin) as Hname.
  pose proof (same_upper_ascii _ _ Hname Hs) as Hkey.
  unfold json.field_of.
  destruct (find (fun nf => json.bytes_eqb (list_byte_of_string (fst nf)) key) fields)
    as [[n' f']|] eqn:Hexact.
  - apply find_some in Hexact. destruct Hexact as [Hin' He]. cbn [fst] in He.
    apply bytes_eqb_eq in He. f_equal.
    apply (distinct_names_field fields Hd n' name f' f Hin' Hin).
    unfold str. rewrite He. exact Hs.
  - destruct (find (fun nf => json.equalFold (list_byte_of_string (fst nf)) key) fields)
      as [[n' f']|] eqn:Hfold.
    + apply find_some in Hfold. destruct Hfold as [Hin' He]. cbn [fst] in He.
      apply (equalFold_ascii _ key Hkey) in He. f_equal.
      apply (distinct_names_field fields Hd n' name f' f Hin' Hin).
      unfold str. rewrite <- He. exact Hs.
    + exfalso. pose proof (find_none _ _ Hfold (name, f) Hin) as Hn. cbn [fst] in Hn.
      rewrite (proj2 (equalFold_ascii (list_byte_of_string name) key Hkey) Hs) in Hn.
      discriminate.
Qed.

End Fields.

(** X17.  The keys of the payload are matched whatever the case of
    their letters: a key that is the name of a field of [Response], of
    its version, of its players or of an entry of the sample, but for
    the case of its letters, names that field. *)
Theorem field_of_any_case (key : list byte) (name : string) :
  same_letters key name ->
  (forall f, In (name, f) json.ResponseFields -> json.field_of json.ResponseFields key = Some f) /\
  (forall f, In (name, f) json.VersionFields -> json.field_of json.VersionFields key = Some f) /\
  (forall f, In (name, f) json.PlayersFields -> json.field_of json.PlayersFields key = Some f) /\
  (forall f, In (name, f) json.SampleFields -> json.field_of json.SampleFields key = Some f).
Proof.
  intros Hs. repeat split; intros f Hin;
    apply (field_of_same_letters _ name f key); try assumption; reflexivity.
Qed.

(** The key [FavIcon]. *)
Lemma field_of_any_case_FavIcon :
  (forall f, In ("favicon"%string, f) json.ResponseFields ->
             json.field_of json.ResponseFields (str "FavIcon") = Some f) /\
  (forall f, In ("favicon"%string, f) json.VersionFields ->
             json.field_of json.VersionFields (str "FavIcon") = Some f) /\
  (forall f, In ("favicon"%string, f) json.PlayersFields ->
             json.field_of json.PlayersFields (str "FavIcon") = Some f) /\
  (forall f, In ("favicon"%string, f) json.SampleFields ->
             json.field_of json.SampleFields (str "FavIcon") = Some f).
Proof. apply (field_of_any_case (str "FavIcon") "favicon"). reflexivity. Defined.

(** A payload with the key [VERSION] and the key [Favicon]. *)
Example Unmarshal_any_case :
  json.Unmarshal
    (str "{" ++ quoted "VERSION" ++ str ":{" ++ quoted "Protocol" ++ str ":47},"
     ++ quoted "Favicon" ++ str ":" ++ quoted "x" ++ str "}")
    zeroResponse =
  (mkResponse (mkVersion "" 47) (mkPlayers 0 0 nilSlice) [] "x", None).
Proof. vm_compute. reflexivity. Qed.

(** ** The two versions of Response *)

(** A key folds to a name by the upper case of the name only. *)
Lemma equalFold_upper (name name' : list byte) :
  map json.upper name = map json.upper name' ->
  forall key : list byte, json.equalFold name key = json.equalFold name' key.
Proof.
  revert name'. induction name as [|n name IH]; intros [|n' name'] H key;
    try discriminate; [reflexivity|].
  cbn [map] in H. injection H as Hn H.
  cbn [json.equalFold]. rewrite Hn.
  destruct key as [|k key1]; [reflexivity|].
  rewrite (IH name' H key1).
  destruct key1 as [|k1 key2]; [reflexivity|].
  rewrite (IH name' H key2).
  destruct key2 as [|k2 key3]; [reflexivity|].
  rewrite (IH name' H key3). reflexivity.
Qed.

Lemma equalFold_refl (name : list byte) :
  forallb is_ascii name = true -> json.equalFold name name = true.
Proof. intros H. apply (equalFold_ascii name name H). reflexivity. Qed.

(** With names that differ by more than case, the field a key names is
    the one whose name it folds to. *)
Lemma field_of_fold {F : Type} (fields : list (string * F)) (key : list byte) :
  distinct_names (map (fun nf => str (fst nf)) fields) = true ->
  json.field_of fields key =
  option_map snd (find (fun nf => json.equalFold (list_byte_of_string (fst nf)) key) fields).
Proof.
  intros Hd. unfold json.field_of.
  destruct (find (fun nf => json.bytes_eqb (list_byte_of_string (fst nf)) key) fields)
    as [[n f]|] eqn:Hexact.
  - apply find_some in Hexact. destruct Hexact as [Hin He]. cbn [fst] in He.
    apply bytes_eqb_eq in He.
    pose proof (distinct_names_ascii fields Hd n f Hin) as Hascii. unfold str in Hascii.
    destruct (find (fun nf => json.equalFold (list_byte_of_string (fst nf)) key) fields)
      as [[n' f']|] eqn:Hfold.
    + apply find_some in Hfold. destruct Hfold as [Hin' He']. cbn [fst] in He'.
      rewrite <- He in He'. apply (equalFold_ascii _ _ Hascii) in He'.
      cbn [option_map snd]. f_equal.
      apply (distinct_names_field fields Hd n n' f f' Hin Hin'). exact He'.
    + exfalso. pose proof (find_none _ _ Hfold (n, f) Hin) as Hn. cbn [fst] in Hn.
      rewrite <- He, (equalFold_refl _ Hascii) in Hn. discriminate.
  - destruct (find (fun nf => json.equalFold (list_byte_of_string (fst nf)) key) fields)
      as [[n' f']|]; reflexivity.
Qed.

Lemma legacy_field_of (key : list byte) :
  json.field_of LegacyResponseFields key = json.field_of json.ResponseFields key.
Proof.
  rewrite !field_of_fold by reflexivity.
  unfold LegacyResponseFields, json.ResponseFields. cbn [find fst].
  rewrite (equalFold_upper (list_byte_of_string "Players") (list_byte_of_string "players")
             eq_refl key).
  repeat match goal with
         | |- context [if json.equalFold ?n key then _ else _] =>
             destruct (json.equalFold n key)
         end; reflexivity.
Qed.

Lemma store_members_same_fields {S F : Type} (fields fields' : list (string * F))
    (store : F -> json.member -> S -> S * option error) :
  (forall key, json.field_of fields key = json.field_of fields' key) ->
  forall (ms : list json.member) (cur : S) (saved : option error),
    json.store_members fields store ms cur saved =
    json.store_members fields' store ms cur saved.
Proof.
  intros H ms. induction ms as [|m ms IH]; intros cur saved; cbn [json.store_members].
  - reflexivity.
  - rewrite H.
    destruct (json.field_of fields' (json.unquote (fst (fst m)))) as [f|]; [|apply IH].
    destruct (store f m cur) as [cur' e]. apply IH.
Qed.


(** ** An empty payload *)

(** X19.  A response that declares an empty payload makes [Ping] return
    a syntax error with the zero [Response], whatever precedes the
    packet ID and whatever follows the length, also when the connection
    has ended there: nothing is read for the payload, and no JSON text is
    empty. *)
Theorem Ping_empty_payload
    (DialTimeout : string -> error + Conn) (c : Conn)
    (address : string) (port protocolVersion : Z) (x : Z) (s1 s2 s3 : ByteStream) :
  DialTimeout (address ++ ":" ++ Itoa port)%string = inr c ->
  deadline_result c = None ->
  0 <= to_int32 protocolVersion -> len address + 14 < 2 ^ 31 ->
  ReadUvarint (mkStream (pending c) (final c)) = ((x, None), s1) ->
  ReadUvarint s1 = ((0, None), s2) ->
  ReadUvarint s2 = ((0, None), s3) ->
  fst (Ping json.Unmarshal DialTimeout address port protocolVersion) =
  Return (zeroResponse, Some SyntaxError).
Proof.
  intros Hdial Hd Hv Ha R1 R2 R3.
  rewrite (Ping_dialled _ _ c) by exact Hdial.
  rewrite Ping_exchange_result, Hd, makeHandshakePacket_some by assumption.
  unfold readResponsePacket, readPayload. rewrite R1, R2. cbn [Z.eqb negb]. rewrite R3.
  reflexivity.
Qed.

(** The response [02 00 00], after which the connection ends. *)
Lemma Ping_empty_payload_at_EOF :
  fst (Ping json.Unmarshal
         (dial_to (scripted [Chunk Byte.x02 [Byte.x00; Byte.x00]] EOF))
         "x" 25565 0) =
  Return (zeroResponse, Some SyntaxError).
Proof.
  apply (Ping_empty_payload
           (dial_to (scripted [Chunk Byte.x02 [Byte.x00; Byte.x00]] EOF))
           (scripted [Chunk Byte.x02 [Byte.x00; Byte.x00]] EOF)
           "x" 25565 0 2
           (mkStream [Byte.x00; Byte.x00] EOF) (mkStream [Byte.x00] EOF) (mkStream [] EOF));
    try reflexivity; cbn; lia.
Defined.

(** ** The values Ping returns *)

Lemma byte_eqb_of_Z (a : Z) (x : byte) :
  0 <= a < 256 -> Byte.eqb (byte.of_Z a) x = (a =? byte.unsigned x).
Proof.
  intros Ha. destruct (Z.eqb_spec a (byte.unsigned x)) as [->|Hne].
  - rewrite byte.of_Z_unsigned. apply Byte.byte_dec_lb. reflexivity.
  - destruct (Byte.eqb (byte.of_Z a) x) eqn:E; [|reflexivity].
    apply Byte.byte_dec_bl in E. subst x. rewrite unsigned_of_Z_small in Hne by lia.
    contradiction.
Qed.

Ltac settle_comparisons :=
  repeat (cbn [andb orb];
          match goal with
          | |- context [?x <=? ?y] =>
              first [ rewrite (proj2 (Z.leb_le x y)) by lia
                    | rewrite (proj2 (Z.leb_gt x y)) by lia ]
          | |- context [?x <? ?y] =>
              first [ rewrite (proj2 (Z.ltb_lt x y)) by lia
                    | rewrite (proj2 (Z.ltb_ge x y)) by lia ]
          | |- context [?x =? ?y] =>
              first [ rewrite (proj2 (Z.eqb_eq x y)) by lia
                    | rewrite (proj2 (Z.eqb_neq x y)) by lia ]
          end);
  cbn [andb orb].

Ltac numeric_bytes :=
  unfold json.rune2, json.rune3, json.rune4, json.cont, json.between, json.u;
  rewrite ?byte_eqb_of_Z by lia;
  rewrite ?unsigned_of_Z_small by lia;
  change (byte.unsigned Byte.xe0) with 0xE0;
  change (byte.unsigned Byte.xed) with 0xED;
  change (byte.unsigned Byte.xf0) with 0xF0;
  change (byte.unsigned Byte.xf4) with 0xF4.

Lemma rune2_of (a b : Z) :
  0xC2 <= a <= 0xDF -> 0x80 <= b <= 0xBF ->
  json.rune2 (byte.of_Z a) (byte.of_Z b) = true.
Proof. intros Ha Hb. numeric_bytes. settle_comparisons. reflexivity. Qed.

Lemma rune3_of (a b c : Z) :
  0xE0 <= a <= 0xEF -> 0x80 <= b <= 0xBF -> 0x80 <= c <= 0xBF ->
  (a = 0xE0 -> 0xA0 <= b) -> (a = 0xED -> b <= 0x9F) ->
  json.rune3 (byte.of_Z a) (byte.of_Z b) (byte.of_Z c) = true.
Proof.
  intros Ha Hb Hc H0 Hd. numeric_bytes.
  assert (Hcase : a = 0xE0 \/ a = 0xED \/ 0xE1 <= a <= 0xEC \/ 0xEE <= a <= 0xEF) by lia.
  destruct Hcase as [E|[E|[E|E]]]; settle_comparisons; reflexivity.
Qed.

Lemma rune4_of (a b c d : Z) :
  0xF0 <= a <= 0xF4 -> 0x80 <= b <= 0xBF -> 0x80 <= c <= 0xBF -> 0x80 <= d <= 0xBF ->
  (a = 0xF0 -> 0x90 <= b) -> (a = 0xF4 -> b <= 0x8F) ->
  json.rune4 (byte.of_Z a) (byte.of_Z b) (byte.of_Z c) (byte.of_Z d) = true.
Proof.
  intros Ha Hb Hc Hd H0 H4. numeric_bytes.
  assert (Hcase : a = 0xF0 \/ a = 0xF4 \/ 0xF1 <= a <= 0xF3) by lia.
  destruct Hcase as [E|[E|E]]; settle_comparisons; reflexivity.
Qed.

Lemma rune2_high (c c1 : byte) : json.rune2 c c1 = true -> (json.u c <? 0x80) = false.
Proof.
  unfold json.rune2. intros H. apply andb_prop in H. destruct H as [H _].
  eapply between_high; [|exact H]. lia.
Qed.

Lemma utf8_ascii (c : byte) (rest : list byte) :
  (json.u c <? 0x80) = true -> utf8 (c :: rest) = utf8 rest.
Proof. intros H. cbn [utf8]. rewrite H. reflexivity. Qed.

Lemma utf8_rune2 (c c1 : byte) (rest : list byte) :
  json.rune2 c c1 = true -> utf8 (c :: c1 :: rest) = utf8 rest.
Proof. intros H. cbn [utf8]. rewrite (rune2_high c c1 H), H. reflexivity. Qed.

Lemma utf8_rune3 (c c1 c2 : byte) (rest : list byte) :
  (json.u c <? 0x80) = false -> json.rune2 c c1 = false -> json.rune3 c c1 c2 = true ->
  utf8 (c :: c1 :: c2 :: rest) = utf8 rest.
Proof. intros H1 H2 H3. cbn [utf8]. rewrite H1, H2, H3. reflexivity. Qed.

Lemma utf8_rune4 (c c1 c2 c3 : byte) (rest : list byte) :
  (json.u c <? 0x80) = false -> json.rune2 c c1 = false -> json.rune3 c c1 c2 = false ->
  json.rune4 c c1 c2 c3 = true ->
  utf8 (c :: c1 :: c2 :: c3 :: rest) = utf8 rest.
Proof. intros H1 H2 H3 H4. cbn [utf8]. rewrite H1, H2, H3, H4. reflexivity. Qed.

Lemma first_high (a : Z) : 0x80 <= a < 256 -> (json.u (byte.of_Z a) <? 0x80) = false.
Proof. intros H. unfold json.u. rewrite unsigned_of_Z_small by lia. apply Z.ltb_ge. lia. Qed.

Lemma rune2_low (a : Z) (c1 : byte) :
  0xE0 <= a < 256 -> json.rune2 (byte.of_Z a) c1 = false.
Proof.
  intros H. unfold json.rune2, json.between, json.u. rewrite unsigned_of_Z_small by lia.
  settle_comparisons. reflexivity.
Qed.

Lemma rune3_low (a : Z) (c1 c2 : byte) :
  0xF0 <= a < 256 -> json.rune3 (byte.of_Z a) c1 c2 = false.
Proof.
  intros H. unfold json.rune3, json.between, json.u.
  rewrite !byte_eqb_of_Z by lia. rewrite ?unsigned_of_Z_small by lia.
  change (byte.unsigned Byte.xe0) with 0xE0. change (byte.unsigned Byte.xed) with 0xED.
  settle_comparisons. reflexivity.
Qed.

Lemma lor_high (hi x : Z) :
  (hi = 0x80 \/ hi = 0xC0 \/ hi = 0xE0 \/ hi = 0xF0) -> 0 <= x < 16 \/ (hi < 0xE0 /\ 0 <= x < 64) ->
  Z.lor hi x = hi + x.
Proof.
  intros Hhi Hx.
  destruct Hhi as [-> | [-> | [-> | ->]]].
  - apply (lor_add 2 6); lia.
  - apply (lor_add 3 6); lia.
  - apply (lor_add 14 4); lia.
  - apply (lor_add 15 4); lia.
Qed.

(** What [EncodeRune] writes is UTF-8. *)
Lemma utf8_EncodeRune (r : Z) (rest : list byte) :
  utf8 (json.EncodeRune r ++ rest) = utf8 rest.
Proof.
  unfold json.EncodeRune.
  destruct ((r <? 0) || (0x10FFFF <? r) || ((0xD800 <=? r) && (r <? 0xE000))) eqn:Hbad;
    [reflexivity|].
  apply orb_false_elim in Hbad. destruct Hbad as [Hbad Hsur].
  apply orb_false_elim in Hbad. destruct Hbad as [H0 Hmax].
  apply Z.ltb_ge in H0, Hmax.
  assert (Hs : r < 0xD800 \/ 0xE000 <= r).
  { apply andb_false_elim in Hsur. destruct Hsur as [H|H];
      [apply Z.leb_gt in H | apply Z.ltb_ge in H]; lia. }
  clear Hsur.
  change 0x3F with (Z.ones 6). rewrite !Z.land_ones, !Z.shiftr_div_pow2 by lia.
  destruct (r <? 0x80) eqn:H1; [apply Z.ltb_lt in H1 | apply Z.ltb_ge in H1].
  { apply utf8_ascii. unfold json.u.
    rewrite unsigned_of_Z_small by lia. apply Z.ltb_lt. lia. }
  destruct (r <? 0x800) eqn:H2; [apply Z.ltb_lt in H2 | apply Z.ltb_ge in H2].
  { cbn [app]. rewrite !lor_high by (Z.div_mod_to_equations; lia).
    apply utf8_rune2. apply rune2_of; Z.div_mod_to_equations; lia. }
  destruct (r <? 0x10000) eqn:H3; [apply Z.ltb_lt in H3 | apply Z.ltb_ge in H3].
  { cbn [app]. rewrite !lor_high by (Z.div_mod_to_equations; lia).
    apply utf8_rune3.
    - apply first_high. Z.div_mod_to_equations; lia.
    - apply rune2_low. Z.div_mod_to_equations; lia.
    - apply rune3_of; Z.div_mod_to_equations; lia. }
  cbn [app]. rewrite !lor_high by (Z.div_mod_to_equations; lia).
  apply utf8_rune4.
  - apply first_high. Z.div_mod_to_equations; lia.
  - apply rune2_low. Z.div_mod_to_equations; lia.
  - apply rune3_low. Z.div_mod_to_equations; lia.
  - apply rune4_of; Z.div_mod_to_equations; lia.
Qed.

Lemma escaped_ascii (e x : byte) : json.escaped e = Some x -> (json.u x <? 0x80) = true.
Proof. destruct e; try discriminate; intros H; injection H as <-; reflexivity. Qed.

Lemma utf8_unquote_upto (n : nat) :
  forall s : list byte, (List.length s <= n)%nat -> utf8 (json.unquote s) = true.
Proof.
  induction n as [|n IH]; intros s Hn.
  { destruct s; [reflexivity | cbn [List.length] in Hn; lia]. }
  destruct s as [|c rest]; [reflexivity|].
  cbn [List.length] in Hn. cbn [json.unquote].
  destruct (Byte.eqb c Byte.x5c).
  - destruct rest as [|e rest1]; [reflexivity|]. cbn [List.length] in Hn.
    destruct (Byte.eqb e Byte.x75).
    + destruct rest1 as [|h1 [|h2 [|h3 [|h4 rest2]]]]; try reflexivity.
      cbn [List.length] in Hn.
      destruct (json.getu4 h1 h2 h3 h4) as [rr|]; [|reflexivity].
      destruct (json.is_surrogate rr).
      * destruct rest2 as [|b1 [|b2 [|g1 [|g2 [|g3 [|g4 rest3]]]]]];
          try (rewrite utf8_EncodeRune; apply IH; cbn [List.length]; lia).
        cbn [List.length] in Hn.
        match goal with
        | |- context [match ?x with Some _ => _ | None => _ end] => destruct x
        end; rewrite utf8_EncodeRune; apply IH; cbn [List.length]; lia.
      * rewrite utf8_EncodeRune. apply IH. lia.
    + destruct (json.escaped e) as [x|] eqn:He; [|reflexivity].
      rewrite (utf8_ascii x _ (escaped_ascii e x He)). apply IH. lia.
  - destruct (json.u c <? 0x80) eqn:Hc.
    { rewrite (utf8_ascii c _ Hc). apply IH. lia. }
    destruct rest as [|c1 rest1]; [reflexivity|]. cbn [List.length] in Hn.
    destruct (json.rune2 c c1) eqn:H2.
    { rewrite (utf8_rune2 c c1 _ H2). apply IH. lia. }
    destruct rest1 as [|c2 rest2];
      [rewrite utf8_EncodeRune; apply IH; cbn [List.length]; lia|].
    cbn [List.length] in Hn.
    destruct (json.rune3 c c1 c2) eqn:H3.
    { rewrite (utf8_rune3 c c1 c2 _ Hc H2 H3). apply IH. lia. }
    destruct rest2 as [|c3 rest3];
      [rewrite utf8_EncodeRune; apply IH; cbn [List.length]; lia|].
    cbn [List.length] in Hn.
    destruct (json.rune4 c c1 c2 c3) eqn:H4.
    { rewrite (utf8_rune4 c c1 c2 c3 _ Hc H2 H3 H4). apply IH. lia. }
    rewrite utf8_EncodeRune. apply IH. cbn [List.length]. lia.
Qed.

(** Whatever is between the quotes, the string it stands for is UTF-8. *)
Lemma utf8_unquote (body : list byte) : utf8 (json.unquote body) = true.
Proof. apply (utf8_unquote_upto (List.length body)). lia. Qed.

Lemma store_string_utf8 (cur : string) (v : json.value) :
  utf8_string cur = true -> utf8_string (fst (json.store_string cur v)) = true.
Proof.
  intros Hc. destruct v; cbn [json.store_string fst]; try exact Hc.
  unfold utf8_string. rewrite list_byte_of_string_of_list_byte. apply utf8_unquote.
Qed.

Lemma ParseInt_int64 (lit : list byte) (n : Z) : json.ParseInt lit = Some n -> int64 n.
Proof.
  unfold json.ParseInt, int64.
  match goal with
  | |- match ?x with Some _ => _ | None => _ end = _ -> _ => destruct x as [m|]
  end; [|discriminate].
  destruct ((- 2 ^ 63 <=? m) && (m <? 2 ^ 63)) eqn:E; [|discriminate].
  intros H. injection H as <-. apply andb_prop in E. destruct E as [E1 E2].
  apply Z.leb_le in E1. apply Z.ltb_lt in E2. lia.
Qed.

Lemma store_int_int64 (cur : Z) (v : json.value) :
  int64 cur -> int64 (fst (json.store_int cur v)).
Proof.
  intros Hc. destruct v; cbn [json.store_int fst]; try exact Hc.
  match goal with
  | |- context [json.ParseInt ?lit] => destruct (json.ParseInt lit) as [n|] eqn:E
  end; cbn [fst]; [|exact Hc].
  exact (ParseInt_int64 _ _ E).
Qed.

(** A struct keeps what each of its fields keeps. *)
Lemma store_members_invariant {S F : Type} (Inv : S -> Prop)
    (fields : list (string * F)) (store : F -> json.member -> S -> S * option error) :
  (forall f m cur, Inv cur -> Inv (fst (store f m cur))) ->
  forall (ms : list json.member) (cur : S) (saved : option error),
    Inv cur -> Inv (fst (json.store_members fields store ms cur saved)).
Proof.
  intros Hstore. induction ms as [|m ms IH]; intros cur saved Hc; cbn [json.store_members].
  - exact Hc.
  - destruct (json.field_of fields (json.unquote (fst (fst m)))) as [f|].
    + specialize (Hstore f m cur Hc). destruct (store f m cur) as [cur' e].
      apply IH. exact Hstore.
    + apply IH. exact Hc.
Qed.

Lemma store_struct_invariant {S F : Type} (Inv : S -> Prop)
    (fields : list (string * F)) (store : F -> json.member -> S -> S * option error) :
  (forall f m cur, Inv cur -> Inv (fst (store f m cur))) ->
  forall (cur : S) (v : json.value),
    Inv cur -> Inv (fst (json.store_struct fields store cur v)).
Proof.
  intros Hstore cur v Hc. destruct v; cbn [json.store_struct fst]; try exact Hc.
  apply store_members_invariant; assumption.
Qed.

Lemma store_SampleEntry_utf8 (cur : SampleEntry) (v : json.value) :
  utf8_entry cur = true -> utf8_entry (fst (json.store_SampleEntry cur v)) = true.
Proof.
  unfold json.store_SampleEntry.
  apply (store_struct_invariant (fun e => utf8_entry e = true)).
  clear cur v. intros f m cur Hc. unfold utf8_entry in *.
  apply andb_prop in Hc. destruct Hc as [H1 H2].
  destruct f.
  - pose proof (store_string_utf8 (Sample_Name cur) (json.member_value m) H1) as H.
    destruct (json.store_string (Sample_Name cur) (json.member_value m)) as [s e].
    cbn [fst Sample_Name Sample_Id] in *. rewrite H, H2. reflexivity.
  - pose proof (store_string_utf8 (Sample_Id cur) (json.member_value m) H2) as H.
    destruct (json.store_string (Sample_Id cur) (json.member_value m)) as [s e].
    cbn [fst Sample_Name Sample_Id] in *. rewrite H, H1. reflexivity.
Qed.

Lemma store_elems_utf8 (vs : list json.value) :
  forall (backing : list SampleEntry) (saved : option error),
    forallb utf8_entry backing = true ->
    forallb utf8_entry (fst (json.store_elems vs backing saved)) = true.
Proof.
  induction vs as [|v vs IH]; intros backing saved Hb; cbn [json.store_elems].
  - reflexivity.
  - assert (Hhd : utf8_entry (hd json.zeroSample backing) = true).
    { destruct backing as [|x backing]; [reflexivity|].
      cbn [forallb] in Hb. apply andb_prop in Hb. exact (proj1 Hb). }
    assert (Htl : forallb utf8_entry (tl backing) = true).
    { destruct backing as [|x backing]; [reflexivity|].
      cbn [forallb] in Hb. apply andb_prop in Hb. exact (proj2 Hb). }
    pose proof (store_SampleEntry_utf8 _ v Hhd) as Hx.
    destruct (json.store_SampleEntry (hd json.zeroSample backing) v) as [x e].
    specialize (IH (tl backing) (json.saveError saved e) Htl).
    destruct (json.store_elems vs (tl backing) (json.saveError saved e)) as [xs saved'].
    cbn [fst forallb] in *. rewrite Hx, IH. reflexivity.
Qed.

Lemma forallb_skipn {A : Type} (p : A -> bool) (n : nat) :
  forall l : list A, forallb p l = true -> forallb p (skipn n l) = true.
Proof.
  induction n as [|n IH]; intros l H; [exact H|].
  destruct l as [|x l]; [reflexivity|].
  cbn [forallb] in H. apply andb_prop in H. cbn [skipn]. apply IH. exact (proj2 H).
Qed.

Lemma store_Sample_utf8 (cur : slice SampleEntry) (v : json.value) :
  utf8_slice cur -> utf8_slice (fst (json.store_Sample cur v)).
Proof.
  unfold utf8_slice. intros [He Hs].
  assert (Hb : forallb utf8_entry (elems cur ++ spare cur) = true).
  { rewrite forallb_app, He, Hs. reflexivity. }
  destruct v as [| | | |vs|]; cbn [json.store_Sample fst]; auto.
  destruct vs as [|v vs]; [auto|].
  pose proof (store_elems_utf8 (v :: vs) _ None Hb) as Hx.
  destruct (json.store_elems (v :: vs) (elems cur ++ spare cur) None) as [xs e].
  cbn [fst elems spare] in *. split; [exact Hx|]. apply forallb_skipn. exact Hb.
Qed.

Lemma store_Version_utf8 (cur : VersionInfo) (v : json.value) :
  utf8_string (Version_Name cur) = true /\ int64 (Version_Protocol cur) ->
  utf8_string (Version_Name (fst (json.store_Version cur v))) = true /\
  int64 (Version_Protocol (fst (json.store_Version cur v))).
Proof.
  unfold json.store_Version.
  apply (store_struct_invariant
           (fun x => utf8_string (Version_Name x) = true /\ int64 (Version_Protocol x))).
  clear cur v. intros f m cur [H1 H2]. destruct f.
  - pose proof (store_string_utf8 (Version_Name cur) (json.member_value m) H1) as H.
    destruct (json.store_string (Version_Name cur) (json.member_value m)) as [s e].
    cbn [fst Version_Name Version_Protocol] in *. auto.
  - pose proof (store_int_int64 (Version_Protocol cur) (json.member_value m) H2) as H.
    destruct (json.store_int (Version_Protocol cur) (json.member_value m)) as [n e].
    cbn [fst Version_Name Version_Protocol] in *. auto.
Qed.

Lemma store_Players_utf8 (cur : PlayersInfo) (v : json.value) :
  int64 (Players_Max cur) /\ int64 (Players_Online cur) /\ utf8_slice (Players_Sample cur) ->
  int64 (Players_Max (fst (json.store_Players cur v))) /\
  int64 (Players_Online (fst (json.store_Players cur v))) /\
  utf8_slice (Players_Sample (fst (json.store_Players cur v))).
Proof.
  unfold json.store_Players.
  apply (store_struct_invariant
           (fun x => int64 (Players_Max x) /\ int64 (Players_Online x) /\
                     utf8_slice (Players_Sample x))).
  clear cur v. intros f m cur (H1 & H2 & H3). destruct f.
  - pose proof (store_int_int64 (Players_Max cur) (json.member_value m) H1) as H.
    destruct (json.store_int (Players_Max cur) (json.member_value m)) as [n e].
    cbn [fst Players_Max Players_Online Players_Sample] in *. auto.
  - pose proof (store_int_int64 (Players_Online cur) (json.member_value m) H2) as H.
    destruct (json.store_int (Players_Online cur) (json.member_value m)) as [n e].
    cbn [fst Players_Max Players_Online Players_Sample] in *. auto.
  - pose proof (store_Sample_utf8 (Players_Sample cur) (json.member_value m) H3) as H.
    destruct (json.store_Sample (Players_Sample cur) (json.member_value m)) as [s e].
    cbn [fst Players_Max Players_Online Players_Sample] in *. auto.
Qed.

Lemma store_Response_representable (cur : Response) (v : json.value) :
  representable cur -> representable (fst (json.store_Response cur v)).
Proof.
  unfold json.store_Response. apply (store_struct_invariant representable).
  clear cur v. unfold representable. intros f m cur (H1 & H2 & H3 & H4 & H5 & H6).
  destruct f.
  - pose proof (store_Version_utf8 (Version cur) (json.member_value m) (conj H1 H2)) as H.
    destruct (json.store_Version (Version cur) (json.member_value m)) as [x e].
    cbn [fst Version Players Favicon] in *. tauto.
  - pose proof (store_Players_utf8 (Players cur) (json.member_value m)
                  (conj H3 (conj H4 H5))) as H.
    destruct (json.store_Players (Players cur) (json.member_value m)) as [x e].
    cbn [fst Version Players Favicon] in *. tauto.
  - cbn [fst Version Players Favicon]. tauto.
  - pose proof (store_string_utf8 (Favicon cur) (json.member_value m) H6) as H.
    destruct (json.store_string (Favicon cur) (json.member_value m)) as [s e].
    cbn [fst Version Players Favicon] in *. tauto.
Qed.

Lemma representable_zero : representable zeroResponse.
Proof. unfold representable, utf8_slice, int64. cbn. repeat split; lia. Qed.

Lemma Unmarshal_representable (data : list byte) (resp : Response) :
  representable resp -> representable (fst (json.Unmarshal data resp)).
Proof.
  intros H. unfold json.Unmarshal. destruct (json.parse data) as [v|]; [|exact H].
  apply store_Response_representable. exact H.
Qed.

(** X20.  Whatever the server sends, the [Response] [Ping] returns, with
    or without an error, has strings in UTF-8 (the name of the version,
    the favicon, the names and ids of the sample: bytes that are not
    UTF-8 were replaced by U+FFFD) and integers of 64 bits (the protocol,
    the maximum and the number of players). *)
Theorem Ping_response_representable
    (DialTimeout : string -> error + Conn)
    (address : string) (port protocolVersion : Z) (resp : Response) (e : option error) :
  fst (Ping json.Unmarshal DialTimeout address port protocolVersion) = Return (resp, e) ->
  representable resp.
Proof.
  unfold Ping.
  destruct (DialTimeout (address ++ ":" ++ Itoa port)%string) as [e0|c] eqn:Hdial.
  { cbn [fst]. intros H. injection H as <- <-. apply representable_zero. }
  pose proof (Ping_exchange_result json.Unmarshal c address port protocolVersion) as Hr.
  destruct (Ping_exchange json.Unmarshal c address port protocolVersion) as [r c'].
  cbn [fst] in *. intros H. rewrite H in Hr. clear H. symmetry in Hr.
  destruct (deadline_result c) as [e0|].
  { injection Hr as <- <-. apply representable_zero. }
  destruct (makeHandshakePacket address port protocolVersion) as [hs|]; [|discriminate].
  destruct (fst (readResponsePacket (mkStream (pending c) (final c))))
    as [[payload [e1|]]|]; cbn [after_read] in Hr; [| |discriminate].
  - injection Hr as <- <-. apply representable_zero.
  - pose proof (Unmarshal_representable payload zeroResponse representable_zero) as Hu.
    destruct (json.Unmarshal payload zeroResponse) as [resp' e'].
    injection Hr as E1 E2. subst resp' e'. exact Hu.
Qed.

(** A favicon that is the byte [ff] comes back as U+FFFD. *)
Lemma Ping_response_representable_invalid_utf8 :
  representable
    (mkResponse (mkVersion "" 0) (mkPlayers 0 0 nilSlice) [] replacement_character).
Proof.
  apply (Ping_response_representable
           (dial_to (scripted (bytewise (response_packet payload_invalid_utf8)) EOF))
           "example.org" DefaultPort LatestProtocolVersion _ None).
  vm_compute. reflexivity.
Defined.
